(** * GeminiDoodle: generative-object pipeline

    A shallow embedding of the sandbox executor ([src/executor.js]), the
    object registry ([src/objects.js]), the two-tier cache ([src/cache.js])
    and the orchestrator ([main.js]: [handleSearch] and the game [loop]),
    with the properties of the pipeline proved over it.

    JavaScript objects are references: tracked objects and physics bodies
    live in stores indexed by identifiers, and the arrays of the program
    ([objects], [ephemeral], [updaters], [rootBodies]) hold identifiers.
    Calls on external collaborators (the physics world, the console, the
    loading overlay) are recorded as events. *)

From Stdlib Require Import QArith Ascii.
From stdpp Require Import base option list gmap strings.

Local Open Scope string_scope.
Local Open Scope nat_scope.
Local Open Scope list_scope.

(** ** Identifiers, errors, events *)

Definition ObjId := nat.
Definition BodyId := nat.

(** A JavaScript [Error] (or [TypeError]) with its message. *)
Record JsError := mkError { message : string }.

(** A value thrown by generated code, which may throw anything: an
    [Error] (or another object, [message] being the text that
    [`${e.message}`] gives), [null], [undefined], or a value that has no
    [message] (a string, a number), for which [e.message] is [undefined]. *)
Inductive Thrown :=
| ThrownError (e : JsError)
| ThrownNull
| ThrownUndefined
| ThrownOther.

Coercion ThrownError : JsError >-> Thrown.

Inductive Event :=
| EvDestroyBody (b : BodyId)      (* world.destroyBody(b) *)
| EvTick (u : nat)                (* updaters[i].update() entered *)
| EvInvoke (u : nat)              (* origUpdate() entered *)
| EvWarn (u : nat) (e : Thrown)   (* console.warn('Updater error, removing:', e) *)
| EvLog (tag arg : string)        (* console.log(tag, ..., arg) *)
| EvSetLoading (on : bool)        (* searchBar.setLoading / geminiIcon.setLoading *)
| EvShowLoading (msg : string)    (* overlay.showLoading *)
| EvShowSuccess (msg : string)    (* overlay.showSuccess *)
| EvShowError (msg : string)      (* overlay.showError *)
| EvConsoleError (e : JsError).   (* console.error('Generation failed:', e) *)

(** ** A state, event and exception monad

    A JavaScript statement may change the state, call out to a collaborator
    and throw; what it changed before throwing stays changed. *)

Inductive Result (E A : Type) :=
| Ok (a : A)
| Throw (e : E).
Arguments Ok {E A} a.
Arguments Throw {E A} & e.

(** The outcome of code of the page itself, which throws [Error]s only. *)
Abbreviation Outcome := (Result JsError).

Definition M (S A : Type) : Type := S -> S * list Event * Outcome A.

Definition ret {S A} (a : A) : M S A := fun s => (s, [], Ok a).

Definition bind {S A B} (m : M S A) (k : A -> M S B) : M S B :=
  fun s =>
    match m s with
    | (s1, ev1, Ok a) =>
        match k a s1 with
        | (s2, ev2, r) => (s2, ev1 ++ ev2, r)
        end
    | (s1, ev1, Throw e) => (s1, ev1, Throw e)
    end.

Definition throw {S A} (e : JsError) : M S A := fun s => (s, [], Throw e).
Definition emit {S} (ev : Event) : M S unit := fun s => (s, [ev], Ok tt).
Definition gets {S A} (f : S -> A) : M S A := fun s => (s, [], Ok (f s)).
Definition modify {S} (f : S -> S) : M S unit := fun s => (f s, [], Ok tt).

(** [try { m } catch (e) { h e }] *)
Definition try_catch {S A} (m : M S A) (h : JsError -> M S A) : M S A :=
  fun s =>
    match m s with
    | (s1, ev1, Throw e) =>
        match h e s1 with
        | (s2, ev2, r) => (s2, ev1 ++ ev2, r)
        end
    | r => r
    end.

#[global] Instance M_ret {S} : MRet (M S) := fun A a => ret a.
#[global] Instance M_bind {S} : MBind (M S) := fun A B k m => bind m k.

(** ** Data model *)

(** User data that is an object: the tag the executor writes, and whatever
    else the generated code stored there. *)
Record UserData := mkUserData { isEphemeral : bool; payload : nat }.

(** What [body.getUserData()] returns: a falsy value (nothing was set, or
    [null], [0], the empty string), an object that takes the tag, or a
    value on which the assignment [ud.isEphemeral = true] throws in strict
    mode (a truthy primitive such as a string or a number, a frozen
    object), with the engine's complaint. *)
Inductive UserDataValue :=
| UdFalsy
| UdObject (ud : UserData)
| UdRefusing (complaint : string).

(** A physics body, as far as the pipeline reads or writes it. Numbers are
    rationals; the derived mass data that [resetMassData] recomputes is not
    tracked. *)
Record Body := mkBody {
  active : bool;             (* body.isActive() *)
  gravityScale : Q;          (* body.setGravityScale *)
  fixtures : list Q;         (* the density of each fixture, in list order *)
  userData : UserDataValue   (* body.getUserData() *)
}.

(** A tracked object: its body and the lifecycle flags. A flag that is
    absent on the JavaScript object reads as [false]. Rendering metadata
    (shape, dimensions, colour) plays no part here and is left out. *)
Record TrackedObject := mkObj {
  obj_body : BodyId;
  obj_spawned : bool;
  obj_ephemeral : bool
}.

(** What generated code does to the executor: it registers objects it
    built and it may throw, any value. What it does to the world directly
    (moving, deactivating or destroying a body) is not part of a script. *)
Inductive GenCmd :=
| GRegister (o : ObjId)      (* registerObject(o) *)
| GThrow (v : Thrown).       (* throw v *)

(** The variables of one [execute] call, captured by [wrappedRegister] and
    by the updater it may push. *)
Record Closure := mkClosure {
  inUpdate : bool;
  rootBodies : list BodyId
}.

(** An element of [updaters]. [origUpdate] is the generated [update]; its
    behaviour on its [k+1]-th invocation is [origUpdate k], and [calls]
    counts the invocations so far (the private state of the generated
    closure). [uid] is the identity of the handle object. *)
Record Updater := mkUpdater {
  uid : nat;
  dead : bool;
  env : Closure;
  origUpdate : nat -> list GenCmd;
  calls : nat
}.

(** The object registry of [objects.js], the executor created by
    [createExecutor] and the stores they point into. *)
Record State := mkState {
  objects : list ObjId;               (* objects.js: const objects = [] *)
  ephemeral : list ObjId;             (* the global ring buffer *)
  updaters : list Updater;
  heap : gmap ObjId TrackedObject;
  bodies : gmap BodyId Body;
  nextUid : nat
}.

Definition MAX_EPHEMERAL : nat := 200.

Definition set_objects (f : list ObjId -> list ObjId) (st : State) : State :=
  mkState (f (objects st)) (ephemeral st) (updaters st) (heap st) (bodies st) (nextUid st).
Definition set_ephemeral (f : list ObjId -> list ObjId) (st : State) : State :=
  mkState (objects st) (f (ephemeral st)) (updaters st) (heap st) (bodies st) (nextUid st).
Definition set_updaters (f : list Updater -> list Updater) (st : State) : State :=
  mkState (objects st) (ephemeral st) (f (updaters st)) (heap st) (bodies st) (nextUid st).
Definition set_heap (f : gmap ObjId TrackedObject -> gmap ObjId TrackedObject)
    (st : State) : State :=
  mkState (objects st) (ephemeral st) (updaters st) (f (heap st)) (bodies st) (nextUid st).
Definition set_bodies (f : gmap BodyId Body -> gmap BodyId Body) (st : State) : State :=
  mkState (objects st) (ephemeral st) (updaters st) (heap st) (f (bodies st)) (nextUid st).
Definition set_nextUid (f : nat -> nat) (st : State) : State :=
  mkState (objects st) (ephemeral st) (updaters st) (heap st) (bodies st) (f (nextUid st)).

(** [createExecutor(world)] over a world and a heap: nothing registered,
    an empty ring buffer, no updater. *)
Definition createExecutor (h : gmap ObjId TrackedObject) (w : gmap BodyId Body)
    (objs : list ObjId) : State :=
  mkState objs [] [] h w 0.

(** ** objects.js *)

Definition registerObject (o : ObjId) (st : State) : State :=
  set_objects (fun l => l ++ [o]) st.

(** [objects.indexOf(obj)], [None] for [-1]. *)
Fixpoint indexOf (l : list ObjId) (o : ObjId) : option nat :=
  match l with
  | [] => None
  | x :: l' => if decide (x = o) then Some 0 else S <$> indexOf l' o
  end.

Definition unregisterObject (o : ObjId) (st : State) : State :=
  match indexOf (objects st) o with
  | Some i => set_objects (delete i) st
  | None => st
  end.

(** ** executor.js: the register capability *)

Definition closure_state : Type := Closure * State.

Definition onState {A} (f : State -> State * A) : M closure_state A :=
  fun cs => let '(st', a) := f (snd cs) in ((fst cs, st'), [], Ok a).

Definition typeError (what : string) : JsError :=
  mkError (String.append "Cannot read properties of undefined (reading '"
             (String.append what "')")).

Definition typeErrorSet (what : string) : JsError :=
  mkError (String.append "Cannot set properties of undefined (setting '"
             (String.append what "')")).

(** Assigning to a property of [heap[o]]; a reference that is no object
    throws. *)
Definition assignObj (o : ObjId) (what : string) : M closure_state TrackedObject :=
  fun cs =>
    match heap (snd cs) !! o with
    | Some ob => (cs, [], Ok ob)
    | None => (cs, [], Throw (typeErrorSet what))
    end.

(** Reading a property of [heap[o]]; a reference that is no object throws. *)
Definition readObj (o : ObjId) (what : string) : M closure_state TrackedObject :=
  fun cs =>
    match heap (snd cs) !! o with
    | Some ob => (cs, [], Ok ob)
    | None => (cs, [], Throw (typeError what))
    end.

(** Calling a method of [bodies[b]]; a value that is no body throws. *)
Definition readBody (b : BodyId) (what : string) : M closure_state Body :=
  fun cs =>
    match bodies (snd cs) !! b with
    | Some bd => (cs, [], Ok bd)
    | None => (cs, [], Throw (typeError what))
    end.

Definition writeObj (o : ObjId) (ob : TrackedObject) : M closure_state unit :=
  modify (fun cs => (fst cs, set_heap (insert o ob) (snd cs))).

Definition writeBody (b : BodyId) (bd : Body) : M closure_state unit :=
  modify (fun cs => (fst cs, set_bodies (insert b bd) (snd cs))).

(** The complaint of the engine when the user data of the body refuses
    the tag, [None] when it takes it. *)
Definition refusal (bd : Body) : option string :=
  match userData bd with UdRefusing complaint => Some complaint | _ => None end.

(** The body once its user data carries the tag. *)
Definition tagged (bd : Body) : Body :=
  let ud := match userData bd with UdObject ud => ud | _ => mkUserData false 0 end in
  mkBody (active bd) (gravityScale bd) (fixtures bd)
         (UdObject (mkUserData true (payload ud))).

(** [ud = body.getUserData() || {}; ud.isEphemeral = true; body.setUserData(ud)]:
    the assignment throws a [TypeError] on user data that refuses it, and
    [setUserData] is not reached. *)
Definition tagEphemeral (bd : Body) : M closure_state Body :=
  fun cs =>
    match refusal bd with
    | Some complaint => (cs, [], Throw (mkError complaint))
    | None => (cs, [], Ok (tagged bd))
    end.

Definition setGravityScale (g : Q) (bd : Body) : Body :=
  mkBody (active bd) g (fixtures bd) (userData bd).

(** [for (f = body.getFixtureList(); f; f = f.getNext()) f.setDensity(d)] *)
Definition setAllDensities (d : Q) (bd : Body) : Body :=
  mkBody (active bd) (gravityScale bd) (map (fun _ => d) (fixtures bd)) (userData bd).

(** [ephemeral.shift()] followed by the eviction of what it returned. *)
Definition evictOldest : M closure_state unit :=
  buf ← gets (fun cs => ephemeral (snd cs));
  match buf with
  | [] => ret tt
  | old :: rest =>
      modify (fun cs => (fst cs, set_ephemeral (fun _ => rest) (snd cs)));;
      modify (fun cs => (fst cs, unregisterObject old (snd cs)));;
      ob ← readObj old "body";
      emit (EvDestroyBody (obj_body ob))
  end.

Definition wrappedRegister (o : ObjId) : M closure_state unit :=
  ob ← assignObj o "spawned";
  let ob1 := mkObj (obj_body ob) true (obj_ephemeral ob) in
  writeObj o ob1;;
  modify (fun cs => (fst cs, registerObject o (snd cs)));;
  inUpd ← gets (fun cs => inUpdate (fst cs));
  if inUpd : bool then
    writeObj o (mkObj (obj_body ob1) (obj_spawned ob1) true);;
    bd ← readBody (obj_body ob1) "getUserData";
    bd1 ← tagEphemeral bd;
    writeBody (obj_body ob1) (setAllDensities 0 (setGravityScale 0 bd1));;
    modify (fun cs => (fst cs, set_ephemeral (fun l => l ++ [o]) (snd cs)));;
    len ← gets (fun cs => length (ephemeral (snd cs)));
    if decide (MAX_EPHEMERAL < len) then evictOldest else ret tt
  else
    modify (fun cs =>
      (mkClosure (inUpdate (fst cs)) (rootBodies (fst cs) ++ [obj_body ob1]), snd cs)).

(** ** executor.js: [execute] and the updater it pushes *)

(** What [new Function(..., code)] yields for a source string: a syntax
    error with the engine's complaint, or a function. The function's one
    call is the setup script; it may return an object with an [update]. *)
Record GenFn := mkGenFn {
  setup : list GenCmd;
  result_update : option (nat -> list GenCmd)
}.

Inductive Compiled :=
| SyntaxError (msg : string)
| Function (fn : GenFn).

(** Generated code running against the register capability. What it
    throws is the [TypeError] of a registration or the value of its own
    [throw]. *)
Fixpoint run_script (s : list GenCmd) (cs : closure_state)
    : closure_state * list Event * Result Thrown unit :=
  match s with
  | [] => (cs, [], Ok tt)
  | GRegister o :: s' =>
      match wrappedRegister o cs with
      | (cs1, evs1, Ok _) =>
          let '(cs2, evs2, r) := run_script s' cs1 in (cs2, evs1 ++ evs2, r)
      | (cs1, evs1, Throw e) => (cs1, evs1, Throw (ThrownError e))
      end
  | GThrow v :: _ => (cs, [], Throw v)
  end.

Definition syntaxErrorMessage (msg : string) : string :=
  String.append "Syntax error in generated code: " msg.
Definition runtimeErrorMessage (msg : string) : string :=
  String.append "Runtime error in generated code: " msg.

(** [rootBodies.every(b => !b.isActive())]: left to right, stopping at the
    first active body; a root that is no body throws. *)
Fixpoint every_inactive (w : gmap BodyId Body) (l : list BodyId) : Outcome bool :=
  match l with
  | [] => Ok true
  | b :: l' =>
      match w !! b with
      | None => Throw (typeError "isActive")
      | Some bd => if active bd then Ok false else every_inactive w l'
      end
  end.

(** [rootBodies.length > 0 && rootBodies.every(b => !b.isActive())] *)
Definition allRootsInactive (w : gmap BodyId Body) (l : list BodyId) : Outcome bool :=
  if decide (0 < length l) then every_inactive w l else Ok false.

Definition set_dead (d : bool) (u : Updater) : Updater :=
  mkUpdater (uid u) d (env u) (origUpdate u) (calls u).

(** The state of the handle after [origUpdate] was entered: [calls] counts
    the invocation, [inUpdate] is what the wrapper left it at. *)
Definition after_call (cl : Closure) (flag : bool) (u : Updater) : Updater :=
  mkUpdater (uid u) (dead u) (mkClosure flag (rootBodies cl)) (origUpdate u) (S (calls u)).

(** The [update()] method of the handle pushed by [execute]. *)
Definition update (us : Updater * State)
    : (Updater * State) * list Event * Result Thrown unit :=
  let '(u, st) := us in
    match allRootsInactive (bodies st) (rootBodies (env u)) with
    | Throw e => ((u, st), [EvTick (uid u)], Throw (ThrownError e))
    | Ok true => ((set_dead true u, st), [EvTick (uid u)], Ok tt)
    | Ok false =>
        match run_script (origUpdate u (calls u))
                (mkClosure true (rootBodies (env u)), st) with
        | ((cl, st'), evs, Ok _) =>
            ((after_call cl false u, st'),
             EvTick (uid u) :: EvInvoke (uid u) :: evs, Ok tt)
        | ((cl, st'), evs, Throw e) =>
            ((after_call cl true u, st'),
             EvTick (uid u) :: EvInvoke (uid u) :: evs, Throw e)
        end
    end.

(** [catch (e) { throw new Error(`Runtime error in generated code: ${e.message}`) }]:
    what leaves the [catch]. Reading [message] of [null] or [undefined]
    throws a [TypeError] of its own, which leaves instead. *)
Definition rethrown (v : Thrown) : JsError :=
  match v with
  | ThrownError e => mkError (runtimeErrorMessage (message e))
  | ThrownNull => mkError "Cannot read properties of null (reading 'message')"
  | ThrownUndefined => typeError "message"
  | ThrownOther => mkError (runtimeErrorMessage "undefined")
  end.

Section Executor.

(** The JavaScript engine's compiler, [new Function]. *)
Variable js_compile : string -> Compiled.

(** [execute(code, spawnX, spawnY)]. The spawn coordinates only position
    the bodies the generated code creates and are left out. *)
Definition execute (code : string) : M State unit :=
  fun st =>
    match js_compile code with
    | SyntaxError msg => (st, [], Throw (mkError (syntaxErrorMessage msg)))
    | Function fn =>
        match run_script (setup fn) (mkClosure false [], st) with
        | ((cl, st1), evs, Throw v) => (st1, evs, Throw (rethrown v))
        | ((cl, st1), evs, Ok _) =>
            match result_update fn with
            | Some upd =>
                (set_nextUid S
                   (set_updaters
                      (fun l => l ++ [mkUpdater (nextUid st1) false cl upd 0]) st1),
                 evs, Ok tt)
            | None => (st1, evs, Ok tt)
            end
        end
    end.

End Executor.

(** ** main.js: the updater part of the game loop

    [for (let i = updaters.length - 1; i >= 0; i--)
       try { updaters[i].update() } catch (e) { warn; updaters.splice(i, 1) }]
    [loop_from i] runs the iterations for indices [i-1] down to [0]. *)
Fixpoint loop_from (i : nat) (st : State) : State * list Event :=
  match i with
  | 0 => (st, [])
  | S j =>
      match updaters st !! j with
      | None => loop_from j st
      | Some u =>
          match update (u, st) with
          | ((u', st'), evs, Ok _) =>
              let '(st'', evs') := loop_from j (set_updaters (fun l => <[j := u']> l) st') in
              (st'', evs ++ evs')
          | ((u', st'), evs, Throw e) =>
              let '(st'', evs') := loop_from j (set_updaters (fun l => delete j l) st') in
              (st'', evs ++ EvWarn (uid u) e :: evs')
          end
      end
  end.

Definition loop (st : State) : State * list Event :=
  loop_from (length (updaters st)) st.

(** [n] updater passes in a row, with the events of all of them. What
    else a frame does, and whether it schedules the next one, is in
    [frame] and [animation] below. *)
Fixpoint frames (n : nat) (st : State) : State * list Event :=
  match n with
  | 0 => (st, [])
  | S n' =>
      let '(st1, evs1) := loop st in
      let '(st2, evs2) := frames n' st1 in
      (st2, evs1 ++ evs2)
  end.

(** ** cache.js *)

Definition LS_PREFIX : string := "objcache:".

Definition quote : ascii := "034"%char.
Definition backslash : ascii := "\"%char.

(** [key.replace(/[.$#\[\]/]/g, '_')] *)
Definition encodeChar (c : ascii) : ascii :=
  if decide (c = "."%char \/ c = "$"%char \/ c = "#"%char \/
             c = "["%char \/ c = "]"%char \/ c = "/"%char)
  then "_"%char else c.

Fixpoint encodeFirebaseKey (key : string) : string :=
  match key with
  | EmptyString => EmptyString
  | String c rest => String (encodeChar c) (encodeFirebaseKey rest)
  end.

(** *** JSON text of a string

    [JSON.stringify] of a string: the characters between two quotes, with
    the quote, the backslash and the control characters escaped. *)
Definition hexDigit (n : N) : ascii :=
  if decide (n < 10)%N then ascii_of_N (48 + n) else ascii_of_N (87 + n).

Definition escapeChar (c : ascii) : string :=
  if decide (c = quote) then String backslash (String quote EmptyString)
  else if decide (c = backslash) then String backslash (String backslash EmptyString)
  else if decide (c = "008"%char) then "\b"
  else if decide (c = "009"%char) then "\t"
  else if decide (c = "010"%char) then "\n"
  else if decide (c = "012"%char) then "\f"
  else if decide (c = "013"%char) then "\r"
  else if decide (N_of_ascii c < 32)%N then
    String.append "\u00"
      (String (hexDigit (N_of_ascii c / 16)) (String (hexDigit (N_of_ascii c mod 16)) EmptyString))
  else String c EmptyString.

Fixpoint escape (s : string) : string :=
  match s with
  | EmptyString => EmptyString
  | String c rest => String.append (escapeChar c) (escape rest)
  end.

Definition JSON_stringify (s : string) : string :=
  String quote (String.append (escape s) (String quote EmptyString)).

Definition hexValue (c : ascii) : option N :=
  let n := N_of_ascii c in
  if decide (48 <= n /\ n <= 57)%N then Some (n - 48)%N
  else if decide (97 <= n /\ n <= 102)%N then Some (n - 87)%N
  else if decide (65 <= n /\ n <= 70)%N then Some (n - 55)%N
  else None.

(** [\uXXXX]: the code unit, when it is a character of the model. *)
Definition unicodeEscape (a b c d : ascii) : option ascii :=
  h1 ← hexValue a; h2 ← hexValue b; h3 ← hexValue c; h4 ← hexValue d;
  let n := (((h1 * 16 + h2) * 16 + h3) * 16 + h4)%N in
  if decide (n < 256)%N then Some (ascii_of_N n) else None.

(** The characters of a JSON string literal after its opening quote, up to
    the closing quote, which must end the text. *)
Fixpoint unescape (t : string) : option string :=
  match t with
  | EmptyString => None
  | String c rest =>
      if decide (c = quote) then
        match rest with EmptyString => Some EmptyString | _ => None end
      else if decide (c = backslash) then
        match rest with
        | String e rest' =>
            if decide (e = quote) then String quote <$> unescape rest'
            else if decide (e = backslash) then String backslash <$> unescape rest'
            else if decide (e = "/"%char) then String "/"%char <$> unescape rest'
            else if decide (e = "b"%char) then String "008"%char <$> unescape rest'
            else if decide (e = "t"%char) then String "009"%char <$> unescape rest'
            else if decide (e = "n"%char) then String "010"%char <$> unescape rest'
            else if decide (e = "f"%char) then String "012"%char <$> unescape rest'
            else if decide (e = "r"%char) then String "013"%char <$> unescape rest'
            else if decide (e = "u"%char) then
              match rest' with
              | String h1 (String h2 (String h3 (String h4 rest''))) =>
                  x ← unicodeEscape h1 h2 h3 h4;
                  String x <$> unescape rest''
              | _ => None
              end
            else None
        | EmptyString => None
        end
      else if decide (N_of_ascii c < 32)%N then None
      else String c <$> unescape rest
  end.

(** [JSON.parse] on a stored value, for what this cache reads back: the
    text of a string literal gives its string, and [None] stands for a
    [SyntaxError]. It answers as [JSON.parse] does on every text that
    [JSON_stringify] writes and on every text that is [unreadable] (below).
    The texts of other JSON values (a number, [true], an array, a literal
    with blanks around it), which [JSON.parse] reads and this cache never
    writes, are outside its range: it answers [None] there. *)
Definition JSON_parse (t : string) : option string :=
  match t with
  | String c rest => if decide (c = quote) then unescape rest else None
  | EmptyString => None
  end.

(** *** The two tiers *)

(** [localStorage]: the stored items and the room the browser grants, in
    characters of keys and values. *)
Record LocalStorage := mkLocalStorage {
  items : gmap string string;
  quota : nat
}.

Definition storageSize (m : gmap string string) : nat :=
  map_fold (fun k v acc => String.length k + String.length v + acc) 0 m.

(** [localStorage.setItem(k, v)]; [None] when it throws for lack of room. *)
Definition setItem (k v : string) (l : LocalStorage) : option LocalStorage :=
  let m := <[k := v]> (items l) in
  if decide (storageSize m <= quota l) then Some (mkLocalStorage m (quota l)) else None.

(** The remote store: the configured URL (empty when there is none),
    whether requests get through, the stored values by encoded key, and
    the [PUT] requests issued and not yet settled. The store holds JSON
    values; a stored string is kept here as the string itself, the body
    [JSON.stringify(code)] of a [PUT] and the [res.json()] of a [GET]
    being inverse to each other. *)
Record Remote := mkRemote {
  firebaseUrl : string;
  reachable : bool;
  db : gmap string string;
  pending : list (string * string)
}.

Record CacheState := mkCache {
  localTier : LocalStorage;
  remoteTier : Remote
}.

(** A JavaScript string used as a condition: the empty string is falsy. *)
Definition truthy (s : string) : bool :=
  match s with EmptyString => false | _ => true end.

(** [getLocal(key)]: [None] is [null]. *)
Definition getLocal (key : string) (c : CacheState) : option string :=
  match items (localTier c) !! String.append LS_PREFIX key with
  | Some val => if truthy val then JSON_parse val else None
  | None => None
  end.

(** [setLocal(key, code)]: a failed write is swallowed. *)
Definition setLocal (key code : string) (c : CacheState) : CacheState :=
  match setItem (String.append LS_PREFIX key) (JSON_stringify code) (localTier c) with
  | Some l => mkCache l (remoteTier c)
  | None => c
  end.

(** [getFirebase(key)], awaited. *)
Definition getFirebase (key : string) (c : CacheState) : option string :=
  let r := remoteTier c in
  if truthy (firebaseUrl r) then
    if reachable r then db r !! encodeFirebaseKey key else None
  else None.

(** [setFirebase(key, code)]: the request is issued and not awaited. *)
Definition setFirebase (key code : string) (c : CacheState) : CacheState :=
  let r := remoteTier c in
  if truthy (firebaseUrl r) then
    mkCache (localTier c)
      (mkRemote (firebaseUrl r) (reachable r) (db r)
         (pending r ++ [(encodeFirebaseKey key, code)]))
  else c.

(** The oldest issued [PUT] settles: stored when the remote store is
    reachable, dropped (its rejection is swallowed) when not. *)
Definition settlePut (c : CacheState) : CacheState :=
  let r := remoteTier c in
  match pending r with
  | [] => c
  | (k, v) :: rest =>
      mkCache (localTier c)
        (mkRemote (firebaseUrl r) (reachable r)
           (if reachable r then <[k := v]> (db r) else db r) rest)
  end.

(** [if (v)] on a value that is a string or [null]. *)
Definition truthyValue (v : option string) : bool :=
  match v with Some s => truthy s | None => false end.

(** [cache.get(key)], awaited: the artifact, or [None] for [null]. *)
Definition cache_get (key : string) : M CacheState (option string) :=
  fun c =>
    let local := getLocal key c in
    if truthyValue local then
      (c, [EvLog "[Cache hit] localStorage:" key], Ok local)
    else
      let remote := getFirebase key c in
      if truthyValue remote then
        (setLocal key (default EmptyString remote) c,
         [EvLog "[Cache hit] Firebase:" key], Ok remote)
      else (c, [EvLog "[Cache miss]" key], Ok None).

(** [cache.set(key, code)] *)
Definition cache_set (key code : string) : M CacheState unit :=
  fun c => (setFirebase key code (setLocal key code c), [], Ok tt).

(** ** main.js: [handleSearch]

    [handleSearch] is an async function: a call runs up to its first
    [await] and is resumed when the awaited promise settles. The calls that
    got past the guard and have not finished are the activations in
    [inflight], each waiting at one of the three [await]s. *)

Inductive Phase :=
| AwaitNormalize (text : string)      (* await normalizePrompt(text) *)
| AwaitCacheGet (text key : string)   (* await cache.get(key) *)
| AwaitGenerate (text key : string).  (* await generateObject(text) *)

Record App := mkApp {
  executor : State;
  cache : CacheState;
  isGenerating : bool;
  inflight : list Phase
}.

Definition quoted (text : string) : string :=
  String quote (String.append text (String quote EmptyString)).

Definition generatingMessage (text : string) : string :=
  String.append "Generating " (String.append (quoted text) "...").
Definition createdMessage (text : string) : string :=
  String.append "Created " (String.append (quoted text) "!").
Definition createdCachedMessage (text : string) : string :=
  String.append "Created " (String.append (quoted text) "! (cached)").

(** A call of [handleSearch(text)], up to its first [await]. *)
Definition handleSearch (text : string) (app : App) : App * list Event :=
  if isGenerating app then (app, [])
  else
    (mkApp (executor app) (cache app) true (inflight app ++ [AwaitNormalize text]),
     [EvSetLoading true; EvSetLoading true; EvShowLoading (generatingMessage text)]).

(** [catch (e) { console.error(...); overlay.showError(e.message) }] *)
Definition catchEvents (e : JsError) : list Event :=
  [EvConsoleError e; EvShowError (message e)].

(** [finally { isGenerating = false; setLoading(false) ... }], after which
    activation [i] is over. *)
Definition finish (i : nat) (st : State) (c : CacheState) (app : App) : App :=
  mkApp st c false (delete i (inflight app)).

Definition finallyEvents : list Event := [EvSetLoading false; EvSetLoading false].

Section Orchestrator.

Variable js_compile : string -> Compiled.

(** Activation [i] resumes: the promise it awaits settled with [r] (the
    value of [normalizePrompt] or the code of [generateObject], or a
    rejection). [cache.get] never rejects and reads the cache itself. *)
Definition resume (i : nat) (r : Outcome string) (app : App) : App * list Event :=
  match inflight app !! i with
  | None => (app, [])
  | Some (AwaitNormalize text) =>
      match r with
      | Ok key =>
          (mkApp (executor app) (cache app) (isGenerating app)
             (<[i := AwaitCacheGet text key]> (inflight app)),
           [EvLog "[Normalize]" key])
      | Throw e =>
          (finish i (executor app) (cache app) app, catchEvents e ++ finallyEvents)
      end
  | Some (AwaitCacheGet text key) =>
      let '(c, evs, cached) := cache_get key (cache app) in
      match cached with
      | Ok (Some code) =>
          if truthy code then
            match execute js_compile code (executor app) with
            | (st, evs', Ok _) =>
                (finish i st c app,
                 evs ++ evs' ++ EvShowSuccess (createdCachedMessage text) :: finallyEvents)
            | (st, evs', Throw e) =>
                (finish i st c app, evs ++ evs' ++ catchEvents e ++ finallyEvents)
            end
          else
            (mkApp (executor app) c (isGenerating app)
               (<[i := AwaitGenerate text key]> (inflight app)), evs)
      | _ =>
          (mkApp (executor app) c (isGenerating app)
             (<[i := AwaitGenerate text key]> (inflight app)), evs)
      end
  | Some (AwaitGenerate text key) =>
      match r with
      | Ok code =>
          match execute js_compile code (executor app) with
          | (st, evs, Ok _) =>
              let '(c, evs', _) := cache_set key code (cache app) in
              (finish i st c app,
               evs ++ evs' ++ EvShowSuccess (createdMessage text) :: finallyEvents)
          | (st, evs, Throw e) =>
              (finish i st (cache app) app, evs ++ catchEvents e ++ finallyEvents)
          end
      | Throw e =>
          (finish i (executor app) (cache app) app, catchEvents e ++ finallyEvents)
      end
  end.

(** What happens to the page: the user submits a prompt, or an awaited
    promise of an activation settles. *)
Inductive Input :=
| Submit (text : string)
| Settle (i : nat) (r : Outcome string).

Definition step (inp : Input) (app : App) : App * list Event :=
  match inp with
  | Submit text => handleSearch text app
  | Settle i r => resume i r app
  end.

Fixpoint run (inps : list Input) (app : App) : App * list Event :=
  match inps with
  | [] => (app, [])
  | inp :: rest =>
      let '(app1, evs1) := step inp app in
      let '(app2, evs2) := run rest app1 in
      (app2, evs1 ++ evs2)
  end.

End Orchestrator.

(** The page after loading: nothing generated yet. *)
Definition initialApp (st : State) (c : CacheState) : App := mkApp st c false [].

(** * Properties *)

(** ** Observations on event lists *)

Definition tick_of (ev : Event) : option nat :=
  match ev with EvTick u => Some u | _ => None end.
Definition invoke_of (ev : Event) : option nat :=
  match ev with EvInvoke u => Some u | _ => None end.
Definition warn_of (ev : Event) : option nat :=
  match ev with EvWarn u _ => Some u | _ => None end.
Definition destroy_of (ev : Event) : option BodyId :=
  match ev with EvDestroyBody b => Some b | _ => None end.

(** The handles whose [update()] was entered, in order. *)
Definition ticks (evs : list Event) : list nat := omap tick_of evs.
(** The handles whose generated [update] was invoked, in order. *)
Definition invokes (evs : list Event) : list nat := omap invoke_of evs.
(** The handles the loop dropped after an exception, in order. *)
Definition warns (evs : list Event) : list nat := omap warn_of evs.
(** The bodies passed to [world.destroyBody], in order. *)
Definition destroyed (evs : list Event) : list BodyId := omap destroy_of evs.

(** What reaches the user: the overlay and the loading indicators. *)
Definition user_visible (ev : Event) : bool :=
  match ev with
  | EvSetLoading _ | EvShowLoading _ | EvShowSuccess _ | EvShowError _ => true
  | _ => false
  end.

Definition is_destroy (ev : Event) : Prop :=
  match ev with EvDestroyBody _ => True | _ => False end.

(** How often [x] occurs in [l]. *)
Definition occurrences (x : nat) (l : list nat) : nat :=
  length (filter (fun y => y = x) l).

(** ** Well-formed states and what registration leaves alone *)

(** Every entry of the ring buffer refers to an object. *)
Definition wf (st : State) : Prop :=
  Forall (fun o => is_Some (heap st !! o)) (ephemeral st).

(** Two states agree on which references are objects and bodies, on the
    body of each object, on the activity of each body and on whether its
    user data takes the tag. *)
Definition same_shape (st st' : State) : Prop :=
  (forall o, obj_body <$> heap st' !! o = obj_body <$> heap st !! o) /\
  (forall b, active <$> bodies st' !! b = active <$> bodies st !! b) /\
  (forall b, refusal <$> bodies st' !! b = refusal <$> bodies st !! b).

(** Code run on behalf of one closure took [(cl, st)] to [(cl', st')]
    emitting [evs]: what it cannot have changed. *)
Record steady (cl : Closure) (st : State) (cl' : Closure) (st' : State)
    (evs : list Event) : Prop := mkSteady {
  steady_shape : same_shape st st';
  steady_updaters : updaters st' = updaters st;
  steady_uid : nextUid st' = nextUid st;
  steady_flag : inUpdate cl' = inUpdate cl;
  steady_roots : inUpdate cl = true -> rootBodies cl' = rootBodies cl;
  steady_wf : wf st -> wf st';
  steady_bound :
    length (ephemeral st) <= MAX_EPHEMERAL -> length (ephemeral st') <= MAX_EPHEMERAL;
  steady_events : Forall is_destroy evs
}.

(** Whether a registration throws, read off the shape of the state. *)
Definition reg_outcome (st : State) (inUpd : bool) (o : ObjId) : Outcome unit :=
  match heap st !! o with
  | None => Throw (typeErrorSet "spawned")
  | Some ob =>
      if inUpd then
        match bodies st !! obj_body ob with
        | None => Throw (typeError "getUserData")
        | Some bd =>
            match refusal bd with
            | Some complaint => Throw (mkError complaint)
            | None => Ok tt
            end
        end
      else Ok tt
  end.

(** Whether a script throws, and what. *)
Fixpoint script_outcome (st : State) (inUpd : bool) (s : list GenCmd)
    : Result Thrown unit :=
  match s with
  | [] => Ok tt
  | GRegister o :: s' =>
      match reg_outcome st inUpd o with
      | Ok _ => script_outcome st inUpd s'
      | Throw e => Throw (ThrownError e)
      end
  | GThrow v :: _ => Throw v
  end.

(** How one tick of a handle ends. *)
Inductive Tick :=
| TickDead              (* every root body inactive: marked dead, not invoked *)
| TickOk                (* the generated update ran and returned *)
| TickThrow (e : Thrown).

Definition tick_outcome (st : State) (u : Updater) : Tick :=
  match allRootsInactive (bodies st) (rootBodies (env u)) with
  | Throw e => TickThrow (ThrownError e)
  | Ok true => TickDead
  | Ok false =>
      match script_outcome st true (origUpdate u (calls u)) with
      | Ok _ => TickOk
      | Throw e => TickThrow e
      end
  end.

(** The handle after one frame, [None] when the loop removed it. *)
Definition next_handle (st : State) (u : Updater) : option Updater :=
  match tick_outcome st u with
  | TickDead => Some (set_dead true u)
  | TickOk => Some (after_call (env u) false u)
  | TickThrow _ => None
  end.

(** The handle after [n] frames. *)
Fixpoint handle_after (st : State) (n : nat) (u : Updater) : option Updater :=
  match n with
  | 0 => Some u
  | S n' => next_handle st u ≫= handle_after st n'
  end.

(** In how many of the next [n] frames the handle is still in [updaters]
    when the frame starts. *)
Fixpoint lifetime (st : State) (n : nat) (u : Updater) : nat :=
  match n with
  | 0 => 0
  | S n' =>
      match next_handle st u with
      | Some u' => S (lifetime st n' u')
      | None => 1
      end
  end.

(** A stretch of the game loop took [st] to [st']: what it leaves alone. *)
Record calm (st st' : State) : Prop := mkCalm {
  calm_shape : same_shape st st';
  calm_uid : nextUid st' = nextUid st;
  calm_wf : wf st -> wf st';
  calm_bound :
    length (ephemeral st) <= MAX_EPHEMERAL -> length (ephemeral st') <= MAX_EPHEMERAL
}.

(** The tick of [u] gets as far as the generated [update]. *)
Definition is_invoked (st : State) (u : Updater) : bool :=
  match allRootsInactive (bodies st) (rootBodies (env u)) with
  | Ok false => true
  | _ => false
  end.

(** The tick of [u] ends in an exception. *)
Definition is_dropped (st : State) (u : Updater) : bool :=
  match tick_outcome st u with TickThrow _ => true | _ => false end.

(** How often the generated [update] of the handle is invoked in the next
    [n] frames. *)
Fixpoint invocations (st : State) (n : nat) (u : Updater) : nat :=
  match n with
  | 0 => 0
  | S n' =>
      (if is_invoked st u then 1 else 0) +
      match next_handle st u with
      | Some u' => invocations st n' u'
      | None => 0
      end
  end.

(** How often the loop drops the handle in the next [n] frames. *)
Fixpoint drops (st : State) (n : nat) (u : Updater) : nat :=
  match n with
  | 0 => 0
  | S n' =>
      (if is_dropped st u then 1 else 0) +
      match next_handle st u with
      | Some u' => drops st n' u'
      | None => 0
      end
  end.

(** The sum of [f] over the handles of identity [id]. *)
Definition sum_over (id : nat) (f : Updater -> nat) (us : list Updater) : nat :=
  sum_list ((fun u => if decide (uid u = id) then f u else 0) <$> us).

(** ** A small page to run the pipeline on

    Objects [0 .. n-1], object [i] backed by body [i]; every body active,
    weighted and with two fixtures. *)
Definition demoBody : Body := mkBody true 1 [1; 2]%Q UdFalsy.

Definition demoHeap (n : nat) : gmap ObjId TrackedObject :=
  list_to_map ((fun i => (i, mkObj i false false)) <$> seq 0 n).

Definition demoBodies (n : nat) : gmap BodyId Body :=
  list_to_map ((fun i => (i, demoBody)) <$> seq 0 n).

Definition demoState (n : nat) : State :=
  createExecutor (demoHeap n) (demoBodies n) [].

(** Four artifacts: [rain] registers one object in setup and one more on
    every tick; [ball] registers one object and has an idle update;
    [bomb] has no object and an update that throws on its third tick;
    [rock] registers one object and returns no update. Any other source
    does not compile. *)
Definition demoCompile (code : string) : Compiled :=
  if decide (code = "rain") then
    Function (mkGenFn [GRegister 0] (Some (fun k => [GRegister (S k)])))
  else if decide (code = "ball") then
    Function (mkGenFn [GRegister 100] (Some (fun _ => [])))
  else if decide (code = "bomb") then
    Function (mkGenFn []
      (Some (fun k => if decide (k = 2) then [GThrow (mkError "boom")] else [])))
  else if decide (code = "rock") then
    Function (mkGenFn [GRegister 101] None)
  else SyntaxError "Unexpected token".

(** The state after running [execute] on each source in turn, whatever
    each call returned. *)
Definition executeAll (js_compile : string -> Compiled) (codes : list string)
    (st : State) : State :=
  fold_left (fun s code => fst (fst (execute js_compile code s))) codes st.

(** The rest of the page deactivates body [b] ([body.setActive(false)]). *)
Definition deactivate (b : BodyId) (st : State) : State :=
  set_bodies
    (alter (fun bd => mkBody false (gravityScale bd) (fixtures bd) (userData bd)) b) st.

(** What an update-time registration makes of the body of the object. *)
Definition weightless (bd : Body) : Body :=
  setAllDensities 0 (setGravityScale 0 (tagged bd)).

(** The body of object [o] ([0] when [o] is no object). *)
Definition body_at (st : State) (o : ObjId) : BodyId :=
  match heap st !! o with Some ob => obj_body ob | None => 0 end.

(** The state right after [ephemeral.push(obj)] of an update-time
    registration of [o], an object with body record [bd]. *)
Definition pushed (o : ObjId) (bd : Body) (st : State) : State :=
  mkState (objects st ++ [o]) (ephemeral st ++ [o]) (updaters st)
    (<[o := mkObj (body_at st o) true true]> (heap st))
    (<[body_at st o := weightless bd]> (bodies st)) (nextUid st).

(** [o] can be registered during an update: it is an object, its body is a
    body and the user data of the body takes the tag. *)
Definition registrable (st : State) (o : ObjId) : Prop :=
  exists ob bd, heap st !! o = Some ob /\ bodies st !! obj_body ob = Some bd /\
                refusal bd = None.

(** [objects.splice(objects.indexOf(o), 1)] when [o] is there. *)
Definition remove_first (o : ObjId) (l : list ObjId) : list ObjId :=
  match indexOf l o with Some i => delete i l | None => l end.

(** The identities of the handles are distinct and below the next one. *)
Definition fresh_uids (st : State) : Prop :=
  NoDup (uid <$> updaters st) /\ Forall (fun u => uid u < nextUid st) (updaters st).

(** What holds of the executor between any two calls. *)
Record Inv (st : State) : Prop := mkInv {
  inv_wf : wf st;
  inv_bound : length (ephemeral st) <= MAX_EPHEMERAL;
  inv_uids : fresh_uids st
}.

(** The rest of the page (physics step, out-of-bounds cleanup, combat)
    changes the registry, the bodies and the fields of objects; it has no
    access to the ring buffer, does not touch [updaters] and leaves
    objects objects. *)
Definition outside (st st' : State) : Prop :=
  ephemeral st' = ephemeral st /\ updaters st' = updaters st /\
  nextUid st' = nextUid st /\
  forall o, is_Some (heap st !! o) -> is_Some (heap st' !! o).

Section Reachable.

Variable js_compile : string -> Compiled.

(** The states of a page: a fresh executor, then any interleaving of
    [execute] calls, updater passes of the loop and activity of the rest
    of the page. *)
Inductive reachable_state : State -> Prop :=
| reach_create h w objs : reachable_state (createExecutor h w objs)
| reach_execute st code :
    reachable_state st -> reachable_state (fst (fst (execute js_compile code st)))
| reach_loop st : reachable_state st -> reachable_state (fst (loop st))
| reach_outside st st' : reachable_state st -> outside st st' -> reachable_state st'.

End Reachable.

(** [setLocal(key, code)] finds room for what it writes. *)
Definition local_write_succeeds (key code : string) (c : CacheState) : Prop :=
  is_Some (setItem (String.append LS_PREFIX key) (JSON_stringify code) (localTier c)).

(** Two cache states with the same local tier. *)
Definition same_local (c c' : CacheState) : Prop := localTier c' = localTier c.

(** A cache whose remote store cannot be reached. *)
Definition demoCache (room : nat) : CacheState :=
  mkCache (mkLocalStorage ∅ room) (mkRemote "https://db.example" false ∅ []).

(** A cache with an empty local tier and a remote store that holds
    artifact [code] for key [key]. *)
Definition demoRemoteCache (room : nat) (key code : string) : CacheState :=
  mkCache (mkLocalStorage ∅ room)
    (mkRemote "https://db.example" true {[encodeFirebaseKey key := code]} []).

(** The remote store goes out of reach. *)
Definition disconnect (c : CacheState) : CacheState :=
  mkCache (localTier c)
    (mkRemote (firebaseUrl (remoteTier c)) false (db (remoteTier c))
       (pending (remoteTier c))).

(** At most one activation is past the guard, and the flag is set exactly
    while there is one. *)
Definition single_flight (app : App) : Prop :=
  length (inflight app) <= 1 /\ (isGenerating app = true <-> inflight app <> []).

(** ** Keys, cleanup passes and setup-time registration *)

(** The characters a Firebase key cannot contain. *)
Definition firebaseForbidden (c : ascii) : Prop :=
  c = "."%char \/ c = "$"%char \/ c = "#"%char \/
  c = "["%char \/ c = "]"%char \/ c = "/"%char.

(** Every character of a string satisfies [P]. *)
Fixpoint allChars (P : ascii -> Prop) (s : string) : Prop :=
  match s with
  | EmptyString => True
  | String c rest => P c /\ allChars P rest
  end.

(** The characters a JSON text can begin with: white space, the quote of
    a string, the sign or a digit of a number, the bracket of an array,
    the brace of an object and the first letter of [true], [false] and
    [null]. *)
Definition startsJson (c : ascii) : bool :=
  bool_decide (c ∈ [" "%char; "009"%char; "010"%char; "013"%char; quote;
                    "-"%char; "0"%char; "1"%char; "2"%char; "3"%char; "4"%char;
                    "5"%char; "6"%char; "7"%char; "8"%char; "9"%char;
                    "["%char; "{"%char; "t"%char; "f"%char; "n"%char]).

(** A stored value that [getLocal] reads as nothing: the empty string,
    which is falsy, or a text whose first character cannot begin a JSON
    text, on which [JSON.parse] throws. *)
Definition unreadable (val : string) : Prop :=
  match val with
  | EmptyString => True
  | String c _ => startsJson c = false
  end.

(** Two cache states with the same remote tier. *)
Definition same_remote (c c' : CacheState) : Prop := remoteTier c' = remoteTier c.

(** Whether object [o] is marked spawned ([false] when [o] is no object). *)
Definition spawnedAt (st : State) (o : ObjId) : bool :=
  match heap st !! o with Some ob => obj_spawned ob | None => false end.

(** objects.js, [clearSpawnedObjects(world)]:
    [for (let i = objects.length - 1; i >= 0; i--)
       if (objects[i].spawned) { try { world.destroyBody(obj.body) } catch {}
                                 objects.splice(i, 1) }]
    [clearSpawned_from i] runs the iterations for indices [i-1] down to
    [0]. The call of [destroyBody] is recorded whether or not the world
    throws, the exception being swallowed. *)
Fixpoint clearSpawned_from (i : nat) : M State unit :=
  match i with
  | 0 => ret tt
  | S j =>
      fun st =>
        match objects st !! j ≫= fun o => heap st !! o with
        | None => (st, [], Throw (typeError "spawned"))
        | Some ob =>
            if obj_spawned ob then
              match clearSpawned_from j (set_objects (fun l => delete j l) st) with
              | (st', evs, r) => (st', EvDestroyBody (obj_body ob) :: evs, r)
              end
            else clearSpawned_from j st
        end
  end.

Definition clearSpawnedObjects : M State unit :=
  fun st => clearSpawned_from (length (objects st)) st.

Section OutOfBounds.

(** main.js, the test of [cleanupOOB] on [obj.body.getPosition()] against
    the canvas, [p.x < -W * 0.1 || p.x > W * 1.1 || p.y < -H * 0.1 ||
    p.y > H * 1.1], as the world answers it for each body. *)
Variable outOfBounds : BodyId -> bool.

(** main.js, [cleanupOOB()]: the iterations for indices [i-1] down to [0]. *)
Fixpoint cleanupOOB_from (i : nat) : M State unit :=
  match i with
  | 0 => ret tt
  | S j =>
      fun st =>
        match objects st !! j ≫= fun o => heap st !! o with
        | None => (st, [], Throw (typeError "spawned"))
        | Some ob =>
            if obj_spawned ob then
              match bodies st !! obj_body ob with
              | None => (st, [], Throw (typeError "getPosition"))
              | Some _ =>
                  if outOfBounds (obj_body ob) then
                    match cleanupOOB_from j (set_objects (fun l => delete j l) st) with
                    | (st', evs, r) => (st', EvDestroyBody (obj_body ob) :: evs, r)
                    end
                  else cleanupOOB_from j st
              end
            else cleanupOOB_from j st
        end
  end.

Definition cleanupOOB : M State unit :=
  fun st => cleanupOOB_from (length (objects st)) st.

(** [o] is a spawned object whose body left the canvas. *)
Definition strayed (st : State) (o : ObjId) : bool :=
  spawnedAt st o && outOfBounds (body_at st o).

End OutOfBounds.

(** Every entry of the registry refers to an object. *)
Definition registry_wf (st : State) : Prop :=
  Forall (fun o => is_Some (heap st !! o)) (objects st).

(** Every spawned entry of the registry has a body. *)
Definition spawned_have_bodies (st : State) : Prop :=
  Forall (fun o => spawnedAt st o = true -> is_Some (bodies st !! body_at st o))
    (objects st).

(** What the register capability makes of an object in either phase. *)
Definition markSpawned (ob : TrackedObject) : TrackedObject :=
  mkObj (obj_body ob) true (obj_ephemeral ob).

(** The state after the setup-time registration of the objects [os], in
    order. *)
Definition afterSetup (os : list ObjId) (st : State) : State :=
  mkState (objects st ++ os) (ephemeral st) (updaters st)
    (foldl (fun h o => alter markSpawned o h) (heap st) os) (bodies st) (nextUid st).

(** The rest of the page activates body [b] again ([body.setActive(true)]). *)
Definition reactivate (b : BodyId) (st : State) : State :=
  set_bodies
    (alter (fun bd => mkBody true (gravityScale bd) (fixtures bd) (userData bd)) b) st.

(** Body [b] exists and is inactive. *)
Definition inactive (st : State) (b : BodyId) : Prop :=
  active <$> bodies st !! b = Some false.


(** ** main.js: a whole frame

    A call of [loop()] runs the updaters, then [cursorBody.update()],
    [geminiIcon.update()] and [world.step(1 / 60, 8, 3)], which move
    bodies and change nothing that the state tracks, then [cleanupOOB()],
    whose bounds test sees the positions after the step, then
    [renderer.draw()] and [overlay.draw()], and at its end schedules the
    next call with [requestAnimationFrame(loop)]. Only the calls of
    [update()] are guarded: an exception anywhere else ends the call
    before the next one is scheduled. *)
Section Frame.

(** The bounds test of [cleanupOOB] in the frame of a given number. *)
Variable outOfBounds : nat -> BodyId -> bool.

(** The drawing that ends the frame, [renderer.draw()] and then
    [overlay.draw()], as far as it may throw. *)
Variable renderer_draw : State -> Outcome unit.

(** The call of [loop()] for frame [k]: [Ok] when it reached
    [requestAnimationFrame(loop)]. *)
Definition frame (k : nat) : M State unit :=
  fun st =>
    let '(st1, evs1) := loop st in
    match cleanupOOB (outOfBounds k) st1 with
    | (st2, evs2, Ok _) =>
        match renderer_draw st2 with
        | Ok _ => (st2, evs1 ++ evs2, Ok tt)
        | Throw e => (st2, evs1 ++ evs2, Throw e)
        end
    | (st2, evs2, Throw e) => (st2, evs1 ++ evs2, Throw e)
    end.

(** Up to [n] frames from frame [k] on: a call that returns has scheduled
    the next one, a call that throws was the last. *)
Fixpoint animation (k n : nat) : M State unit :=
  match n with
  | 0 => ret tt
  | S n' =>
      fun st =>
        match frame k st with
        | (st1, evs1, Ok _) =>
            let '(st2, evs2, r) := animation (S k) n' st1 in (st2, evs1 ++ evs2, r)
        | (st1, evs1, Throw e) => (st1, evs1, Throw e)
        end
  end.

End Frame.

(** [o] is in the registry, marked spawned, and its [body] is no body. *)
Definition bodiless (st : State) (o : ObjId) : Prop :=
  spawnedAt st o = true /\ bodies st !! body_at st o = None.

(** A page for the frame: objects [0 .. 200], object [i] backed by body
    [i], except that object [200] has no body. *)
Definition ghostState : State := createExecutor (demoHeap 201) (demoBodies 200) [].

(** The artifacts of [demoCompile] and one more, [ghost], whose update
    registers object [200] on every tick. *)
Definition ghostCompile (code : string) : Compiled :=
  if decide (code = "ghost") then
    Function (mkGenFn [] (Some (fun _ => [GRegister 200])))
  else demoCompile code.

(** ** theCrash.js: scheduled destroys *)

(** The inner loop of [processDestroys]:
    [for (let i = objs.length - 1; i >= 0; i--)
       if (objs[i].body === body) { unregisterObject(objs[i]); break; }]
    [processDestroys_scan b i] runs the iterations for indices [i-1] down
    to [0]. *)
Fixpoint processDestroys_scan (b : BodyId) (i : nat) : M State unit :=
  match i with
  | 0 => ret tt
  | S j =>
      fun st =>
        match objects st !! j with
        | None => (st, [], Throw (typeError "body"))
        | Some o =>
            match heap st !! o with
            | None => (st, [], Throw (typeError "body"))
            | Some ob =>
                if decide (obj_body ob = b) then (unregisterObject o st, [], Ok tt)
                else processDestroys_scan b j st
            end
        end
  end.

(** [while (scheduledDestroys.length > 0) {
       const body = scheduledDestroys.pop(); ...;
       try { world.destroyBody(body) } catch (e) {} }]
    for a stack given top first. The call of [destroyBody] is recorded
    whether or not the world throws. *)
Fixpoint processDestroys_stack (stack : list BodyId) : M State unit :=
  match stack with
  | [] => ret tt
  | b :: rest =>
      (fun st => processDestroys_scan b (length (objects st)) st);;
      emit (EvDestroyBody b);;
      processDestroys_stack rest
  end.

(** [processDestroys()], with the array [scheduledDestroys] as the contact
    callbacks filled it; [pop] takes from its end. *)
Definition processDestroys (scheduledDestroys : list BodyId) : M State unit :=
  processDestroys_stack (rev scheduledDestroys).

(** A step changes nothing but the registry. *)
Definition registry_only (st st' : State) : Prop :=
  ephemeral st' = ephemeral st /\ updaters st' = updaters st /\
  heap st' = heap st /\ bodies st' = bodies st /\ nextUid st' = nextUid st.

(** ** loading.js: the overlay *)

Inductive OverlayState := OvIdle | OvLoading | OvError | OvSuccess.

(** The variables of [createLoadingOverlay]. Times are milliseconds as
    [Date.now()] gives them; the angle and the opacity are rationals. *)
Record Overlay := mkOverlay {
  ov_state : OverlayState;
  ov_message : string;
  fadeStart : Z;
  spinAngle : Q
}.

Definition createLoadingOverlay : Overlay := mkOverlay OvIdle EmptyString 0 0.

Definition FADE_DURATION : Z := 10000.

(** [showLoading(text)]: [message = text || 'Generating...'] *)
Definition showLoading (text : string) (o : Overlay) : Overlay :=
  mkOverlay OvLoading (if truthy text then text else "Generating...") 0 (spinAngle o).

(** [showError(msg)], called when [Date.now()] is [now]. *)
Definition showError (now : Z) (msg : string) (o : Overlay) : Overlay :=
  mkOverlay OvError msg now (spinAngle o).

(** [showSuccess(msg)]: [message = msg || 'Created!'] *)
Definition showSuccess (now : Z) (msg : string) (o : Overlay) : Overlay :=
  mkOverlay OvSuccess (if truthy msg then msg else "Created!") now (spinAngle o).

Definition hide (o : Overlay) : Overlay :=
  mkOverlay OvIdle (ov_message o) (fadeStart o) (spinAngle o).

(** What one call of [draw] puts on the canvas: the spinner strip or a
    banner, under [ctx.globalAlpha = alpha]. *)
Inductive Painted :=
| PaintLoading (alpha : Q) (msg : string) (angle : Q)
| PaintBanner (alpha : Q) (msg : string) (bgColor : string).

Definition alpha_of (p : Painted) : Q :=
  match p with PaintLoading a _ _ => a | PaintBanner a _ _ => a end.

(** [FADE_DURATION * 0.6] *)
Definition fadePoint : Q := (inject_Z FADE_DURATION * (6 # 10))%Q.

(** The opacity of a banner [elapsed] milliseconds after it was shown. *)
Definition banner_alpha (elapsed : Z) : Q :=
  if Qle_bool (inject_Z elapsed) fadePoint then 1%Q
  else (1 - (inject_Z elapsed - fadePoint) / (inject_Z FADE_DURATION - fadePoint))%Q.

(** The branch of [draw] for the states [error] and [success]. *)
Definition draw_banner (now : Z) (bgColor : string) (o : Overlay)
    : Overlay * option Painted :=
  let elapsed := (now - fadeStart o)%Z in
  if (FADE_DURATION <? elapsed)%Z then (hide o, None)
  else (o, Some (PaintBanner (banner_alpha elapsed) (ov_message o) bgColor)).

(** [draw()], called when [Date.now()] is [now]. *)
Definition draw (now : Z) (o : Overlay) : Overlay * option Painted :=
  match ov_state o with
  | OvIdle => (o, None)
  | OvLoading =>
      let angle := (spinAngle o + (15 # 100))%Q in
      (mkOverlay OvLoading (ov_message o) (fadeStart o) angle,
       Some (PaintLoading 1 (ov_message o) angle))
  | OvError => draw_banner now "#d93025" o
  | OvSuccess => draw_banner now "#1e8e3e" o
  end.

(** One call of [draw] per frame, at the times [nows]. *)
Fixpoint draws (nows : list Z) (o : Overlay) : Overlay * list (option Painted) :=
  match nows with
  | [] => (o, [])
  | now :: rest =>
      let '(o1, p) := draw now o in
      let '(o2, ps) := draws rest o1 in
      (o2, p :: ps)
  end.

(** The overlay is showing a banner. *)
Definition is_banner (o : Overlay) : Prop :=
  ov_state o = OvError \/ ov_state o = OvSuccess.

(** ** main.js: the overlay under [handleSearch] and the loop *)

(** The call of the overlay that an event of [handleSearch] stands for. *)
Definition overlay_on (now : Z) (ev : Event) (o : Overlay) : Overlay :=
  match ev with
  | EvShowLoading msg => showLoading msg o
  | EvShowSuccess msg => showSuccess now msg o
  | EvShowError msg => showError now msg o
  | _ => o
  end.

(** The overlay after the events [evs], the [k]-th of which happens at
    time [clock k]. *)
Fixpoint overlay_after (clock : nat -> Z) (k : nat) (evs : list Event) (o : Overlay)
    : Overlay :=
  match evs with
  | [] => o
  | ev :: rest => overlay_after clock (S k) rest (overlay_on (clock k) ev o)
  end.

(** What happens to the page between two turns of the event loop: a
    submission or a settled promise, a frame drawing the overlay, or any
    other activity on the executor (updaters, physics, cleanup). *)
Inductive Stimulus :=
| Act (clock : nat -> Z) (inp : Input)
| Paint (now : Z)
| World (f : State -> State).

Section Session.

Variable js_compile : string -> Compiled.

Fixpoint session (stims : list Stimulus) (app : App) (o : Overlay) : App * Overlay :=
  match stims with
  | [] => (app, o)
  | Act clock inp :: rest =>
      let '(app1, evs) := step js_compile inp app in
      session rest app1 (overlay_after clock 0 evs o)
  | Paint now :: rest => session rest app (fst (draw now o))
  | World f :: rest =>
      session rest (mkApp (f (executor app)) (cache app) (isGenerating app) (inflight app)) o
  end.

End Session.

(** The overlay shows the spinner exactly while a generation is under way. *)
Definition overlay_tracks (app : App) (o : Overlay) : Prop :=
  isGenerating app = true <-> ov_state o = OvLoading.

(** An event that is no call of the overlay. *)
Definition overlay_silent (ev : Event) : Prop :=
  match ev with
  | EvShowLoading _ | EvShowSuccess _ | EvShowError _ => False
  | _ => True
  end.

(** An event list whose last call of the overlay shows a banner. *)
Definition ends_with_banner (evs : list Event) : Prop :=
  exists before ev after,
    evs = before ++ ev :: after /\
    (exists msg, ev = EvShowSuccess msg \/ ev = EvShowError msg) /\
    Forall overlay_silent after.
(** ** Registration leaves the shape of the state alone *)

Lemma same_shape_refl st : same_shape st st.
Proof. split_and!; reflexivity. Qed.

Lemma same_shape_trans st1 st2 st3 :
  same_shape st1 st2 -> same_shape st2 st3 -> same_shape st1 st3.
Proof.
  intros (H1 & H2 & H3) (H4 & H5 & H6). split_and!; intros x.
  - rewrite H4. apply H1.
  - rewrite H5. apply H2.
  - rewrite H6. apply H3.
Qed.

Lemma steady_refl cl st : steady cl st cl st [].
Proof. constructor; auto using same_shape_refl. Qed.

Lemma steady_trans cl1 st1 cl2 st2 cl3 st3 evs evs' :
  steady cl1 st1 cl2 st2 evs -> steady cl2 st2 cl3 st3 evs' ->
  steady cl1 st1 cl3 st3 (evs ++ evs').
Proof.
  intros [a1 a2 a3 a4 a5 a6 a7 a8] [b1 b2 b3 b4 b5 b6 b7 b8].
  constructor; try congruence; eauto using same_shape_trans.
  - intros H. rewrite b5, a5; congruence.
  - apply Forall_app; auto.
Qed.

Lemma unregister_fields o st :
  ephemeral (unregisterObject o st) = ephemeral st /\
  heap (unregisterObject o st) = heap st /\
  bodies (unregisterObject o st) = bodies st /\
  updaters (unregisterObject o st) = updaters st /\
  nextUid (unregisterObject o st) = nextUid st.
Proof. unfold unregisterObject. destruct (indexOf _ _); simpl; auto. Qed.

Ltac run_monad :=
  unfold mbind, M_bind, mret, M_ret, bind, ret, throw, emit, gets, modify,
    readObj, assignObj, readBody, writeObj, writeBody, tagEphemeral; simpl.

Lemma shape_insert_obj st o ob ob' :
  heap st !! o = Some ob -> obj_body ob' = obj_body ob ->
  forall o', obj_body <$> (<[o := ob']> (heap st)) !! o' = obj_body <$> heap st !! o'.
Proof.
  intros H Hb o'. destruct (decide (o = o')) as [<-|Hne].
  - rewrite lookup_insert_eq, H. simpl. congruence.
  - rewrite lookup_insert_ne by done. done.
Qed.

Lemma is_Some_insert_heap (h : gmap ObjId TrackedObject) o ob x :
  is_Some (h !! x) -> is_Some (<[o := ob]> h !! x).
Proof.
  intros Hx. destruct (decide (o = x)) as [<-|Hne].
  - rewrite lookup_insert_eq. eauto.
  - rewrite lookup_insert_ne by done. done.
Qed.

Lemma shape_insert_body {A} (f : Body -> A) st b bd bd' :
  bodies st !! b = Some bd -> f bd' = f bd ->
  forall b', f <$> (<[b := bd']> (bodies st)) !! b' = f <$> bodies st !! b'.
Proof.
  intros H Hb b'. destruct (decide (b = b')) as [<-|Hne].
  - rewrite lookup_insert_eq, H. simpl. congruence.
  - rewrite lookup_insert_ne by done. done.
Qed.

Ltac norm :=
  repeat (unfold set_ephemeral, set_bodies, set_heap, registerObject, set_objects,
            set_updaters, set_nextUid; simpl).

(** A registration that throws has flagged and registered the object and
    done nothing else. *)
Lemma steady_flagged cl st o ob flag :
  heap st !! o = Some ob ->
  steady cl st cl
    (mkState (objects st ++ [o]) (ephemeral st) (updaters st)
       (<[o := mkObj (obj_body ob) true flag]> (heap st)) (bodies st) (nextUid st)) [].
Proof.
  intros Ho. constructor; simpl; auto.
  - split_and!; simpl; [|done|done]. eapply shape_insert_obj; eauto.
  - unfold wf; simpl. intros Hwf. eapply Forall_impl; [exact Hwf|].
    simpl. intros x Hx. by apply is_Some_insert_heap.
Qed.

Lemma wrappedRegister_steady o cl st :
  match wrappedRegister o (cl, st) with
  | ((cl', st'), evs, r) =>
      steady cl st cl' st' evs /\ (wf st -> r = reg_outcome st (inUpdate cl) o)
  end.
Proof.
  unfold wrappedRegister, reg_outcome. run_monad.
  destruct (heap st !! o) as [ob|] eqn:Ho; simpl.
  2: { split; [apply steady_refl|done]. }
  destruct (inUpdate cl) eqn:Hin; simpl.
  - destruct (bodies st !! obj_body ob) as [bd|] eqn:Hb; simpl.
    + destruct (refusal bd) as [complaint|] eqn:Hrf; simpl.
      { norm. rewrite insert_insert_eq. split; [|done].
        destruct cl as [f rb]. simpl in *. by apply steady_flagged. }
      norm. rewrite insert_insert_eq.
      pose proof (shape_insert_obj st o ob (mkObj (obj_body ob) true true) Ho eq_refl) as S1.
      pose proof (shape_insert_body active st (obj_body ob) bd
        (setAllDensities 0 (setGravityScale 0 (tagged bd))) Hb eq_refl) as S2.
      pose proof (shape_insert_body refusal st (obj_body ob) bd
        (setAllDensities 0 (setGravityScale 0 (tagged bd))) Hb
        ltac:(by rewrite Hrf)) as S3.
      assert (Hwf : wf st -> Forall (fun x => is_Some
                 (<[o := mkObj (obj_body ob) true true]> (heap st) !! x))
                 (ephemeral st ++ [o])).
      { intros Hwf. apply Forall_app. split.
        - eapply Forall_impl; [exact Hwf|]. intros x Hx. by apply is_Some_insert_heap.
        - constructor; [|constructor]. rewrite lookup_insert_eq. eauto. }
      case_decide as Hlen; simpl.
      * unfold evictOldest. run_monad.
        destruct (ephemeral st ++ [o]) as [|old rest] eqn:Hbuf; simpl.
        { destruct (ephemeral st); discriminate. }
        norm.
        destruct (unregister_fields old
          (mkState (objects st ++ [o]) rest (updaters st)
             (<[o := mkObj (obj_body ob) true true]> (heap st))
             (<[obj_body ob := setAllDensities 0 (setGravityScale 0 (tagged bd))]>
                (bodies st)) (nextUid st))) as (E1 & E2 & E3 & E4 & E5).
        simpl in *.
        assert (Hlen' : length (ephemeral st) <= MAX_EPHEMERAL -> length rest <= MAX_EPHEMERAL).
        { intros Hle. apply (f_equal length) in Hbuf.
          rewrite length_app in Hbuf. simpl in Hbuf. lia. }
        rewrite E2.
        destruct (<[o := mkObj (obj_body ob) true true]> (heap st) !! old) as [oo|] eqn:Hold; simpl.
        -- split; [|done]. constructor; simpl; auto.
           ++ split_and!; [rewrite E2|rewrite E3|rewrite E3]; auto.
           ++ intros H. unfold wf. rewrite E1, E2. simpl.
              specialize (Hwf H). by inversion Hwf.
           ++ rewrite E1. auto.
           ++ repeat constructor.
        -- split.
           ++ constructor; simpl; auto.
              ** split_and!; [rewrite E2|rewrite E3|rewrite E3]; auto.
              ** intros H. unfold wf. rewrite E1, E2. simpl.
                 specialize (Hwf H). by inversion Hwf.
              ** rewrite E1. auto.
           ++ intros H. specialize (Hwf H). inversion Hwf as [|? ? Hs _]; subst.
              rewrite Hold in Hs. by destruct Hs.
      * split; [|done]. constructor; simpl; auto.
        -- split_and!; auto.
        -- rewrite length_app in *. simpl in *. unfold MAX_EPHEMERAL in *. lia.
    + norm. rewrite insert_insert_eq. split; [|done].
      destruct cl as [f rb]. simpl in *. by apply steady_flagged.
  - norm.
    split; [|done]. constructor; simpl; auto.
    + split_and!; simpl; [|done|done]. eapply shape_insert_obj; eauto.
    + congruence.
    + unfold wf; simpl. intros Hwf. eapply Forall_impl; [exact Hwf|].
      simpl. intros x Hx. by apply is_Some_insert_heap.
Qed.

Lemma reg_outcome_shape st st' f o :
  same_shape st st' -> reg_outcome st' f o = reg_outcome st f o.
Proof.
  intros (Hh & Hb & Hr). unfold reg_outcome.
  specialize (Hh o).
  destruct (heap st' !! o) as [ob'|], (heap st !! o) as [ob|]; simpl in Hh; try done.
  destruct f; [|done].
  assert (obj_body ob' = obj_body ob) as -> by congruence.
  specialize (Hb (obj_body ob)). specialize (Hr (obj_body ob)).
  destruct (bodies st' !! obj_body ob) as [bd'|], (bodies st !! obj_body ob) as [bd|];
    simpl in Hb, Hr; try done.
  by assert (refusal bd' = refusal bd) as -> by congruence.
Qed.

Lemma script_outcome_shape st st' f s :
  same_shape st st' -> script_outcome st' f s = script_outcome st f s.
Proof.
  intros Hs. induction s as [|[o|e] s IH]; simpl; [done| |done].
  rewrite (reg_outcome_shape st st') by done.
  destruct (reg_outcome st f o); done.
Qed.

Lemma every_inactive_shape (w w' : gmap BodyId Body) l :
  (forall b, active <$> w' !! b = active <$> w !! b) ->
  every_inactive w' l = every_inactive w l.
Proof.
  intros Hb. induction l as [|b l IH]; simpl; [done|].
  specialize (Hb b).
  destruct (w' !! b) as [bd'|], (w !! b) as [bd|]; simpl in Hb; try done.
  assert (active bd' = active bd) as -> by congruence.
  by rewrite IH.
Qed.

Lemma run_script_steady s : forall cl st,
  match run_script s (cl, st) with
  | ((cl', st'), evs, r) =>
      steady cl st cl' st' evs /\ (wf st -> r = script_outcome st (inUpdate cl) s)
  end.
Proof.
  induction s as [|[o|e] s IH]; intros cl st; simpl.
  - split; [apply steady_refl|done].
  - pose proof (wrappedRegister_steady o cl st) as Hw.
    destruct (wrappedRegister o (cl, st)) as [[[cl1 st1] evs1] [[]|e1]].
    + destruct Hw as [Hst Hr]. specialize (IH cl1 st1).
      destruct (run_script s (cl1, st1)) as [[[cl2 st2] evs2] r2].
      destruct IH as [Hst2 Hr2]. split; [eapply steady_trans; eauto|].
      intros Hwf. rewrite <- (Hr Hwf).
      rewrite Hr2 by (eapply steady_wf; eauto).
      rewrite (steady_flag _ _ _ _ _ Hst).
      apply script_outcome_shape, Hst.
    + destruct Hw as [Hst Hr]. split; [done|].
      intros Hwf. by rewrite <- (Hr Hwf).
  - split; [apply steady_refl|done].
Qed.

(** ** One tick of one handle *)

Lemma calm_refl st : calm st st.
Proof. constructor; auto using same_shape_refl. Qed.

Lemma calm_trans st1 st2 st3 : calm st1 st2 -> calm st2 st3 -> calm st1 st3.
Proof.
  intros [a1 a2 a3 a4] [b1 b2 b3 b4].
  constructor; try congruence; eauto using same_shape_trans.
Qed.

Lemma steady_calm cl st cl' st' evs : steady cl st cl' st' evs -> calm st st'.
Proof. intros [a1 a2 a3 a4 a5 a6 a7 a8]. by constructor. Qed.

Lemma calm_set_updaters f st : calm st (set_updaters f st).
Proof. constructor; auto. split_and!; reflexivity. Qed.

Lemma allRootsInactive_shape st st' l :
  same_shape st st' ->
  allRootsInactive (bodies st') l = allRootsInactive (bodies st) l.
Proof.
  intros (_ & Hb & _). unfold allRootsInactive. case_decide; [|done].
  by apply every_inactive_shape.
Qed.

Lemma tick_outcome_shape st st' u :
  same_shape st st' -> tick_outcome st' u = tick_outcome st u.
Proof.
  intros Hs. unfold tick_outcome.
  rewrite (allRootsInactive_shape st st') by done.
  by rewrite (script_outcome_shape st st').
Qed.

Lemma next_handle_shape st st' u :
  same_shape st st' -> next_handle st' u = next_handle st u.
Proof. intros Hs. unfold next_handle. by rewrite (tick_outcome_shape st st'). Qed.

Lemma is_invoked_shape st st' u :
  same_shape st st' -> is_invoked st' u = is_invoked st u.
Proof. intros Hs. unfold is_invoked. by rewrite (allRootsInactive_shape st st'). Qed.

Lemma is_dropped_shape st st' u :
  same_shape st st' -> is_dropped st' u = is_dropped st u.
Proof. intros Hs. unfold is_dropped. by rewrite (tick_outcome_shape st st'). Qed.

Lemma omap_destroy_only (f : Event -> option nat) evs :
  (forall b, f (EvDestroyBody b) = None) -> Forall is_destroy evs -> omap f evs = [].
Proof.
  intros Hf. induction 1 as [|ev evs Hev _ IH]; [done|].
  destruct ev; try done. cbn. rewrite Hf. exact IH.
Qed.

Lemma destroy_not_visible evs :
  Forall is_destroy evs -> Forall (fun ev => user_visible ev = false) evs.
Proof. intros H. eapply Forall_impl; [exact H|]. by intros []. Qed.

(** One tick of one handle. *)
Lemma update_spec u st :
  wf st ->
  match update (u, st) with
  | ((u', st'), evs, r) =>
      calm st st' /\ updaters st' = updaters st /\
      ticks evs = [uid u] /\ warns evs = [] /\
      invokes evs = (if is_invoked st u then [uid u] else []) /\
      Forall (fun ev => user_visible ev = false) evs /\
      match tick_outcome st u with
      | TickDead => r = Ok tt /\ u' = set_dead true u /\ st' = st
      | TickOk => r = Ok tt /\ u' = after_call (env u) false u
      | TickThrow e => r = Throw e
      end
  end.
Proof.
  intros Hwf. unfold update, tick_outcome, is_invoked.
  destruct (allRootsInactive (bodies st) (rootBodies (env u))) as [[]|e]; simpl.
  - split_and!; auto using calm_refl.
  - pose proof (run_script_steady (origUpdate u (calls u))
                  (mkClosure true (rootBodies (env u))) st) as H.
    destruct (run_script _ _) as [[[cl st'] evs] r].
    destruct H as [Hst Hr]. simpl in Hr. rewrite <- (Hr Hwf).
    pose proof (steady_events _ _ _ _ _ Hst) as Hev.
    assert (rootBodies cl = rootBodies (env u)) as Hroots
      by (apply (steady_roots _ _ _ _ _ Hst); done).
    destruct r as [[]|e]; simpl;
      unfold ticks, warns, invokes; simpl;
      rewrite !omap_destroy_only by done;
      split_and!; eauto using steady_calm, steady_updaters.
    + constructor; [done|constructor; [done|by apply destroy_not_visible]].
    + unfold after_call. by rewrite Hroots.
    + constructor; [done|constructor; [done|by apply destroy_not_visible]].
  - split_and!; auto using calm_refl.
Qed.

(** ** One frame of the loop *)

Lemma wf_set_updaters f st : wf (set_updaters f st) <-> wf st.
Proof. done. Qed.

Lemma filter_snoc {A} (P : A -> Prop) `{forall x, Decision (P x)} (l : list A) x :
  filter P (l ++ [x]) = filter P l ++ (if decide (P x) then [x] else []).
Proof.
  by rewrite filter_app.
Qed.

Lemma omap_next_handle_shape st st' (l : list Updater) :
  same_shape st st' -> omap (next_handle st') l = omap (next_handle st) l.
Proof.
  intros Hs. induction l as [|u l IH]; [done|].
  cbn. by rewrite (next_handle_shape st st'), IH.
Qed.

Lemma filter_invoked_shape st st' (l : list Updater) :
  same_shape st st' ->
  filter (fun u => is_invoked st' u = true) l = filter (fun u => is_invoked st u = true) l.
Proof.
  intros Hs. apply list_filter_iff. intros u. by rewrite (is_invoked_shape st st').
Qed.

Lemma filter_dropped_shape st st' (l : list Updater) :
  same_shape st st' ->
  filter (fun u => is_dropped st' u = true) l = filter (fun u => is_dropped st u = true) l.
Proof.
  intros Hs. apply list_filter_iff. intros u. by rewrite (is_dropped_shape st st').
Qed.

Lemma user_visible_app evs evs' :
  Forall (fun ev => user_visible ev = false) evs ->
  Forall (fun ev => user_visible ev = false) evs' ->
  Forall (fun ev => user_visible ev = false) (evs ++ evs').
Proof. intros. by apply Forall_app. Qed.

Lemma loop_from_spec i : forall st,
  wf st -> i <= length (updaters st) ->
  match loop_from i st with
  | (st', evs) =>
      calm st st' /\
      updaters st' =
        omap (next_handle st) (take i (updaters st)) ++ drop i (updaters st) /\
      ticks evs = rev (uid <$> take i (updaters st)) /\
      invokes evs =
        rev (uid <$> filter (fun u => is_invoked st u = true) (take i (updaters st))) /\
      warns evs =
        rev (uid <$> filter (fun u => is_dropped st u = true) (take i (updaters st))) /\
      Forall (fun ev => user_visible ev = false) evs
  end.
Proof.
  induction i as [|j IH]; intros st Hwf Hi.
  - simpl. split_and!; auto using calm_refl.
  - destruct (lookup_lt_is_Some_2 (updaters st) j ltac:(lia)) as [u Hu].
    cbn [loop_from]. rewrite Hu.
    pose proof (update_spec u st Hwf) as Hup.
    destruct (update (u, st)) as [[[u' st1] evs1] r].
    destruct Hup as (Hc1 & Hupd & Ht & Hw & Hinv & Hvis & Hout).
    rewrite (take_S_r _ _ _ Hu).
    rewrite omap_app, !filter_snoc, !fmap_app, !rev_app_distr.
    assert (Hnh : next_handle st u = match r with Ok _ => Some u' | Throw _ => None end /\
                  is_dropped st u = match r with Ok _ => false | Throw _ => true end).
    { unfold next_handle, is_dropped.
      destruct (tick_outcome st u), r as [[]|?]; simpl in Hout |- *;
        intuition (subst; first [done | congruence]). }
    destruct Hnh as [Hnh Hdr]. cbn [omap list_omap]. rewrite Hnh, Hdr.
    destruct r as [[]|e].
    + set (st2 := set_updaters (fun l => <[j := u']> l) st1).
      assert (Hc2 : calm st st2) by (eapply calm_trans; [exact Hc1|apply calm_set_updaters]).
      specialize (IH st2 (calm_wf _ _ Hc2 Hwf)).
      assert (Hus : updaters st2 = <[j := u']> (updaters st)) by (simpl; by rewrite Hupd).
      rewrite Hus, length_insert in IH. specialize (IH ltac:(lia)).
      destruct (loop_from j st2) as [st' evs'].
      destruct IH as (Hc3 & Hupd3 & Ht3 & Hinv3 & Hw3 & Hvis3).
      rewrite take_insert_ge in * by lia.
      pose proof (calm_shape _ _ Hc2) as Hs2.
      rewrite (omap_next_handle_shape st st2) in Hupd3 by done.
      rewrite (filter_invoked_shape st st2) in Hinv3 by done.
      rewrite (filter_dropped_shape st st2) in Hw3 by done.
      unfold ticks, invokes, warns in *. rewrite !omap_app.
      rewrite Ht, Ht3, Hw, Hw3, Hinv, Hinv3.
      split_and!.
      * eapply calm_trans; eauto.
      * rewrite Hupd3, <- app_assoc. f_equal.
        rewrite (drop_S (<[j:=u']> (updaters st)) u' j)
          by (apply list_lookup_insert_eq; lia).
        by rewrite drop_insert_lt by lia.
      * done.
      * case_decide as Hd; destruct (is_invoked st u); done.
      * done.
      * by apply user_visible_app.
    + set (st2 := set_updaters (fun l => delete j l) st1).
      assert (Hc2 : calm st st2) by (eapply calm_trans; [exact Hc1|apply calm_set_updaters]).
      specialize (IH st2 (calm_wf _ _ Hc2 Hwf)).
      assert (Hus : updaters st2 = delete j (updaters st)) by (simpl; by rewrite Hupd).
      rewrite Hus, length_delete in IH by eauto. specialize (IH ltac:(lia)).
      destruct (loop_from j st2) as [st' evs'].
      destruct IH as (Hc3 & Hupd3 & Ht3 & Hinv3 & Hw3 & Hvis3).
      rewrite delete_take_drop in *.
      rewrite take_app_length' in * by (rewrite length_take; lia).
      rewrite drop_app_length' in * by (rewrite length_take; lia).
      pose proof (calm_shape _ _ Hc2) as Hs2.
      rewrite (omap_next_handle_shape st st2) in Hupd3 by done.
      rewrite (filter_invoked_shape st st2) in Hinv3 by done.
      rewrite (filter_dropped_shape st st2) in Hw3 by done.
      unfold ticks, invokes, warns in *. rewrite !omap_app. cbn [omap list_omap warn_of tick_of invoke_of].
      rewrite Ht, Ht3, Hw, Hw3, Hinv, Hinv3.
      split_and!.
      * eapply calm_trans; eauto.
      * by rewrite Hupd3, app_nil_r.
      * done.
      * case_decide as Hd; destruct (is_invoked st u); done.
      * done.
      * apply user_visible_app; [done|]. by constructor.
Qed.

(** A frame visits every handle once, last to first, and keeps the ones
    whose tick did not throw, in their order. *)
Lemma loop_spec st :
  wf st ->
  match loop st with
  | (st', evs) =>
      calm st st' /\
      updaters st' = omap (next_handle st) (updaters st) /\
      ticks evs = rev (uid <$> updaters st) /\
      invokes evs = rev (uid <$> filter (fun u => is_invoked st u = true) (updaters st)) /\
      warns evs = rev (uid <$> filter (fun u => is_dropped st u = true) (updaters st)) /\
      Forall (fun ev => user_visible ev = false) evs
  end.
Proof.
  intros Hwf. unfold loop.
  pose proof (loop_from_spec (length (updaters st)) st Hwf ltac:(lia)) as H.
  destruct (loop_from _ _) as [st' evs].
  rewrite take_ge, drop_ge, app_nil_r in H by lia. exact H.
Qed.

(** ** Several frames *)

Lemma next_handle_uid st u u' : next_handle st u = Some u' -> uid u' = uid u.
Proof.
  unfold next_handle. destruct (tick_outcome st u); intros [= <-]; done.
Qed.

Lemma handle_after_shape st st' n : forall u,
  same_shape st st' -> handle_after st' n u = handle_after st n u.
Proof.
  induction n as [|n IH]; intros u Hs; simpl; [done|].
  rewrite (next_handle_shape st st') by done.
  destruct (next_handle st u); simpl; auto.
Qed.

Lemma lifetime_shape st st' n : forall u,
  same_shape st st' -> lifetime st' n u = lifetime st n u.
Proof.
  induction n as [|n IH]; intros u Hs; simpl; [done|].
  rewrite (next_handle_shape st st') by done.
  destruct (next_handle st u); simpl; auto.
Qed.

Lemma invocations_shape st st' n : forall u,
  same_shape st st' -> invocations st' n u = invocations st n u.
Proof.
  induction n as [|n IH]; intros u Hs; simpl; [done|].
  rewrite (next_handle_shape st st'), (is_invoked_shape st st') by done.
  destruct (next_handle st u); simpl; auto.
Qed.

Lemma drops_shape st st' n : forall u,
  same_shape st st' -> drops st' n u = drops st n u.
Proof.
  induction n as [|n IH]; intros u Hs; simpl; [done|].
  rewrite (next_handle_shape st st'), (is_dropped_shape st st') by done.
  destruct (next_handle st u); simpl; auto.
Qed.

Lemma sum_over_ext id f g us :
  (forall u, f u = g u) -> sum_over id f us = sum_over id g us.
Proof.
  intros H. unfold sum_over. f_equal. apply list_fmap_ext. intros _ u _.
  by rewrite H.
Qed.

Lemma occurrences_app x l k :
  occurrences x (l ++ k) = occurrences x l + occurrences x k.
Proof. unfold occurrences. by rewrite filter_app, length_app. Qed.

Lemma occurrences_cons x y l :
  occurrences x (y :: l) = (if decide (y = x) then 1 else 0) + occurrences x l.
Proof. unfold occurrences. rewrite filter_cons. by case_decide. Qed.

Lemma occurrences_rev x l : occurrences x (rev l) = occurrences x l.
Proof.
  induction l as [|y l IH]; [done|]. simpl rev.
  rewrite occurrences_app, IH, !occurrences_cons.
  unfold occurrences at 2. simpl. lia.
Qed.

Lemma sum_over_cons id f u us :
  sum_over id f (u :: us) = (if decide (uid u = id) then f u else 0) + sum_over id f us.
Proof. done. Qed.

Lemma occurrences_uids id (p : Updater -> bool) us :
  occurrences id (uid <$> filter (fun u => p u = true) us) =
  sum_over id (fun u => if p u then 1 else 0) us.
Proof.
  induction us as [|u us IH]; [done|].
  rewrite sum_over_cons, <- IH.
  destruct (p u) eqn:Hp.
  - rewrite filter_cons_True by exact Hp. by rewrite fmap_cons, occurrences_cons.
  - rewrite filter_cons_False by (simpl; congruence). by case_decide.
Qed.

Lemma occurrences_all_uids id us :
  occurrences id (uid <$> us) = sum_over id (fun _ => 1) us.
Proof.
  induction us as [|u us IH]; [done|].
  by rewrite fmap_cons, occurrences_cons, sum_over_cons, IH.
Qed.

(** The sum over this frame and the later ones. *)
Lemma sum_over_step id (g : Updater -> option Updater) (a f f' : Updater -> nat) us :
  (forall u u', g u = Some u' -> uid u' = uid u) ->
  (forall u, f' u = a u + match g u with Some u' => f u' | None => 0 end) ->
  sum_over id a us + sum_over id f (omap g us) = sum_over id f' us.
Proof.
  intros Hg Hf. induction us as [|u us IH]; [done|].
  cbn [omap list_omap]. rewrite !sum_over_cons, <- IH, Hf. clear IH.
  destruct (g u) as [u'|] eqn:Hgu.
  - rewrite sum_over_cons, (Hg _ _ Hgu). case_decide; lia.
  - case_decide; lia.
Qed.

Lemma sum_over_absent id f us : id ∉ (uid <$> us) -> sum_over id f us = 0.
Proof.
  induction us as [|u us IH]; [done|]. rewrite fmap_cons, sum_over_cons.
  intros Hn. apply not_elem_of_cons in Hn as [Hne Hn].
  rewrite decide_False by done. by rewrite IH.
Qed.

(** With distinct identities the sum is the one term of the handle. *)
Lemma sum_over_NoDup f us u :
  NoDup (uid <$> us) -> u ∈ us -> sum_over (uid u) f us = f u.
Proof.
  intros Hnd Hin. induction us as [|v us IH]; [by apply elem_of_nil in Hin|].
  rewrite fmap_cons in Hnd. apply NoDup_cons in Hnd as [Hv Hnd].
  rewrite sum_over_cons.
  apply elem_of_cons in Hin as [->|Hin].
  - rewrite decide_True by done. rewrite sum_over_absent by done. lia.
  - rewrite decide_False.
    + by apply IH.
    + intros Heq. apply Hv. rewrite Heq. by apply list_elem_of_fmap_2.
Qed.

Lemma omap_omap_bind {A B C} (f : A -> option B) (g : B -> option C) (l : list A) :
  omap g (omap f l) = omap (fun x => f x ≫= g) l.
Proof.
  induction l as [|x l IH]; [done|]. cbn. destruct (f x) as [y|]; cbn; [|done].
  destruct (g y); by rewrite IH.
Qed.

Lemma omap_handle_after_shape st st' n (l : list Updater) :
  same_shape st st' -> omap (handle_after st' n) l = omap (handle_after st n) l.
Proof.
  intros Hs. induction l as [|u l IH]; [done|].
  cbn. by rewrite (handle_after_shape st st'), IH.
Qed.

(** [n] frames: every handle evolves on its own. *)
Lemma frames_spec n : forall st,
  wf st ->
  match frames n st with
  | (st', evs) =>
      calm st st' /\
      updaters st' = omap (handle_after st n) (updaters st) /\
      (forall id, occurrences id (ticks evs) = sum_over id (lifetime st n) (updaters st)) /\
      (forall id, occurrences id (invokes evs) =
                  sum_over id (invocations st n) (updaters st)) /\
      (forall id, occurrences id (warns evs) = sum_over id (drops st n) (updaters st)) /\
      Forall (fun ev => user_visible ev = false) evs
  end.
Proof.
  induction n as [|n IH]; intros st Hwf.
  - simpl. split_and!; auto using calm_refl.
    + induction (updaters st) as [|u us IHus]; [done|]. cbn. by rewrite <- IHus.
    + intros id. unfold sum_over. induction (updaters st); simpl; [done|]. by case_decide.
    + intros id. unfold sum_over. induction (updaters st); simpl; [done|]. by case_decide.
    + intros id. unfold sum_over. induction (updaters st); simpl; [done|]. by case_decide.
  - cbn [frames].
    pose proof (loop_spec st Hwf) as H1.
    destruct (loop st) as [st1 evs1].
    destruct H1 as (Hc1 & Hu1 & Ht1 & Hi1 & Hw1 & Hv1).
    specialize (IH st1 (calm_wf _ _ Hc1 Hwf)).
    destruct (frames n st1) as [st2 evs2].
    destruct IH as (Hc2 & Hu2 & Ht2 & Hi2 & Hw2 & Hv2).
    pose proof (calm_shape _ _ Hc1) as Hs.
    split_and!.
    + eapply calm_trans; eauto.
    + rewrite Hu2, Hu1, (omap_handle_after_shape st st1) by done.
      apply omap_omap_bind.
    + intros id. unfold ticks in *. rewrite omap_app, occurrences_app, Ht1, Ht2.
      rewrite occurrences_rev, occurrences_all_uids, Hu1.
      rewrite (sum_over_ext id (lifetime st1 n) (lifetime st n))
        by (intros; by apply lifetime_shape).
      apply sum_over_step; [apply next_handle_uid|].
      intros u. simpl. by destruct (next_handle st u).
    + intros id. unfold invokes in *. rewrite omap_app, occurrences_app, Hi1, Hi2.
      rewrite occurrences_rev, occurrences_uids, Hu1.
      rewrite (sum_over_ext id (invocations st1 n) (invocations st n))
        by (intros; by apply invocations_shape).
      apply sum_over_step; [apply next_handle_uid|done].
    + intros id. unfold warns in *. rewrite omap_app, occurrences_app, Hw1, Hw2.
      rewrite occurrences_rev, occurrences_uids, Hu1.
      rewrite (sum_over_ext id (drops st1 n) (drops st n))
        by (intros; by apply drops_shape).
      apply sum_over_step; [apply next_handle_uid|done].
    + by apply user_visible_app.
Qed.

(** ** Identities of handles *)

Lemma uid_in_omap (g : Updater -> option Updater) us u :
  (forall v v', g v = Some v' -> uid v' = uid v) ->
  NoDup (uid <$> us) -> u ∈ us ->
  uid u ∈ (uid <$> omap g us) <-> is_Some (g u).
Proof.
  intros Hg Hnd Hin. split.
  - intros Hu. apply list_elem_of_fmap in Hu as (v' & Huv & Hv').
    apply list_elem_of_omap in Hv' as (v & Hv & Hgv).
    assert (uid v = uid u) as Heq by (rewrite Huv; symmetry; eauto).
    assert (v = u) as ->; [|eauto].
    apply list_elem_of_lookup in Hv as [i Hi], Hin as [j Hj].
    assert (i = j) as ->; [|congruence].
    eapply NoDup_lookup; [exact Hnd| |]; rewrite list_lookup_fmap.
    + by rewrite Hi.
    + rewrite Hj. simpl. by rewrite Heq.
  - intros [u' Hu']. apply list_elem_of_fmap. exists u'. split; [symmetry; eauto|].
    apply list_elem_of_omap. eauto.
Qed.

Lemma omap_uids_sublist (g : Updater -> option Updater) us :
  (forall v v', g v = Some v' -> uid v' = uid v) ->
  sublist (uid <$> omap g us) (uid <$> us).
Proof.
  intros Hg. induction us as [|u us IH]; [done|]. cbn.
  destruct (g u) as [u'|] eqn:Hu; cbn.
  - rewrite (Hg _ _ Hu). by apply sublist_skip.
  - by apply sublist_cons.
Qed.

Lemma allRootsInactive_nil w : allRootsInactive w [] = Ok false.
Proof. done. Qed.

Lemma every_inactive_all (w : gmap BodyId Body) l :
  Forall (fun b => exists bd, w !! b = Some bd /\ active bd = false) l ->
  every_inactive w l = Ok true.
Proof.
  induction 1 as [|b l (bd & Hb & Ha) _ IH]; simpl; [done|].
  by rewrite Hb, Ha.
Qed.

Lemma executeAll_snoc js codes code st :
  executeAll js (codes ++ [code]) st =
  fst (fst (execute js code (executeAll js codes st))).
Proof. unfold executeAll. by rewrite fold_left_app. Qed.

(** ** C8: the order of ticks *)

(** C8, as stated, fails: with two behaviors registered in the order 0, 1
    the frame ticks 1 before 0. *)
Lemma registration_order_counterexample :
  let st := executeAll demoCompile ["ball"; "bomb"] (demoState 200) in
  uid <$> updaters st = [0; 1] /\
  ticks (snd (loop st)) = [1; 0] /\
  ticks (snd (loop st)) <> uid <$> updaters st.
Proof. vm_compute. split_and!; [done|done|discriminate]. Qed.

(** C8 (amended): on every frame the [update()] of each handle in
    [updaters] is entered exactly once, and the handles are visited in
    reverse registration order, the last one pushed first. *)
Theorem loop_ticks_once_in_reverse_order st :
  wf st -> NoDup (uid <$> updaters st) ->
  ticks (snd (loop st)) = rev (uid <$> updaters st) /\
  forall u, u ∈ updaters st -> occurrences (uid u) (ticks (snd (loop st))) = 1.
Proof.
  intros Hwf Hnd. pose proof (loop_spec st Hwf) as H.
  destruct (loop st) as [st' evs]. destruct H as (_ & _ & Ht & _). simpl.
  split; [done|]. intros u Hu.
  rewrite Ht, occurrences_rev, occurrences_all_uids.
  by rewrite sum_over_NoDup.
Qed.

Lemma loop_ticks_once_in_reverse_order_witness :
  let st := executeAll demoCompile ["ball"; "bomb"] (demoState 200) in
  ticks (snd (loop st)) = rev (uid <$> updaters st) /\
  forall u, u ∈ updaters st -> occurrences (uid u) (ticks (snd (loop st))) = 1.
Proof.
  apply loop_ticks_once_in_reverse_order.
  - vm_compute. constructor.
  - refine (@bool_decide_unpack _ (NoDup_dec _) _). vm_compute. exact I.
Defined.

(** ** Handles from one frame to the next *)

Lemma after_call_invoked st cl u :
  rootBodies cl = rootBodies (env u) ->
  is_invoked st (after_call cl false u) = is_invoked st u.
Proof. intros H. unfold is_invoked. simpl. by rewrite H. Qed.

Lemma next_handle_invoked st u :
  is_invoked st u = true ->
  next_handle st u =
    match script_outcome st true (origUpdate u (calls u)) with
    | Ok _ => Some (after_call (env u) false u)
    | Throw _ => None
    end /\
  is_dropped st u =
    match script_outcome st true (origUpdate u (calls u)) with
    | Ok _ => false
    | Throw _ => true
    end.
Proof.
  unfold is_invoked, next_handle, is_dropped, tick_outcome.
  destruct (allRootsInactive _ _) as [[]|]; try done.
  by destruct (script_outcome _ _ _).
Qed.

Lemma handle_after_uid st n : forall v v',
  handle_after st n v = Some v' -> uid v' = uid v.
Proof.
  induction n as [|n IH]; simpl; intros v v'; [by intros [= ->]|].
  destruct (next_handle st v) as [w|] eqn:Hw; simpl; [|done].
  intros Hv. rewrite (IH _ _ Hv). by apply (next_handle_uid st).
Qed.

(** ** C5: a behavior whose root bodies are all inactive *)

Lemma allRootsInactive_all w l :
  l <> [] ->
  Forall (fun b => exists bd, w !! b = Some bd /\ active bd = false) l ->
  allRootsInactive w l = Ok true.
Proof.
  intros Hne Hall. unfold allRootsInactive.
  rewrite decide_True by (destruct l; [done|simpl; lia]).
  by apply every_inactive_all.
Qed.

(** Once every root body of a handle is inactive, a frame does not invoke
    its generated update and marks it dead; the handle stays in
    [updaters]. *)
Lemma roots_inactive_marks_dead st u :
  wf st -> NoDup (uid <$> updaters st) -> u ∈ updaters st ->
  rootBodies (env u) <> [] ->
  Forall (fun b => exists bd, bodies st !! b = Some bd /\ active bd = false)
    (rootBodies (env u)) ->
  let '(st', evs) := loop st in
  occurrences (uid u) (invokes evs) = 0 /\ set_dead true u ∈ updaters st'.
Proof.
  intros Hwf Hnd Hin Hne Hall.
  pose proof (allRootsInactive_all _ _ Hne Hall) as Hr.
  pose proof (loop_spec st Hwf) as H.
  destruct (loop st) as [st' evs]. destruct H as (_ & Hu & _ & Hi & _).
  split.
  - rewrite Hi, occurrences_rev, occurrences_uids, sum_over_NoDup by done.
    unfold is_invoked. by rewrite Hr.
  - rewrite Hu. apply list_elem_of_omap. exists u. split; [done|].
    unfold next_handle, tick_outcome. by rewrite Hr.
Qed.

(** C5, on the code: the [ball] behavior has one root body, body 100.
    After that body became inactive, three frames never invoke the
    generated update and mark the handle dead, but the handle is still in
    [updaters] after each of them: the loop removes a handle only when its
    tick throws. *)
Theorem dead_handle_is_not_removed :
  let st := deactivate 100 (executeAll demoCompile ["ball"] (demoState 200)) in
  (rootBodies ∘ env <$> updaters st) = [[100]] /\
  invokes (snd (frames 3 st)) = [] /\
  ticks (snd (frames 3 st)) = [0; 0; 0] /\
  (dead <$> updaters (fst (loop st))) = [true] /\
  (uid <$> updaters (fst (frames 3 st))) = [0].
Proof. vm_compute. done. Qed.

(** ** C10: a behavior without root bodies *)

Lemma rootless_next st u :
  rootBodies (env u) = [] ->
  is_invoked st u = true /\
  next_handle st u =
    match script_outcome st true (origUpdate u (calls u)) with
    | Ok _ => Some (after_call (env u) false u)
    | Throw _ => None
    end.
Proof.
  intros Hr. assert (Hi : is_invoked st u = true).
  { unfold is_invoked. by rewrite Hr. }
  split; [done|]. by apply next_handle_invoked.
Qed.

Lemma rootless_after st n : forall u,
  rootBodies (env u) = [] ->
  invocations st n u = lifetime st n u /\
  match handle_after st n u with
  | Some u' =>
      uid u' = uid u /\ dead u' = dead u /\ rootBodies (env u') = [] /\
      calls u' = calls u + n /\ lifetime st n u = n
  | None =>
      exists k e, k < n /\
        script_outcome st true (origUpdate u (calls u + k)) = Throw e
  end.
Proof.
  induction n as [|n IH]; intros u Hr; simpl.
  - split_and!; auto.
  - destruct (rootless_next st u Hr) as [Hi Hn]. rewrite Hi, Hn.
    destruct (script_outcome st true (origUpdate u (calls u))) as [[]|e] eqn:Hs; simpl.
    + destruct (IH (after_call (env u) false u)) as [Hinv Hh]; [by simpl|].
      rewrite Hinv. split; [done|].
      destruct (handle_after st n (after_call (env u) false u)) as [u'|].
      * simpl in Hh. destruct Hh as (? & ? & ? & ? & ?). split_and!; auto; lia.
      * destruct Hh as (k & e & Hk & He). exists (S k), e. split; [lia|].
        simpl in He. by rewrite Nat.add_succ_r.
    + split; [done|]. exists 0, e. split; [lia|]. by rewrite Nat.add_0_r.
Qed.

(** C10: a behavior that registered nothing in its setup has no root body;
    the root-body check never marks it dead, every frame invokes its
    generated update, and it leaves [updaters] only when one of these
    invocations throws. *)
Theorem rootless_behavior_runs_until_it_throws st u :
  wf st -> NoDup (uid <$> updaters st) -> u ∈ updaters st ->
  rootBodies (env u) = [] ->
  tick_outcome st u <> TickDead /\
  (let '(st', evs) := loop st in
   occurrences (uid u) (invokes evs) = 1 /\
   match script_outcome st true (origUpdate u (calls u)) with
   | Ok _ => after_call (env u) false u ∈ updaters st'
   | Throw _ => uid u ∉ (uid <$> updaters st')
   end) /\
  (forall n, let '(st', evs) := frames n st in
   occurrences (uid u) (invokes evs) = lifetime st n u /\
   ((forall k, k < n ->
       script_outcome st true (origUpdate u (calls u + k)) = Ok tt) ->
    lifetime st n u = n /\
    exists u', u' ∈ updaters st' /\ uid u' = uid u /\ dead u' = dead u /\
               rootBodies (env u') = [] /\ calls u' = calls u + n) /\
   ((uid u ∉ (uid <$> updaters st')) ->
    exists k e, k < n /\
      script_outcome st true (origUpdate u (calls u + k)) = Throw e)).
Proof.
  intros Hwf Hnd Hin Hr.
  destruct (rootless_next st u Hr) as [Hi Hn]. split_and!.
  - unfold tick_outcome. unfold is_invoked in Hi.
    destruct (allRootsInactive _ _) as [[]|]; try done.
    by destruct (script_outcome _ _ _).
  - pose proof (loop_spec st Hwf) as H.
    destruct (loop st) as [st' evs]. destruct H as (_ & Hu & _ & Hiv & _).
    split.
    + rewrite Hiv, occurrences_rev, occurrences_uids, sum_over_NoDup by done.
      by rewrite Hi.
    + rewrite Hu.
      pose proof (uid_in_omap (next_handle st) _ u (next_handle_uid st) Hnd Hin) as Hiff.
      rewrite Hn in Hiff.
      destruct (script_outcome _ _ _) as [[]|e].
      * apply list_elem_of_omap. exists u. by rewrite Hn.
      * rewrite Hiff. by intros [? ?].
  - intros n. pose proof (frames_spec n st Hwf) as H.
    destruct (frames n st) as [st' evs]. destruct H as (_ & Hu & _ & Hiv & _).
    destruct (rootless_after st n u Hr) as [Hil Hh].
    split_and!.
    + by rewrite Hiv, sum_over_NoDup.
    + intros Hok. destruct (handle_after st n u) as [u'|] eqn:Hu'.
      * destruct Hh as (? & ? & ? & ? & ?). split; [done|].
        exists u'. split_and!; auto.
        rewrite Hu. apply list_elem_of_omap. eauto.
      * destruct Hh as (k & e & Hk & He). rewrite (Hok k Hk) in He. done.
    + intros Hgone. destruct (handle_after st n u) as [u'|] eqn:Hu'; [|done].
      exfalso. apply Hgone. rewrite Hu.
      apply (uid_in_omap (handle_after st n) _ u (handle_after_uid st n) Hnd Hin).
      eauto.
Qed.

Lemma rootless_behavior_runs_until_it_throws_witness :
  let st := executeAll demoCompile ["ball"; "bomb"] (demoState 200) in
  wf st /\ NoDup (uid <$> updaters st) /\
  occurrences 1 (invokes (snd (frames 2 st))) = 2 /\
  1 ∈ (uid <$> updaters (fst (frames 2 st))).
Proof.
  intros st.
  assert (Hwf : wf st) by (vm_compute; constructor).
  assert (Hnd : NoDup (uid <$> updaters st))
    by (refine (@bool_decide_unpack _ (NoDup_dec _) _); vm_compute; exact I).
  split; [exact Hwf|]. split; [exact Hnd|].
  pose (u := mkUpdater 1 false (mkClosure false [])
               (fun k => if decide (k = 2) then [GThrow (mkError "boom")] else []) 0).
  assert (Hin : u ∈ updaters st).
  { apply list_elem_of_lookup. exists 1. vm_compute. reflexivity. }
  destruct (rootless_behavior_runs_until_it_throws st u Hwf Hnd Hin eq_refl)
    as (_ & _ & H).
  specialize (H 2). destruct (frames 2 st) as [st' evs].
  destruct H as (Hocc & Hok & _).
  destruct Hok as (Hl & u' & Hu' & Hid & _).
  { intros k Hk. destruct k as [|[|k]]; [vm_compute; reflexivity..|lia]. }
  simpl. split.
  - change 1 with (uid u). rewrite Hocc. exact Hl.
  - change 1 with (uid u). rewrite <- Hid. by apply list_elem_of_fmap_2.
Defined.

(** ** C4: what a registration does in setup and in an update *)

Lemma wrappedRegister_setup cl st o ob :
  inUpdate cl = false -> heap st !! o = Some ob ->
  wrappedRegister o (cl, st) =
    ((mkClosure false (rootBodies cl ++ [obj_body ob]),
      mkState (objects st ++ [o]) (ephemeral st) (updaters st)
        (<[o := mkObj (obj_body ob) true (obj_ephemeral ob)]> (heap st))
        (bodies st) (nextUid st)),
     [], Ok tt).
Proof.
  intros Hin Ho. unfold wrappedRegister. run_monad. rewrite Ho. simpl.
  rewrite Hin. simpl. norm. by rewrite Hin.
Qed.

(** The state a registration during an update leaves when it throws
    after [obj.ephemeral = true]: the object is flagged and registered,
    nothing else has happened. *)
Lemma wrappedRegister_update_throws cl st o ob :
  inUpdate cl = true -> heap st !! o = Some ob ->
  forall e,
    (bodies st !! obj_body ob = None /\ e = typeError "getUserData") \/
    (exists bd complaint, bodies st !! obj_body ob = Some bd /\
       refusal bd = Some complaint /\ e = mkError complaint) ->
    wrappedRegister o (cl, st) =
      ((cl, mkState (objects st ++ [o]) (ephemeral st) (updaters st)
              (<[o := mkObj (obj_body ob) true true]> (heap st))
              (bodies st) (nextUid st)),
       [], Throw e).
Proof.
  intros Hin Ho e He. unfold wrappedRegister. run_monad.
  rewrite Ho. simpl. rewrite Hin. simpl. norm. rewrite insert_insert_eq.
  destruct He as [[Hb ->]|(bd & complaint & Hb & Hrf & ->)]; rewrite Hb; simpl.
  - by destruct cl.
  - rewrite Hrf. simpl. by destruct cl.
Qed.

Lemma wrappedRegister_update cl st o ob bd :
  inUpdate cl = true -> heap st !! o = Some ob ->
  bodies st !! obj_body ob = Some bd -> refusal bd = None -> wf st ->
  wrappedRegister o (cl, st) =
    if decide (MAX_EPHEMERAL < length (ephemeral st ++ [o])) then
      match ephemeral st ++ [o] with
      | old :: rest =>
          ((cl, unregisterObject old (set_ephemeral (fun _ => rest) (pushed o bd st))),
           [EvDestroyBody (body_at st old)], Ok tt)
      | [] => ((cl, pushed o bd st), [], Ok tt)
      end
    else ((cl, pushed o bd st), [], Ok tt).
Proof.
  intros Hin Ho Hb Hrf Hwf. unfold wrappedRegister, pushed, body_at. run_monad.
  rewrite Ho. simpl. rewrite Hin. simpl. rewrite Hb. simpl. rewrite Hrf. simpl. norm.
  rewrite insert_insert_eq.
  case_decide as Hlen; simpl; [|by destruct cl].
  unfold evictOldest. run_monad.
  destruct (ephemeral st ++ [o]) as [|old rest] eqn:Hbuf; simpl; [by destruct cl|].
  norm.
  match goal with |- context [unregisterObject old ?s] =>
    destruct (unregister_fields old s) as (E1 & E2 & E3 & E4 & E5) end.
  rewrite E2. simpl.
  assert (Hold : old ∈ ephemeral st ++ [o]) by (rewrite Hbuf; left).
  apply elem_of_app in Hold as [Hold|Hold].
  - destruct (proj1 (Forall_forall _ _) Hwf old Hold) as [oo Hoo].
    destruct (decide (o = old)) as [<-|Hne].
    + rewrite lookup_insert_eq. simpl. rewrite Ho. by destruct cl.
    + rewrite lookup_insert_ne by done. rewrite Hoo. simpl. by destruct cl.
  - apply list_elem_of_singleton in Hold as ->.
    rewrite lookup_insert_eq. simpl. rewrite Ho. by destruct cl.
Qed.





(** ** C1: the ring buffer *)

Lemma body_at_shape st st' o : same_shape st st' -> body_at st' o = body_at st o.
Proof.
  intros [Hh _]. unfold body_at. specialize (Hh o).
  destruct (heap st' !! o), (heap st !! o); simpl in Hh; congruence.
Qed.

Lemma registrable_shape st st' o :
  same_shape st st' -> registrable st o -> registrable st' o.
Proof.
  intros (Hh & Hb & Hr) (ob & bd & Ho & Hbd & Hrf). unfold registrable.
  specialize (Hh o). rewrite Ho in Hh.
  destruct (heap st' !! o) as [ob'|]; simpl in Hh; [|done].
  assert (obj_body ob' = obj_body ob) as Heq by congruence.
  specialize (Hb (obj_body ob)). rewrite Hbd in Hb.
  specialize (Hr (obj_body ob)). rewrite Hbd in Hr.
  destruct (bodies st' !! obj_body ob) as [bd'|] eqn:Hbd'; simpl in Hb, Hr; [|done].
  exists ob', bd'. rewrite Heq. split_and!; [done|done|congruence].
Qed.

(** [unregisterObject] on a registry without duplicates removes the object. *)
Lemma remove_first_filter (l : list ObjId) o :
  NoDup l ->
  match indexOf l o with Some i => delete i l | None => l end =
  filter (fun x => x <> o) l.
Proof.
  induction 1 as [|x l Hx Hnd IH]; simpl; [done|].
  case_decide as Hxo.
  - subst x. simpl. rewrite filter_cons_False by (intros ?; done).
    symmetry. clear IH.
    induction l as [|y l IH]; [done|].
    apply not_elem_of_cons in Hx as [Hne Hx]. apply NoDup_cons in Hnd as [_ Hnd].
    rewrite filter_cons_True by done. f_equal. by apply IH.
  - rewrite filter_cons_True by done. rewrite <- IH.
    destruct (indexOf l o); done.
Qed.

Lemma unregister_objects o st :
  NoDup (objects st) ->
  objects (unregisterObject o st) = filter (fun x => x <> o) (objects st).
Proof.
  intros Hnd. rewrite <- remove_first_filter by done.
  unfold unregisterObject. destruct (indexOf (objects st) o); done.
Qed.

Lemma filter_not_in_cons (old : ObjId) (ev l : list ObjId) :
  filter (fun x => x ∉ old :: ev) l = filter (fun x => x ∉ ev) (filter (fun x => x <> old) l).
Proof.
  rewrite list_filter_filter. apply list_filter_iff. intros x.
  rewrite not_elem_of_cons. tauto.
Qed.

Lemma filter_ne_absent (old : ObjId) (l : list ObjId) :
  old ∉ l -> filter (fun x => x <> old) l = l.
Proof.
  induction l as [|y l IH]; [done|]. intros Hn.
  apply not_elem_of_cons in Hn as [Hne Hn].
  rewrite filter_cons_True by done. by rewrite IH.
Qed.

(** A run of update-time registrations of distinct objects: the buffer
    keeps the last [MAX_EPHEMERAL] of what it held and what came, and the
    others were evicted first in, first out, each unregistered and its
    body destroyed. *)
Lemma register_sequence os : forall cl st,
  inUpdate cl = true -> wf st -> length (ephemeral st) <= MAX_EPHEMERAL ->
  Forall (registrable st) os ->
  NoDup (objects st ++ os) -> NoDup (ephemeral st ++ os) ->
  let all := ephemeral st ++ os in
  let k := length all - MAX_EPHEMERAL in
  exists st',
    run_script (GRegister <$> os) (cl, st) =
      ((cl, st'), EvDestroyBody ∘ body_at st <$> take k all, Ok tt) /\
    ephemeral st' = drop k all /\
    objects st' = filter (fun x => x ∉ take k all) (objects st ++ os).
Proof.
  induction os as [|o os IH]; intros cl st Hin Hwf Hlen Hreg Hnd1 Hnd2; simpl.
  - rewrite !app_nil_r.
    replace (length (ephemeral st) - MAX_EPHEMERAL) with 0 by lia.
    exists st. split_and!; try done. simpl.
    induction (objects st) as [|x l IHl]; [done|].
    rewrite filter_cons_True by (apply not_elem_of_nil).
    f_equal. apply IHl. by apply NoDup_cons in Hnd1 as [_ ?].
  - apply Forall_cons in Hreg as [(ob & bd & Ho & Hb & Hrf) Hreg].
    assert (Hnd1' : NoDup ((objects st ++ [o]) ++ os)) by (by rewrite <- app_assoc).
    assert (Hnd2' : NoDup ((ephemeral st ++ [o]) ++ os)) by (by rewrite <- app_assoc).
    pose proof (wrappedRegister_steady o cl st) as Hst.
    rewrite (wrappedRegister_update cl st o ob bd Hin Ho Hb Hrf Hwf) in Hst |- *.
    case_decide as Hfull.
    + (* the buffer was full: the oldest entry goes *)
      destruct (ephemeral st ++ [o]) as [|old rest] eqn:Hbuf.
      { destruct (ephemeral st); discriminate. }
      set (st1 := unregisterObject old (set_ephemeral (fun _ => rest) (pushed o bd st))) in *.
      destruct Hst as [Hst _].
      assert (Heph1 : ephemeral st1 = rest).
      { unfold st1. by destruct (unregister_fields old
          (set_ephemeral (fun _ => rest) (pushed o bd st))) as (-> & _). }
      assert (Hobj1 : objects st1 = filter (fun x => x <> old) (objects st ++ [o])).
      { unfold st1. rewrite unregister_objects; [done|]. simpl.
        by apply NoDup_app in Hnd1' as [? _]. }
      assert (Hlen_rest : length rest = MAX_EPHEMERAL).
      { pose proof (f_equal length Hbuf) as Hl. rewrite length_app in Hl.
        simpl in Hl, Hfull. lia. }
      assert (Hall : ephemeral st ++ o :: os = old :: rest ++ os).
      { change (o :: os) with ([o] ++ os). by rewrite app_assoc, Hbuf. }
      assert (Hold_os : old ∉ os).
      { intros Hc. rewrite Hall in Hnd2. apply NoDup_cons in Hnd2 as [Hn _].
        apply Hn. apply elem_of_app. by right. }
      destruct (IH cl st1) as (st' & Hrun & Heph & Hobj).
      * done.
      * by apply (steady_wf _ _ _ _ _ Hst).
      * rewrite Heph1. lia.
      * eapply Forall_impl; [exact Hreg|]. intros x.
        apply registrable_shape, Hst.
      * rewrite Hobj1.
        apply (sublist_NoDup _ _ Hnd1').
        apply sublist_app; [apply sublist_filter|done].
      * rewrite Heph1. rewrite Hall in Hnd2. by apply NoDup_cons in Hnd2 as [_ ?].
      * rewrite Heph1 in *. cbv beta iota. fold st1.
        change (list_fmap ObjId GenCmd GRegister os) with (GRegister <$> os). rewrite Hrun.
        rewrite Hall. simpl length.
        replace (S (length (rest ++ os)) - MAX_EPHEMERAL)
          with (S (length (rest ++ os) - MAX_EPHEMERAL))
          by (rewrite length_app; lia).
        exists st'. simpl. split_and!.
        -- do 3 f_equal. apply list_fmap_ext. intros _ x _. simpl.
           f_equal. apply body_at_shape, Hst.
        -- done.
        -- rewrite Hobj, Hobj1, filter_not_in_cons.
           change (o :: os) with ([o] ++ os).
           rewrite app_assoc, (filter_app _ (_ ++ _) os).
           by rewrite (filter_ne_absent old os).
    + (* room left *)
      destruct Hst as [Hst _].
      destruct (IH cl (pushed o bd st)) as (st' & Hrun & Heph & Hobj).
      * done.
      * by apply (steady_wf _ _ _ _ _ Hst).
      * simpl. lia.
      * eapply Forall_impl; [exact Hreg|]. intros x.
        apply registrable_shape, Hst.
      * done.
      * done.
      * simpl in Hrun, Heph, Hobj. rewrite <- !app_assoc in Hrun, Heph, Hobj.
        simpl in Hrun, Heph, Hobj. cbv beta iota.
        change (list_fmap ObjId GenCmd GRegister os) with (GRegister <$> os).
        rewrite Hrun. exists st'. split_and!; [|done|].
        do 2 f_equal. apply list_fmap_ext. intros _ x _. simpl.
        f_equal. apply body_at_shape, Hst.
        rewrite Hobj. by rewrite <- app_assoc.
Qed.

Lemma unregister_remove_first o st :
  objects (unregisterObject o st) = remove_first o (objects st).
Proof. unfold unregisterObject, remove_first. by destruct (indexOf _ _). Qed.

Lemma occurrences_absent x l : x ∉ l -> occurrences x l = 0.
Proof.
  induction l as [|y l IH]; [done|]. intros Hn.
  apply not_elem_of_cons in Hn as [Hne Hn].
  rewrite occurrences_cons, decide_False by done. by rewrite IH.
Qed.

Lemma occurrences_NoDup x l : NoDup l -> x ∈ l -> occurrences x l = 1.
Proof.
  induction 1 as [|y l Hy Hnd IH]; intros Hin; [by apply elem_of_nil in Hin|].
  rewrite occurrences_cons. apply elem_of_cons in Hin as [->|Hin].
  - rewrite decide_True by done. by rewrite occurrences_absent.
  - rewrite decide_False by (intros ->; done). by rewrite IH.
Qed.

Lemma destroyed_of_bodies (f : ObjId -> BodyId) (l : list ObjId) :
  destroyed (EvDestroyBody ∘ f <$> l) = f <$> l.
Proof. induction l as [|x l IH]; [done|]. cbn. by f_equal. Qed.

Lemma filter_all (P : ObjId -> Prop) `{forall x, Decision (P x)} (l : list ObjId) :
  (forall x, x ∈ l -> P x) -> filter P l = l.
Proof.
  induction l as [|y l IH]; [done|]. intros Hall.
  rewrite filter_cons_True by (apply Hall; by left).
  f_equal. apply IH. intros x Hx. apply Hall. by right.
Qed.

Lemma filter_none (P : ObjId -> Prop) `{forall x, Decision (P x)} (l : list ObjId) :
  (forall x, x ∈ l -> ~ P x) -> filter P l = [].
Proof.
  induction l as [|y l IH]; [done|]. intros Hall.
  rewrite filter_cons_False by (apply Hall; by left).
  apply IH. intros x Hx. apply Hall. by right.
Qed.

Lemma filter_not_in_take (R os : list ObjId) k :
  NoDup (R ++ os) ->
  filter (fun x => x ∉ take k os) (R ++ os) = R ++ drop k os.
Proof.
  intros Hnd. apply NoDup_app in Hnd as (HR & Hdisj & Hos).
  rewrite filter_app. f_equal.
  - apply filter_all. intros x Hx Hx'. apply (Hdisj x Hx).
    eapply elem_of_sublist; [exact Hx'|apply sublist_take].
  - rewrite <- (take_drop k os) in Hos.
    apply NoDup_app in Hos as (_ & Hd & _).
    transitivity (filter (fun x => x ∉ take k os) (take k os ++ drop k os));
      [by rewrite take_drop|]. rewrite filter_app.
    rewrite filter_none by (intros x Hx Hn; done).
    rewrite filter_all; [done|]. intros x Hx Hx'. by apply (Hd x Hx').
Qed.

Section Invariant.

Variable js_compile : string -> Compiled.

Lemma execute_inv code st : Inv st -> Inv (fst (fst (execute js_compile code st))).
Proof.
  intros [Hwf Hb [Hnd Hlt]]. unfold execute.
  destruct (js_compile code) as [msg|fn]; [by constructor|].
  pose proof (run_script_steady (setup fn) (mkClosure false []) st) as H.
  destruct (run_script _ _) as [[[cl st1] evs] r]. destruct H as [Hst _].
  pose proof (steady_updaters _ _ _ _ _ Hst) as Hu.
  pose proof (steady_uid _ _ _ _ _ Hst) as Hn.
  assert (Inv st1) as Hinv1.
  { constructor; [by apply (steady_wf _ _ _ _ _ Hst)|by apply (steady_bound _ _ _ _ _ Hst)|].
    unfold fresh_uids. by rewrite Hu, Hn. }
  destruct r as [[]|e]; [|done].
  destruct (result_update fn) as [upd|]; [|done]. simpl.
  destruct Hinv1 as [Hwf1 Hb1 [Hnd1 Hlt1]].
  constructor; try done. split; simpl.
  - rewrite fmap_app. apply NoDup_app. split_and!; [done| |apply NoDup_singleton].
    intros x Hx Hx'. apply list_elem_of_singleton in Hx'. simpl in Hx'. subst x.
    apply list_elem_of_fmap in Hx as (u & Hux & Hu').
    pose proof (proj1 (Forall_forall _ _) Hlt1 u Hu'). simpl in *. lia.
  - apply Forall_app. split.
    + eapply Forall_impl; [exact Hlt1|]. simpl. intros; lia.
    + constructor; [simpl; lia|constructor].
Qed.

Lemma loop_inv st : Inv st -> Inv (fst (loop st)).
Proof.
  intros [Hwf Hb [Hnd Hlt]]. pose proof (loop_spec st Hwf) as H.
  destruct (loop st) as [st' evs]. destruct H as (Hc & Hu & _). simpl.
  constructor; [by apply (calm_wf _ _ Hc)|by apply (calm_bound _ _ Hc)|].
  split; rewrite Hu.
  - eapply sublist_NoDup; [exact Hnd|].
    apply omap_uids_sublist, next_handle_uid.
  - rewrite (calm_uid _ _ Hc). apply Forall_forall. intros u' Hu'.
    apply list_elem_of_omap in Hu' as (u & Hin & Hnh).
    rewrite (next_handle_uid _ _ _ Hnh).
    by apply (proj1 (Forall_forall _ _) Hlt).
Qed.

Lemma outside_inv st st' : outside st st' -> Inv st -> Inv st'.
Proof.
  intros (He & Hu & Hn & Hh) [Hwf Hb [Hnd Hlt]].
  constructor; unfold wf, fresh_uids; rewrite ?He, ?Hu, ?Hn; try done.
  eapply Forall_impl; [exact Hwf|]. done.
Qed.

Lemma reachable_inv st : reachable_state js_compile st -> Inv st.
Proof.
  induction 1 as [h w objs|st code _ IH|st _ IH|st st' _ IH Ho].
  - constructor; simpl; [constructor|lia|split; constructor].
  - by apply execute_inv.
  - by apply loop_inv.
  - by eapply outside_inv.
Qed.

(** C1: the ring buffer never holds more than [MAX_EPHEMERAL] (200)
    entries, in any state the page can reach and after any call of the
    register capability; a registration during an update that gets as
    far as the buffer (the object has a body whose user data takes the
    tag) and finds it full evicts its oldest entry, whichever closure
    registered it: the entry is taken out of the buffer and out of the
    registry and its body is destroyed. After 250 distinct such objects
    are registered in a row during updates, the last 200 are tracked, in
    the buffer and in the registry, and the bodies of the first 50 were
    destroyed once each, and no other. *)
Theorem ring_buffer_bounded_fifo :
  (forall st, reachable_state js_compile st -> length (ephemeral st) <= MAX_EPHEMERAL) /\
  (forall o cl st,
     length (ephemeral st) <= MAX_EPHEMERAL ->
     length (ephemeral (snd (fst (fst (wrappedRegister o (cl, st)))))) <= MAX_EPHEMERAL) /\
  (forall o cl st ob bd old rest,
     inUpdate cl = true -> wf st ->
     heap st !! o = Some ob -> bodies st !! obj_body ob = Some bd ->
     refusal bd = None ->
     ephemeral st = old :: rest -> length (ephemeral st) = MAX_EPHEMERAL ->
     exists st',
       wrappedRegister o (cl, st) =
         ((cl, st'), [EvDestroyBody (body_at st old)], Ok tt) /\
       ephemeral st' = rest ++ [o] /\
       objects st' = remove_first old (objects st ++ [o])) /\
  (forall os cl st,
     inUpdate cl = true -> wf st -> ephemeral st = [] ->
     Forall (registrable st) os ->
     NoDup (objects st ++ os) -> NoDup (body_at st <$> os) ->
     length os = 250 ->
     exists st' evs,
       run_script (GRegister <$> os) (cl, st) = ((cl, st'), evs, Ok tt) /\
       ephemeral st' = drop 50 os /\ length (ephemeral st') = 200 /\
       objects st' = objects st ++ drop 50 os /\
       destroyed evs = (body_at st <$> take 50 os) /\
       (forall o, o ∈ take 50 os -> occurrences (body_at st o) (destroyed evs) = 1) /\
       (forall o, o ∈ drop 50 os -> occurrences (body_at st o) (destroyed evs) = 0)).
Proof.
  split_and!.
  - intros st Hr. apply reachable_inv in Hr. apply Hr.
  - intros o cl st Hb. pose proof (wrappedRegister_steady o cl st) as H.
    destruct (wrappedRegister o (cl, st)) as [[[cl' st'] evs] r]. simpl.
    destruct H as [Hst _]. by apply (steady_bound _ _ _ _ _ Hst).
  - intros o cl st ob bd old rest Hin Hwf Ho Hb Hrf He Hlen.
    rewrite (wrappedRegister_update cl st o ob bd Hin Ho Hb Hrf Hwf).
    rewrite decide_True by (rewrite length_app; simpl; lia).
    rewrite He. simpl. eexists. split; [reflexivity|].
    rewrite unregister_remove_first.
    match goal with |- context [unregisterObject old ?s] =>
      destruct (unregister_fields old s) as (-> & _) end.
    done.
  - intros os cl st Hin Hwf He Hreg Hnd Hbodies Hlen.
    assert (Hnd_os : NoDup os) by (by apply NoDup_fmap_1 in Hbodies).
    destruct (register_sequence os cl st Hin Hwf) as (st' & Hrun & Heph & Hobj);
      try done.
    { rewrite He. simpl. unfold MAX_EPHEMERAL. lia. }
    { by rewrite He. }
    rewrite He in Hrun, Heph, Hobj. simpl in Hrun, Heph, Hobj.
    rewrite Hlen in Hrun, Heph, Hobj.
    change (250 - MAX_EPHEMERAL) with 50 in *.
    exists st', (EvDestroyBody ∘ body_at st <$> take 50 os).
    rewrite destroyed_of_bodies.
    assert (Hsplit : NoDup ((body_at st <$> take 50 os) ++ (body_at st <$> drop 50 os))).
    { by rewrite <- fmap_app, take_drop. }
    apply NoDup_app in Hsplit as (Hnd_take & Hdisj & _).
    split_and!; try done.
    + rewrite Heph, length_drop. lia.
    + by rewrite Hobj, filter_not_in_take.
    + intros o Ho. apply occurrences_NoDup; [done|]. by apply list_elem_of_fmap_2.
    + intros o Ho. apply occurrences_absent. intros Hc.
      apply (Hdisj _ Hc). by apply list_elem_of_fmap_2.
Qed.

End Invariant.

Lemma registrable_decide st o :
  is_Some (heap st !! o ≫= fun ob => bodies st !! obj_body ob ≫= fun bd =>
           if decide (refusal bd = None) then Some bd else None) ->
  registrable st o.
Proof.
  intros [bd' H]. destruct (heap st !! o) as [ob|] eqn:Ho; [|done].
  simpl in H. destruct (bodies st !! obj_body ob) as [bd|] eqn:Hb; [|done].
  simpl in H. case_decide as Hrf; [|done]. by exists ob, bd.
Qed.

Lemma ring_buffer_bounded_fifo_witness :
  length (ephemeral (fst (loop (executeAll demoCompile ["rain"] (demoState 300)))))
    <= MAX_EPHEMERAL /\
  exists st' evs,
    run_script (GRegister <$> seq 0 250) (mkClosure true [], demoState 250) =
      ((mkClosure true [], st'), evs, Ok tt) /\
    ephemeral st' = drop 50 (seq 0 250) /\
    objects st' = drop 50 (seq 0 250) /\
    destroyed evs = (body_at (demoState 250) <$> take 50 (seq 0 250)).
Proof.
  destruct (ring_buffer_bounded_fifo demoCompile) as (H1 & _ & _ & H4).
  split.
  - apply H1. apply reach_loop.
    apply (reach_execute demoCompile (demoState 300) "rain"). apply reach_create.
  - destruct (H4 (seq 0 250) (mkClosure true []) (demoState 250))
      as (st' & evs & Hrun & He & _ & Ho & Hd & _).
    + reflexivity.
    + constructor.
    + reflexivity.
    + eapply Forall_impl; [|intros o; apply registrable_decide].
      refine (@bool_decide_unpack _ (Forall_dec _ _) _). vm_compute. exact I.
    + apply NoDup_seq.
    + refine (@bool_decide_unpack _ (NoDup_dec _) _). vm_compute. exact I.
    + apply length_seq.
    + exists st', evs. split; [exact Hrun|]. split; [exact He|].
      split; [exact Ho|exact Hd].
Defined.

(** ** The JSON text of a string reads back as the string *)

Lemma unescape_escapeChar c rest :
  unescape (String.append (escapeChar c) rest) = String c <$> unescape rest.
Proof.
  destruct c as [[] [] [] [] [] [] [] []]; reflexivity.
Qed.

Lemma append_assoc (a b c : string) :
  String.append (String.append a b) c = String.append a (String.append b c).
Proof.
  induction a as [|x a IH]; [done|].
  change (String x (String.append (String.append a b) c) =
          String x (String.append a (String.append b c))).
  by rewrite IH.
Qed.

Lemma unescape_escape s :
  unescape (String.append (escape s) (String quote EmptyString)) = Some s.
Proof.
  induction s as [|c s IH]; [done|].
  change (escape (String c s)) with (String.append (escapeChar c) (escape s)).
  rewrite append_assoc, unescape_escapeChar, IH. done.
Qed.

Lemma JSON_parse_stringify s : JSON_parse (JSON_stringify s) = Some s.
Proof.
  unfold JSON_parse, JSON_stringify. rewrite decide_True by done.
  apply unescape_escape.
Qed.

Lemma JSON_stringify_truthy s : truthy (JSON_stringify s) = true.
Proof. done. Qed.

(** ** C3 and C7: the two tiers *)

Lemma getLocal_setLocal key code c :
  local_write_succeeds key code c ->
  getLocal key (setLocal key code c) = Some code.
Proof.
  intros [l Hl]. unfold getLocal, setLocal. rewrite Hl. simpl.
  unfold setItem in Hl. case_decide; [|done]. injection Hl as <-. simpl.
  rewrite lookup_insert_eq, JSON_stringify_truthy. apply JSON_parse_stringify.
Qed.

Lemma getLocal_same_local key c c' :
  same_local c c' -> getLocal key c' = getLocal key c.
Proof. unfold same_local, getLocal. by intros ->. Qed.

Lemma cache_get_local_hit key code c :
  getLocal key c = Some code -> truthy code = true ->
  cache_get key c = (c, [EvLog "[Cache hit] localStorage:" key], Ok (Some code)).
Proof. intros Hl Ht. unfold cache_get. rewrite Hl. simpl. by rewrite Ht. Qed.




(** C7, as stated, fails in two ways: an empty artifact in the remote
    store is not returned by [get], and an artifact for which the local
    store has no room is returned but not promoted, so that the next [get]
    with the remote store out of reach returns nothing. *)
Lemma remote_hit_promoted_counterexample :
  snd (cache_get "rain" (demoRemoteCache 5000 "rain" EmptyString)) = Ok None /\
  (let c := demoRemoteCache 10 "rain" "code" in
   items (localTier c) !! String.append LS_PREFIX "rain" = None /\
   snd (cache_get "rain" c) = Ok (Some "code") /\
   snd (cache_get "rain" (disconnect (fst (fst (cache_get "rain" c))))) = Ok None) /\
  @Ok JsError (option string) None <> Ok (Some EmptyString) /\
  @Ok JsError (option string) None <> Ok (Some "code").
Proof. vm_compute. split_and!; done. Qed.

(** C7 (amended): if the local tier has no entry for the key, the remote
    store is configured, reachable and holds a non-empty artifact for the
    key, and the local write finds room, then [get] returns the artifact
    after writing it into the local tier, and any later [get] returns it
    from there, whatever has become of the remote store. *)
Theorem remote_hit_promoted key code c :
  items (localTier c) !! String.append LS_PREFIX key = None ->
  truthy (firebaseUrl (remoteTier c)) = true ->
  reachable (remoteTier c) = true ->
  db (remoteTier c) !! encodeFirebaseKey key = Some code ->
  truthy code = true -> local_write_succeeds key code c ->
  cache_get key c =
    (setLocal key code c, [EvLog "[Cache hit] Firebase:" key], Ok (Some code)) /\
  getLocal key (setLocal key code c) = Some code /\
  forall c', same_local (setLocal key code c) c' ->
    cache_get key c' = (c', [EvLog "[Cache hit] localStorage:" key], Ok (Some code)).
Proof.
  intros Hnone Hurl Hreach Hdb Ht Hw.
  pose proof (getLocal_setLocal key code c Hw) as Hl.
  split_and!; [|done|].
  - unfold cache_get, getLocal, getFirebase. rewrite Hnone, Hurl, Hreach, Hdb.
    simpl. by rewrite Ht.
  - intros c' Hsame. apply cache_get_local_hit; [|done].
    by rewrite (getLocal_same_local key _ c' Hsame).
Qed.

Lemma remote_hit_promoted_witness :
  let c := demoRemoteCache 5000 "rain" "code" in
  snd (cache_get "rain" c) = Ok (Some "code") /\
  snd (cache_get "rain" (disconnect (fst (fst (cache_get "rain" c)))))
    = Ok (Some "code").
Proof.
  intros c.
  destruct (remote_hit_promoted "rain" "code" c) as (Hg & _ & Hlater);
    [reflexivity|reflexivity|reflexivity|reflexivity|reflexivity|vm_compute; eauto|].
  rewrite Hg. simpl. split; [done|].
  rewrite (Hlater (disconnect (setLocal "rain" "code" c))); done.
Defined.

Ltac find_event :=
  repeat first [ solve [constructor 1] | constructor 2 | (apply elem_of_app; right) ].

Section OrchestratorFacts.

Variable js_compile : string -> Compiled.

(** ** C6: one submission at a time *)

(** A resumed activation either finishes, releasing the flag, or moves on
    to its next [await]. *)
Lemma resume_cases i r app p :
  inflight app !! i = Some p ->
  let app' := fst (resume js_compile i r app) in
  (isGenerating app' = false /\ inflight app' = delete i (inflight app)) \/
  (isGenerating app' = isGenerating app /\
   exists p', inflight app' = <[i := p']> (inflight app)).
Proof.
  intros Hp. unfold resume. rewrite Hp.
  destruct p as [text|text key|text key].
  - destruct r as [key|e]; simpl; eauto.
  - destruct (cache_get key (cache app)) as [[c evs] [[code|]|e]]; simpl; eauto.
    destruct (truthy code); simpl; eauto.
    destruct (execute js_compile code (executor app)) as [[st evs'] [[]|e]]; simpl; eauto.
  - destruct r as [code|e]; simpl; eauto.
    destruct (execute js_compile code (executor app)) as [[st evs'] [[]|e]]; simpl; eauto.
Qed.

Lemma single_flight_one app i p :
  single_flight app -> inflight app !! i = Some p -> i = 0 /\ inflight app = [p].
Proof.
  intros [Hlen _] Hp. destruct (inflight app) as [|q [|q' l]]; simpl in *; try lia.
  - done.
  - destruct i; simpl in Hp; [by injection Hp as ->|done].
Qed.

Lemma step_single_flight inp app :
  single_flight app -> single_flight (fst (step js_compile inp app)).
Proof.
  intros Hsf. destruct inp as [text|i r]; simpl.
  - unfold handleSearch. destruct (isGenerating app) eqn:Hg; [done|].
    destruct Hsf as [_ Hiff]. simpl.
    destruct (inflight app) as [|p l].
    + split; simpl; [lia|]. split; done.
    + exfalso. assert (isGenerating app = true) by (by apply Hiff). congruence.
  - destruct (inflight app !! i) as [p|] eqn:Hp.
    + destruct (single_flight_one app i p Hsf Hp) as [-> Hone].
      pose proof (resume_cases 0 r app p Hp) as Hc. simpl in Hc.
      destruct Hsf as [_ Hiff].
      destruct Hc as [[Hg Hi]|[Hg (p' & Hi)]]; rewrite Hone in Hi; simpl in Hi.
      * unfold single_flight. rewrite Hi, Hg. simpl. split; [lia|]. split; done.
      * unfold single_flight. rewrite Hi, Hg. simpl. split; [lia|].
        rewrite Hiff, Hone. done.
    + unfold resume. by rewrite Hp.
Qed.

Lemma run_single_flight inps : forall app,
  single_flight app -> single_flight (fst (run js_compile inps app)).
Proof.
  induction inps as [|inp inps IH]; intros app Hsf; [done|]. simpl.
  pose proof (step_single_flight inp app Hsf) as H1.
  destruct (step js_compile inp app) as [app1 evs1]. simpl in H1.
  specialize (IH app1 H1). destruct (run js_compile inps app1) as [app2 evs2].
  done.
Qed.

(** C6: whatever the user submits and however the awaited promises
    settle, at most one submission is in flight, and the flag
    [isGenerating] is set exactly while one is; a submission made while
    the flag is set changes nothing and shows nothing; when the activation
    in flight ends, by success or by any failure, the flag is cleared and
    the next submission is taken up; a rejected promise always ends the
    activation. An activation ends, with the flag cleared and the loading
    indicators switched off, exactly where [handleSearch] leaves its
    [try]: after [execute] on a cached or a generated artifact, whether
    [execute] returned (a success notice is shown) or threw (its message
    is shown), and after a rejection; a normalized prompt and a cache
    miss take it to its next [await] with the flag as it is. *)
Theorem single_flight_submissions :
  (forall st c inps, single_flight (fst (run js_compile inps (initialApp st c)))) /\
  (forall app text, isGenerating app = true -> handleSearch text app = (app, [])) /\
  (forall app i r,
     single_flight app ->
     let app' := fst (resume js_compile i r app) in
     length (inflight app') < length (inflight app) ->
     isGenerating app' = false /\ inflight app' = [] /\
     forall text,
       isGenerating (fst (handleSearch text app')) = true /\
       inflight (fst (handleSearch text app')) = [AwaitNormalize text]) /\
  (forall app i e p,
     single_flight app -> inflight app !! i = Some p ->
     (forall text key, p <> AwaitCacheGet text key) ->
     let '(app', evs) := resume js_compile i (Throw e) app in
     isGenerating app' = false /\ inflight app' = [] /\
     EvShowError (message e) ∈ evs) /\
  (forall app i r text key,
     inflight app !! i = Some (AwaitGenerate text key) ->
     let '(app', evs) := resume js_compile i r app in
     isGenerating app' = false /\ inflight app' = delete i (inflight app) /\
     EvSetLoading false ∈ evs /\
     match r with
     | Ok code =>
         match snd (execute js_compile code (executor app)) with
         | Ok _ => EvShowSuccess (createdMessage text) ∈ evs
         | Throw e => EvShowError (message e) ∈ evs
         end
     | Throw e => EvShowError (message e) ∈ evs
     end) /\
  (forall app i r text key,
     inflight app !! i = Some (AwaitCacheGet text key) ->
     let '(app', evs) := resume js_compile i r app in
     match snd (cache_get key (cache app)) with
     | Ok (Some code) =>
         if truthy code then
           isGenerating app' = false /\ inflight app' = delete i (inflight app) /\
           EvSetLoading false ∈ evs /\
           match snd (execute js_compile code (executor app)) with
           | Ok _ => EvShowSuccess (createdCachedMessage text) ∈ evs
           | Throw e => EvShowError (message e) ∈ evs
           end
         else
           isGenerating app' = isGenerating app /\
           inflight app' = <[i := AwaitGenerate text key]> (inflight app)
     | _ =>
         isGenerating app' = isGenerating app /\
         inflight app' = <[i := AwaitGenerate text key]> (inflight app)
     end) /\
  (forall app i r text,
     inflight app !! i = Some (AwaitNormalize text) ->
     let '(app', evs) := resume js_compile i r app in
     match r with
     | Ok key =>
         isGenerating app' = isGenerating app /\
         inflight app' = <[i := AwaitCacheGet text key]> (inflight app)
     | Throw e =>
         isGenerating app' = false /\ inflight app' = delete i (inflight app) /\
         EvSetLoading false ∈ evs /\ EvShowError (message e) ∈ evs
     end).
Proof.
  split_and!.
  - intros st c inps. apply run_single_flight. split; simpl; [lia|]. split; done.
  - intros app text Hg. unfold handleSearch. by rewrite Hg.
  - intros app i r Hsf app' Hlt.
    destruct (inflight app !! i) as [p|] eqn:Hp.
    + destruct (single_flight_one app i p Hsf Hp) as [-> Hone].
      pose proof (resume_cases 0 r app p Hp) as Hc. fold app' in Hc.
      destruct Hc as [[Hg Hi]|[Hg (p' & Hi)]]; rewrite Hone in Hi; simpl in Hi.
      * split_and!; [done|done|]. intros text. unfold handleSearch.
        rewrite Hg. simpl. by rewrite Hi.
      * rewrite Hi, Hone in Hlt. simpl in Hlt. lia.
    + unfold app', resume in Hlt. rewrite Hp in Hlt. simpl in Hlt. lia.
  - intros app i e p Hsf Hp Hne.
    destruct (single_flight_one app i p Hsf Hp) as [-> Hone].
    unfold resume. rewrite Hp.
    destruct p as [text|text key|text key]; [|by destruct (Hne text key)|];
      simpl; rewrite Hone; simpl; (split_and!; [done|done|]);
      apply elem_of_cons; right; apply elem_of_cons; by left.
  - intros app i r text key Hp. unfold resume. rewrite Hp.
    destruct r as [code|e].
    + destruct (execute js_compile code (executor app)) as [[st evs] [[]|e]]; simpl.
      * destruct (cache_set key code (cache app)) as [[c evs'] r'].
        split_and!; [done|done| |]; unfold finallyEvents; find_event.
      * split_and!; [done|done| |]; unfold finallyEvents, catchEvents; find_event.
    + simpl. split_and!; [done|done| |]; unfold finallyEvents, catchEvents; find_event.
  - intros app i r text key Hp. unfold resume. rewrite Hp.
    destruct (cache_get key (cache app)) as [[c evs] [[code|]|e]]; simpl; [|done|done].
    destruct (truthy code); [|done].
    destruct (execute js_compile code (executor app)) as [[st evs'] [[]|e]]; simpl.
    + split_and!; [done|done| |]; unfold finallyEvents; find_event.
    + split_and!; [done|done| |]; unfold finallyEvents, catchEvents; find_event.
  - intros app i r text Hp. unfold resume. rewrite Hp.
    destruct r as [key|e]; simpl; [done|].
    split_and!; [done|done| |]; unfold finallyEvents, catchEvents; find_event.
Qed.

End OrchestratorFacts.

Lemma single_flight_submissions_witness :
  let app := fst (run demoCompile
                    [Submit "a ball"; Submit "rain"; Settle 0 (Throw (mkError "offline"))]
                    (initialApp (demoState 200) (demoCache 5000))) in
  let waiting := fst (run demoCompile
                    [Submit "a ball"; Settle 0 (Ok "ball"); Settle 0 (Ok "ball")]
                    (initialApp (demoState 0) (demoCache 5000))) in
  isGenerating app = false /\ inflight app = [] /\
  inflight (fst (handleSearch "rain" app)) = [AwaitNormalize "rain"] /\
  inflight waiting = [AwaitGenerate "a ball" "ball"] /\
  isGenerating (fst (resume demoCompile 0 (Ok "rock") waiting)) = false /\
  isGenerating (fst (resume demoCompile 0 (Ok "gibberish") waiting)) = false.
Proof.
  intros app waiting.
  destruct (single_flight_submissions demoCompile) as (H1 & H2 & H3 & H4 & H5 & _).
  pose (app1 := fst (run demoCompile [Submit "a ball"; Submit "rain"]
                       (initialApp (demoState 200) (demoCache 5000)))).
  assert (Hsf : single_flight app1) by apply H1.
  assert (Happ : app = fst (resume demoCompile 0 (Throw (mkError "offline")) app1))
    by reflexivity.
  assert (Hw : inflight waiting !! 0 = Some (AwaitGenerate "a ball" "ball"))
    by (vm_compute; reflexivity).
  pose proof (H5 waiting 0 (Ok "rock") "a ball" "ball" Hw) as Hrock.
  pose proof (H5 waiting 0 (Ok "gibberish") "a ball" "ball" Hw) as Hgib.
  destruct (resume demoCompile 0 (Ok "rock") waiting) as [a1 e1].
  destruct (resume demoCompile 0 (Ok "gibberish") waiting) as [a2 e2].
  destruct (H3 app1 0 (Throw (mkError "offline")) Hsf) as (Hg & Hi & Hnext).
  - simpl. lia.
  - rewrite Happ. split; [exact Hg|]. split; [exact Hi|]. split; [apply Hnext|].
    split; [vm_compute; reflexivity|]. split; [apply Hrock|apply Hgib].
Defined.

(** ** C9: an artifact that does not compile *)


Lemma error_kinds_distinct m m' : syntaxErrorMessage m <> runtimeErrorMessage m'.
Proof. discriminate. Qed.

Lemma cache_get_miss key c :
  snd (cache_get key c) = Ok None -> fst (fst (cache_get key c)) = c.
Proof.
  unfold cache_get. destruct (truthyValue (getLocal key c)) eqn:Hl; simpl; [done|].
  destruct (getFirebase key c) as [remote|]; simpl; [|done].
  destruct (truthy remote); simpl; done.
Qed.

Lemma cache_get_remote_untouched key c :
  remoteTier (fst (fst (cache_get key c))) = remoteTier c.
Proof.
  unfold cache_get. destruct (truthyValue (getLocal key c)); simpl; [done|].
  destruct (truthyValue (getFirebase key c)); simpl; [|done].
  unfold setLocal. by destruct (setItem _ _ _).
Qed.

Lemma cache_get_ok key c : exists v, snd (cache_get key c) = Ok v.
Proof.
  unfold cache_get. destruct (truthyValue (getLocal key c)); simpl; eauto.
  destruct (truthyValue (getFirebase key c)); simpl; eauto.
Qed.

(** C9, as stated, fails: when the artifact that does not compile is
    served by the remote store, the lookup has promoted it into the local
    tier before [execute] rejects it, so the submission did write to a
    cache tier. *)
Lemma compile_failure_counterexample :
  let c := demoRemoteCache 5000 "rain" "oops(" in
  let '(app, evs) :=
    run demoCompile [Submit "make it rain"; Settle 0 (Ok "rain"); Settle 0 (Ok "rain")]
      (initialApp (demoState 0) c) in
  demoCompile "oops(" = SyntaxError "Unexpected token" /\
  EvShowError (syntaxErrorMessage "Unexpected token") ∈ evs /\
  isGenerating app = false /\
  items (localTier c) = ∅ /\
  items (localTier (cache app)) !! String.append LS_PREFIX "rain"
    = Some (JSON_stringify "oops(") /\
  cache app <> c.
Proof.
  intros c.
  destruct (run demoCompile _ _) as [app evs] eqn:Hrun.
  vm_compute in Hrun. injection Hrun as <- <-.
  split_and!; try (vm_compute; reflexivity).
  - find_event.
  - intros Heq.
    apply (f_equal (fun x => items (localTier x) !! String.append LS_PREFIX "rain")) in Heq.
    vm_compute in Heq. discriminate.
Qed.

Section CompileFailure.

Variable js_compile : string -> Compiled.

(** C9 (amended): an artifact that does not compile makes [execute] throw
    the syntax error, whose message never equals that of a runtime error,
    without running anything; the submission fails with that message shown
    and its lock released, and [cache.set] is not reached. On the
    generation path nothing is written to either tier during the whole
    submission. On the cache-hit path the remote tier is not written, and
    the local tier only by the promotion that the lookup itself performs
    when the artifact comes from the remote store. *)
Theorem compile_failure_not_cached code msg :
  js_compile code = SyntaxError msg ->
  (forall st,
     execute js_compile code st = (st, [], Throw (mkError (syntaxErrorMessage msg)))) /\
  (forall m, syntaxErrorMessage msg <> runtimeErrorMessage m) /\
  (forall app i text key,
     inflight app !! i = Some (AwaitGenerate text key) ->
     resume js_compile i (Ok code) app =
       (mkApp (executor app) (cache app) false (delete i (inflight app)),
        catchEvents (mkError (syntaxErrorMessage msg)) ++ finallyEvents)) /\
  (forall st c text key r,
     snd (cache_get key c) = Ok None ->
     let '(app, evs) :=
       run js_compile [Submit text; Settle 0 (Ok key); Settle 0 r; Settle 0 (Ok code)]
         (initialApp st c) in
     app = initialApp st c /\ EvShowError (syntaxErrorMessage msg) ∈ evs) /\
  (forall app i text key r,
     inflight app !! i = Some (AwaitCacheGet text key) ->
     snd (cache_get key (cache app)) = Ok (Some code) -> truthy code = true ->
     let '(app', evs) := resume js_compile i r app in
     cache app' = fst (fst (cache_get key (cache app))) /\
     remoteTier (cache app') = remoteTier (cache app) /\
     (truthyValue (getLocal key (cache app)) = true -> cache app' = cache app) /\
     executor app' = executor app /\ isGenerating app' = false /\
     EvShowError (syntaxErrorMessage msg) ∈ evs).
Proof.
  intros Hc.
  assert (Hex : forall st,
    execute js_compile code st = (st, [], Throw (mkError (syntaxErrorMessage msg)))).
  { intros st. unfold execute. by rewrite Hc. }
  split_and!.
  - exact Hex.
  - intros m. apply error_kinds_distinct.
  - intros app i text key Hp. unfold resume. rewrite Hp, Hex. done.
  - intros st c text key r Hmiss. simpl. unfold handleSearch, resume. simpl.
    pose proof (cache_get_miss key c Hmiss) as Hsame.
    destruct (cache_get key c) as [[c' evs] v]. simpl in Hmiss, Hsame. subst c' v.
    simpl. rewrite Hex. simpl. split; [done|].
    find_event.
  - intros app i text key r Hp Hhit Ht. unfold resume. rewrite Hp.
    pose proof (cache_get_remote_untouched key (cache app)) as Hrem.
    assert (Hloc : truthyValue (getLocal key (cache app)) = true ->
                   fst (fst (cache_get key (cache app))) = cache app).
    { intros Hl. unfold cache_get. by rewrite Hl. }
    destruct (cache_get key (cache app)) as [[c' evs] v]. simpl in *. subst v.
    rewrite Ht, Hex. simpl. split_and!; try done.
    find_event.
Qed.

End CompileFailure.

Lemma compile_failure_not_cached_witness :
  let c := demoCache 5000 in
  let '(app, evs) :=
    run demoCompile
      [Submit "a rocket"; Settle 0 (Ok "rocket"); Settle 0 (Ok "rocket");
       Settle 0 (Ok "oops(")]
      (initialApp (demoState 200) c) in
  app = initialApp (demoState 200) c /\
  EvShowError (syntaxErrorMessage "Unexpected token") ∈ evs.
Proof.
  intros c.
  destruct (compile_failure_not_cached demoCompile "oops(" "Unexpected token" eq_refl)
    as (_ & _ & _ & H & _).
  apply (H (demoState 200) c "a rocket" "rocket" (Ok "rocket")).
  reflexivity.
Defined.

(** * Further properties of the code *)

(** * Further properties of the code *)

(** ** cache.js *)

Lemma encodeChar_clean c : ~ firebaseForbidden (encodeChar c).
Proof.
  unfold encodeChar, firebaseForbidden. case_decide as H; [|exact H].
  intros [H'|[H'|[H'|[H'|[H'|H']]]]]; discriminate.
Qed.

Lemma encodeChar_id c : ~ firebaseForbidden c -> encodeChar c = c.
Proof. intros H. unfold encodeChar. by rewrite decide_False. Qed.

(** X1: [encodeFirebaseKey] yields a key without any of the characters
    [. $ # [ ] /], as long as the key it was given; it leaves a key
    without such characters as it is, so encoding twice is encoding
    once. *)
Theorem encodeFirebaseKey_clean key :
  allChars (fun c => ~ firebaseForbidden c) (encodeFirebaseKey key) /\
  String.length (encodeFirebaseKey key) = String.length key /\
  (allChars (fun c => ~ firebaseForbidden c) key -> encodeFirebaseKey key = key) /\
  encodeFirebaseKey (encodeFirebaseKey key) = encodeFirebaseKey key.
Proof.
  assert (Hclean : forall k, allChars (fun c => ~ firebaseForbidden c) (encodeFirebaseKey k)).
  { induction k as [|c k IH]; simpl; [done|]. split; [apply encodeChar_clean|done]. }
  assert (Hid : forall k, allChars (fun c => ~ firebaseForbidden c) k ->
                          encodeFirebaseKey k = k).
  { induction k as [|c k IH]; simpl; [done|]. intros [Hc Hk].
    by rewrite encodeChar_id, IH. }
  split_and!; auto.
  induction key as [|c k IH]; simpl; [done|]. by rewrite IH.
Qed.

(** X2: a lookup that finds nothing readable in the local tier (no entry,
    an empty value, or a value whose first character cannot begin a JSON
    text) and nothing in the remote tier (none configured, out of reach,
    or no entry) returns [null], logs the miss and leaves the cache as it
    was. *)
Theorem cache_get_miss_semantics key c :
  (items (localTier c) !! String.append LS_PREFIX key = None \/
   exists val, items (localTier c) !! String.append LS_PREFIX key = Some val /\
               unreadable val) ->
  (truthy (firebaseUrl (remoteTier c)) = false \/
   reachable (remoteTier c) = false \/
   db (remoteTier c) !! encodeFirebaseKey key = None) ->
  cache_get key c = (c, [EvLog "[Cache miss]" key], Ok None).
Proof.
  intros Hlocal Hremote.
  assert (Hl : getLocal key c = None).
  { unfold getLocal. destruct Hlocal as [->|(val & -> & Hv)]; [done|].
    destruct val as [|ch rest]; [done|]. simpl in *.
    rewrite decide_False; [done|]. intros ->. discriminate. }
  assert (Hr : getFirebase key c = None).
  { unfold getFirebase. destruct Hremote as [H|[H|H]]; rewrite H; try done.
    - by destruct (truthy (firebaseUrl (remoteTier c))).
    - by destruct (truthy (firebaseUrl (remoteTier c))), (reachable (remoteTier c)). }
  unfold cache_get. by rewrite Hl, Hr.
Qed.

Lemma cache_get_miss_semantics_witness :
  let c := mkCache (mkLocalStorage {[String.append LS_PREFIX "rain" := "<html>"]} 100)
                   (mkRemote "https://db.example" false {["rain" := "code"]} []) in
  cache_get "rain" c = (c, [EvLog "[Cache miss]" "rain"], Ok None).
Proof.
  intros c. apply cache_get_miss_semantics.
  - right. exists "<html>". split; reflexivity.
  - right. left. reflexivity.
Defined.

(** X3: what [get] does to the cache: it returns [null] or a non-empty
    artifact, never writes to the remote tier, never changes an entry of
    the local tier other than the one of its key, and changes nothing at
    all when the local tier has the artifact. *)
Theorem cache_get_effects key c :
  let '(c', evs, r) := cache_get key c in
  (exists v, r = Ok v /\ forall code, v = Some code -> truthy code = true) /\
  remoteTier c' = remoteTier c /\
  quota (localTier c') = quota (localTier c) /\
  (forall k, k <> String.append LS_PREFIX key ->
     items (localTier c') !! k = items (localTier c) !! k) /\
  (truthyValue (getLocal key c) = true -> c' = c).
Proof.
  unfold cache_get.
  destruct (getLocal key c) as [local|] eqn:Hl; simpl.
  - destruct (truthy local) eqn:Ht.
    + split_and!; try done. exists (Some local). split; [done|]. by intros ? [= <-].
    + destruct (getFirebase key c) as [remote|] eqn:Hr; simpl.
      * destruct (truthy remote) eqn:Ht'.
        -- unfold setLocal, setItem. case_decide; simpl.
           ++ split_and!; try done.
              ** exists (Some remote). split; [done|]. by intros ? [= <-].
              ** intros k Hk. by rewrite lookup_insert_ne.
           ++ split_and!; try done.
              exists (Some remote). split; [done|]. by intros ? [= <-].
        -- split_and!; try done. exists None. done.
      * split_and!; try done. exists None. done.
  - destruct (getFirebase key c) as [remote|] eqn:Hr; simpl.
    + destruct (truthy remote) eqn:Ht'.
      * unfold setLocal, setItem. case_decide; simpl.
        -- split_and!; try done.
           ++ exists (Some remote). split; [done|]. by intros ? [= <-].
           ++ intros k Hk. by rewrite lookup_insert_ne.
        -- split_and!; try done.
           exists (Some remote). split; [done|]. by intros ? [= <-].
      * split_and!; try done. exists None. done.
    + split_and!; try done. exists None. done.
Qed.

Lemma append_inj_l (p a b : string) :
  String.append p a = String.append p b -> a = b.
Proof.
  induction p as [|x p IH]; [done|].
  change (String x (String.append p a) = String x (String.append p b) -> a = b).
  intros [= H]. by apply IH.
Qed.

(** X4: caching an artifact under one key does not disturb another key:
    an artifact the local tier holds for [key] is still what [get]
    returns after [set] on a different key, whether or not that write
    found room. *)
Theorem cache_set_other_key key key' code code' c :
  key <> key' -> getLocal key c = Some code -> truthy code = true ->
  snd (cache_get key (fst (fst (cache_set key' code' c)))) = Ok (Some code).
Proof.
  intros Hne Hl Ht.
  assert (Hl' : getLocal key (fst (fst (cache_set key' code' c))) = Some code).
  { simpl. rewrite (getLocal_same_local key (setLocal key' code' c)).
    - unfold getLocal, setLocal, setItem in *. case_decide; simpl; [|done].
      rewrite lookup_insert_ne; [done|].
      intros Heq. apply append_inj_l in Heq. congruence.
    - unfold same_local, setFirebase. by case_match. }
  by rewrite (cache_get_local_hit key code _ Hl' Ht).
Qed.

Lemma cache_set_other_key_witness :
  let c := fst (fst (cache_set "rain" "code" (demoCache 5000))) in
  snd (cache_get "rain" (fst (fst (cache_set "snow" "other" c)))) = Ok (Some "code").
Proof.
  intros c. apply cache_set_other_key; [discriminate|reflexivity|reflexivity].
Defined.

(** X5: keys that differ only in characters the remote store forbids
    share one remote entry: once the [PUT] of [set(key1, code)] has
    settled in a reachable store, a client whose local tier has nothing
    for [key2] gets [code] from [get(key2)]. *)
Theorem encoded_keys_collide key1 key2 code c c' :
  encodeFirebaseKey key1 = encodeFirebaseKey key2 ->
  truthy (firebaseUrl (remoteTier c)) = true ->
  reachable (remoteTier c) = true -> pending (remoteTier c) = [] ->
  truthy code = true ->
  same_remote (settlePut (fst (fst (cache_set key1 code c)))) c' ->
  items (localTier c') !! String.append LS_PREFIX key2 = None ->
  snd (cache_get key2 c') = Ok (Some code).
Proof.
  intros Henc Hurl Hreach Hpend Ht Hsame Hnone.
  assert (Hr : getFirebase key2 c' = Some code).
  { unfold getFirebase. rewrite Hsame. unfold cache_set, setFirebase, settlePut. simpl.
    assert (remoteTier (setLocal key1 code c) = remoteTier c) as Hrt
      by (unfold setLocal; by destruct (setItem _ _ _)).
    rewrite Hrt, Hurl. simpl. rewrite Hpend. simpl. rewrite Hurl, Hreach.
    rewrite <- Henc. apply lookup_insert_eq. }
  unfold cache_get, getLocal. rewrite Hnone, Hr. simpl. by rewrite Ht.
Qed.

Lemma encoded_keys_collide_witness :
  let c := mkCache (mkLocalStorage ∅ 5000) (mkRemote "https://db.example" true ∅ []) in
  snd (cache_get "v2/0"
         (mkCache (mkLocalStorage ∅ 5000)
            (remoteTier (settlePut (fst (fst (cache_set "v2.0" "code" c)))))))
    = Ok (Some "code").
Proof.
  intros c.
  apply (encoded_keys_collide "v2.0" "v2/0" "code" c); reflexivity.
Defined.

(** ** objects.js *)

Lemma indexOf_absent (l : list ObjId) o : o ∉ l -> indexOf l o = None.
Proof.
  induction l as [|x l IH]; [done|]. intros Hn.
  apply not_elem_of_cons in Hn as [Hne Hn]. simpl.
  rewrite decide_False by done. by rewrite IH.
Qed.

Lemma indexOf_first (l1 l2 : list ObjId) o :
  o ∉ l1 -> indexOf (l1 ++ o :: l2) o = Some (length l1).
Proof.
  induction l1 as [|x l1 IH]; simpl.
  - intros _. by rewrite decide_True.
  - intros Hn. apply not_elem_of_cons in Hn as [Hne Hn].
    rewrite decide_False by done. by rewrite IH.
Qed.

Lemma unregister_first o st l1 l2 :
  objects st = l1 ++ o :: l2 -> o ∉ l1 ->
  unregisterObject o st = set_objects (fun _ => l1 ++ l2) st.
Proof.
  intros Hl Hn. unfold unregisterObject, set_objects.
  rewrite Hl, indexOf_first by done. f_equal.
  rewrite delete_take_drop, take_app_length.
  by rewrite (cons_middle o l1 l2), app_assoc, drop_app_length'
    by (rewrite length_app; simpl; lia).
Qed.

(** X6: [unregisterObject] leaves the registry alone when the object is
    not in it, and otherwise removes its first occurrence and nothing
    else: the entries before and after keep their order, and a second
    registration of the same object survives. *)
Theorem unregisterObject_first_occurrence o st :
  (o ∉ objects st -> unregisterObject o st = st) /\
  (forall l1 l2, objects st = l1 ++ o :: l2 -> o ∉ l1 ->
     unregisterObject o st = set_objects (fun _ => l1 ++ l2) st).
Proof.
  split.
  - intros Hn. unfold unregisterObject. by rewrite indexOf_absent.
  - intros l1 l2 Hl Hn. by apply unregister_first.
Qed.

Lemma unregisterObject_first_occurrence_witness :
  objects (unregisterObject 7 (createExecutor ∅ ∅ [3; 7; 5; 7])) = [3; 5; 7] /\
  unregisterObject 9 (createExecutor ∅ ∅ [3; 7; 5; 7]) = createExecutor ∅ ∅ [3; 7; 5; 7].
Proof.
  destruct (unregisterObject_first_occurrence 7 (createExecutor ∅ ∅ [3; 7; 5; 7]))
    as [_ H].
  destruct (unregisterObject_first_occurrence 9 (createExecutor ∅ ∅ [3; 7; 5; 7]))
    as [H' _].
  split.
  - rewrite (H [3] [5; 7]); [reflexivity|reflexivity|].
    intros Hc. apply list_elem_of_singleton in Hc. discriminate.
  - apply H'. intros Hc. repeat (apply elem_of_cons in Hc as [Hc|Hc]; [discriminate|]).
    by apply elem_of_nil in Hc.
Defined.

(** X7: registering an object that is not yet in the registry and
    unregistering it again restores the state. *)
Theorem register_unregister_round_trip o st :
  o ∉ objects st -> unregisterObject o (registerObject o st) = st.
Proof.
  intros Hn.
  rewrite (unregister_first o (registerObject o st) (objects st) []); [|done|done].
  destruct st. unfold set_objects, registerObject. simpl. by rewrite app_nil_r.
Qed.

Lemma register_unregister_round_trip_witness :
  unregisterObject 4 (registerObject 4 (demoState 3)) = demoState 3.
Proof.
  apply register_unregister_round_trip. intros Hc. by apply elem_of_nil in Hc.
Defined.

Lemma registry_wf_delete j st :
  registry_wf st -> registry_wf (set_objects (fun l => delete j l) st).
Proof.
  unfold registry_wf. simpl. apply Forall_delete.
Qed.

Lemma registry_entry st j :
  registry_wf st -> j < length (objects st) ->
  exists o ob, objects st !! j = Some o /\ heap st !! o = Some ob.
Proof.
  intros Hwf Hj. destruct (lookup_lt_is_Some_2 _ _ Hj) as [o Ho].
  destruct (proj1 (Forall_forall _ _) Hwf o) as [ob Hob].
  - apply list_elem_of_lookup. eauto.
  - eauto.
Qed.

Lemma sweep_lists (P : ObjId -> Prop) `{forall x, Decision (P x)} (l : list ObjId) j o :
  l !! j = Some o ->
  (P o -> filter P (take (S j) l) ++ drop (S j) l = filter P (take j l) ++ drop j l) /\
  (~ P o ->
     filter P (take (S j) l) ++ drop (S j) l =
     filter P (take j (delete j l)) ++ drop j (delete j l)).
Proof.
  intros Hj. pose proof (lookup_lt_Some _ _ _ Hj) as Hlt.
  rewrite (take_S_r _ _ _ Hj), filter_app, (drop_S _ _ _ Hj).
  rewrite delete_take_drop.
  rewrite take_app_length' by (rewrite length_take; lia).
  rewrite drop_app_length' by (rewrite length_take; lia).
  split; intros HP.
  - rewrite (filter_cons_True P o []) by done. by rewrite <- app_assoc.
  - rewrite (filter_cons_False P o []) by done. by rewrite app_nil_r.
Qed.

Lemma clearSpawned_from_spec i : forall st,
  registry_wf st -> i <= length (objects st) ->
  clearSpawned_from i st =
    (set_objects
       (fun l => filter (fun o => spawnedAt st o = false) (take i l) ++ drop i l) st,
     EvDestroyBody ∘ body_at st <$>
       rev (filter (fun o => spawnedAt st o = true) (take i (objects st))),
     Ok tt).
Proof.
  induction i as [|j IH]; intros st Hwf Hi.
  - simpl. by destruct st.
  - destruct (registry_entry st j Hwf ltac:(lia)) as (o & ob & Ho & Hob).
    cbn [clearSpawned_from]. rewrite Ho. simpl. rewrite Hob.
    assert (Hsp : spawnedAt st o = obj_spawned ob) by (unfold spawnedAt; by rewrite Hob).
    assert (Hbo : body_at st o = obj_body ob) by (unfold body_at; by rewrite Hob).
    rewrite (take_S_r _ _ _ Ho), filter_app, rev_app_distr.
    destruct (sweep_lists (fun o => spawnedAt st o = false) (objects st) j o Ho)
      as [Hkeep Hdrop].
    destruct (obj_spawned ob) eqn:Hs.
    + rewrite IH; [|by apply registry_wf_delete|simpl; rewrite length_delete by eauto; lia].
      simpl. unfold set_objects. simpl.
      rewrite Hdrop by (rewrite Hsp; done).
      rewrite (filter_cons_True _ o []) by (by rewrite Hsp).
      simpl. rewrite Hbo.
      by rewrite delete_take_drop, take_app_length' by (rewrite length_take; lia).
    + rewrite IH; [|done|lia].
      unfold set_objects. rewrite Hkeep by (by rewrite Hsp).
      rewrite (filter_cons_False _ o []) by (rewrite Hsp; done).
      done.
Qed.

(** X8: [clearSpawnedObjects] keeps exactly the registry entries that are
    not spawned, in their order, and passes the body of every spawned
    entry to [world.destroyBody] once, last entry first; it leaves the
    ring buffer, the handles, the objects and the bodies as they were. *)
Theorem clearSpawnedObjects_spec st :
  registry_wf st ->
  clearSpawnedObjects st =
    (set_objects (fun l => filter (fun o => spawnedAt st o = false) l) st,
     EvDestroyBody ∘ body_at st <$>
       rev (filter (fun o => spawnedAt st o = true) (objects st)),
     Ok tt).
Proof.
  intros Hwf. unfold clearSpawnedObjects.
  rewrite clearSpawned_from_spec by done.
  unfold set_objects. by rewrite !take_ge, drop_ge, app_nil_r by lia.
Qed.

Lemma clearSpawnedObjects_spec_witness :
  let st := fst (frames 2 (executeAll demoCompile ["rain"]
                  (createExecutor (demoHeap 5) (demoBodies 5) [4]))) in
  objects st = [4; 0; 1; 2] /\
  objects (fst (fst (clearSpawnedObjects st))) = [4] /\
  destroyed (snd (fst (clearSpawnedObjects st))) = [2; 1; 0] /\
  ephemeral (fst (fst (clearSpawnedObjects st))) = [1; 2].
Proof.
  intros st.
  assert (Hwf : registry_wf st).
  { refine (@bool_decide_unpack _ (Forall_dec _ _) _). vm_compute. exact I. }
  rewrite (clearSpawnedObjects_spec st Hwf). vm_compute. done.
Defined.

(** ** main.js: [cleanupOOB] *)

Section CleanupFacts.

Variable outOfBounds : BodyId -> bool.

Lemma cleanupOOB_from_spec i : forall st,
  registry_wf st -> spawned_have_bodies st -> i <= length (objects st) ->
  cleanupOOB_from outOfBounds i st =
    (set_objects
       (fun l => filter (fun o => strayed outOfBounds st o = false) (take i l) ++ drop i l)
       st,
     EvDestroyBody ∘ body_at st <$>
       rev (filter (fun o => strayed outOfBounds st o = true) (take i (objects st))),
     Ok tt).
Proof.
  induction i as [|j IH]; intros st Hwf Hsb Hi.
  - simpl. by destruct st.
  - destruct (registry_entry st j Hwf ltac:(lia)) as (o & ob & Ho & Hob).
    cbn [cleanupOOB_from]. rewrite Ho. simpl. rewrite Hob.
    assert (Hsp : spawnedAt st o = obj_spawned ob) by (unfold spawnedAt; by rewrite Hob).
    assert (Hbo : body_at st o = obj_body ob) by (unfold body_at; by rewrite Hob).
    assert (Hstr : strayed outOfBounds st o = obj_spawned ob && outOfBounds (obj_body ob))
      by (unfold strayed; by rewrite Hsp, Hbo).
    rewrite (take_S_r _ _ _ Ho), filter_app, rev_app_distr.
    destruct (sweep_lists (fun o => strayed outOfBounds st o = false) (objects st) j o Ho)
      as [Hkeep Hdrop].
    assert (Hstay : strayed outOfBounds st o = false ->
      cleanupOOB_from outOfBounds j st =
      (set_objects
         (fun l => filter (fun o => strayed outOfBounds st o = false) (take (S j) l)
                   ++ drop (S j) l) st,
       EvDestroyBody ∘ body_at st <$>
         (rev (filter (fun o => strayed outOfBounds st o = true) [o]) ++
          rev (filter (fun o => strayed outOfBounds st o = true) (take j (objects st)))),
       Ok tt)).
    { intros Hf. rewrite IH; [|done|done|lia].
      unfold set_objects. rewrite Hkeep by done.
      rewrite (filter_cons_False _ o []) by (rewrite Hf; done). done. }
    destruct (obj_spawned ob) eqn:Hs; [|by apply Hstay].
    assert (is_Some (bodies st !! obj_body ob)) as [bd Hbd].
    { rewrite <- Hbo. apply (proj1 (Forall_forall _ _) Hsb o); [|done].
      apply list_elem_of_lookup. eauto. }
    rewrite Hbd. simpl in Hstr.
    destruct (outOfBounds (obj_body ob)) eqn:Hoob; [|by apply Hstay].
    rewrite IH.
    + simpl. unfold set_objects. simpl.
      rewrite Hdrop by (rewrite Hstr; done).
      rewrite (filter_cons_True _ o []) by done.
      simpl. rewrite Hbo.
      by rewrite delete_take_drop, take_app_length' by (rewrite length_take; lia).
    + by apply registry_wf_delete.
    + unfold spawned_have_bodies. simpl. by apply Forall_delete.
    + simpl. rewrite length_delete by eauto. lia.
Qed.

(** X9: when every spawned registry entry has a body, [cleanupOOB]
    removes exactly the spawned entries whose body is out of bounds,
    keeping the order of the others, and destroys the body of each
    removed entry once, last entry first; objects that are not spawned
    are never removed, and the ring buffer and the handles are not
    touched. *)
Theorem cleanupOOB_spec st :
  registry_wf st -> spawned_have_bodies st ->
  cleanupOOB outOfBounds st =
    (set_objects (fun l => filter (fun o => strayed outOfBounds st o = false) l) st,
     EvDestroyBody ∘ body_at st <$>
       rev (filter (fun o => strayed outOfBounds st o = true) (objects st)),
     Ok tt).
Proof.
  intros Hwf Hsb. unfold cleanupOOB.
  rewrite cleanupOOB_from_spec by done.
  unfold set_objects. by rewrite !take_ge, drop_ge, app_nil_r by lia.
Qed.

Lemma cleanupOOB_from_throws i : forall st,
  registry_wf st -> i <= length (objects st) ->
  Exists (fun o => spawnedAt st o = true /\ bodies st !! body_at st o = None)
    (take i (objects st)) ->
  snd (cleanupOOB_from outOfBounds i st) = Throw (typeError "getPosition").
Proof.
  induction i as [|j IH]; intros st Hwf Hi Hex.
  - simpl in Hex. by apply Exists_nil in Hex.
  - destruct (registry_entry st j Hwf ltac:(lia)) as (o & ob & Ho & Hob).
    cbn [cleanupOOB_from]. rewrite Ho. simpl. rewrite Hob.
    assert (Hsp : spawnedAt st o = obj_spawned ob) by (unfold spawnedAt; by rewrite Hob).
    assert (Hbo : body_at st o = obj_body ob) by (unfold body_at; by rewrite Hob).
    rewrite (take_S_r _ _ _ Ho) in Hex. apply Exists_app in Hex.
    destruct (obj_spawned ob) eqn:Hs.
    + destruct (bodies st !! obj_body ob) as [bd|] eqn:Hbd; [|done].
      destruct Hex as [Hex|Hex].
      * destruct (outOfBounds (obj_body ob)).
        -- specialize (IH (set_objects (fun l => delete j l) st)).
           destruct (cleanupOOB_from outOfBounds j _) as [[st' evs] r]. simpl in *.
           apply IH.
           ++ by apply registry_wf_delete.
           ++ rewrite length_delete by eauto. lia.
           ++ by rewrite delete_take_drop, take_app_length'
                by (rewrite length_take; lia).
        -- apply IH; [done|lia|done].
      * apply Exists_cons in Hex as [[_ Hnone]|Hex]; [|by apply Exists_nil in Hex].
        rewrite Hbo in Hnone. congruence.
    + destruct Hex as [Hex|Hex]; [apply IH; [done|lia|done]|].
      apply Exists_cons in Hex as [[Hsp' _]|Hex]; [|by apply Exists_nil in Hex].
      congruence.
Qed.

(** X10: a spawned registry entry without a physics body makes
    [cleanupOOB] throw a [TypeError], and the setup path of the register
    capability, which does not look at the body, lets such an entry in:
    after a setup-time registration of an object whose [body] is no body,
    [cleanupOOB] throws. *)
Theorem bodiless_object_breaks_cleanup :
  (forall st, registry_wf st ->
     Exists (fun o => spawnedAt st o = true /\ bodies st !! body_at st o = None)
       (objects st) ->
     snd (cleanupOOB outOfBounds st) = Throw (typeError "getPosition")) /\
  (forall cl st o ob,
     inUpdate cl = false -> registry_wf st ->
     heap st !! o = Some ob -> bodies st !! obj_body ob = None ->
     let '((cl', st'), evs, r) := wrappedRegister o (cl, st) in
     r = Ok tt /\ snd (cleanupOOB outOfBounds st') = Throw (typeError "getPosition")).
Proof.
  assert (H1 : forall st, registry_wf st ->
     Exists (fun o => spawnedAt st o = true /\ bodies st !! body_at st o = None)
       (objects st) ->
     snd (cleanupOOB outOfBounds st) = Throw (typeError "getPosition")).
  { intros st Hwf Hex. unfold cleanupOOB. apply cleanupOOB_from_throws; [done|lia|].
    by rewrite take_ge by lia. }
  split; [exact H1|].
  intros cl st o ob Hin Hwf Ho Hb.
  rewrite (wrappedRegister_setup cl st o ob Hin Ho). split; [done|].
  apply H1.
  - unfold registry_wf. simpl. apply Forall_app. split.
    + eapply Forall_impl; [exact Hwf|]. intros x Hx. by apply is_Some_insert_heap.
    + constructor; [|constructor]. rewrite lookup_insert_eq. eauto.
  - simpl. apply Exists_app. right. constructor.
    unfold spawnedAt, body_at. simpl. rewrite lookup_insert_eq. simpl. done.
Qed.

End CleanupFacts.

Lemma cleanupOOB_spec_witness :
  let st := fst (frames 2 (executeAll demoCompile ["rain"]
                  (createExecutor (demoHeap 5) (demoBodies 5) [4]))) in
  let oob := fun b : BodyId => bool_decide (b = 1 \/ b = 4) in
  objects st = [4; 0; 1; 2] /\
  objects (fst (fst (cleanupOOB oob st))) = [4; 0; 2] /\
  destroyed (snd (fst (cleanupOOB oob st))) = [1].
Proof.
  intros st oob.
  assert (Hwf : registry_wf st).
  { refine (@bool_decide_unpack _ (Forall_dec _ _) _). vm_compute. exact I. }
  assert (Hsb : spawned_have_bodies st).
  { unfold spawned_have_bodies.
    refine (@bool_decide_unpack _ (Forall_dec _ _) _). vm_compute. exact I. }
  rewrite (cleanupOOB_spec oob st Hwf Hsb). vm_compute. done.
Defined.

Lemma bodiless_object_breaks_cleanup_witness :
  let st := createExecutor {[0 := mkObj 9 false false]} ∅ [] in
  snd (wrappedRegister 0 (mkClosure false [], st)) = Ok tt /\
  snd (cleanupOOB (fun _ => false)
         (snd (fst (fst (wrappedRegister 0 (mkClosure false [], st))))))
    = Throw (typeError "getPosition").
Proof.
  intros st.
  destruct (bodiless_object_breaks_cleanup (fun _ => false)) as [_ H].
  specialize (H (mkClosure false []) st 0 (mkObj 9 false false)).
  destruct (wrappedRegister 0 (mkClosure false [], st)) as [[[cl' st'] evs] r].
  apply H; [reflexivity|constructor|reflexivity|reflexivity].
Defined.

(** ** executor.js: [execute] *)

Lemma insert_markSpawned (h : gmap ObjId TrackedObject) o ob :
  h !! o = Some ob -> <[o := markSpawned ob]> h = alter markSpawned o h.
Proof.
  intros Ho. apply map_eq. intros k. destruct (decide (o = k)) as [<-|Hne].
  - by rewrite lookup_insert_eq, lookup_alter_eq, Ho.
  - by rewrite lookup_insert_ne, lookup_alter_ne.
Qed.

Lemma run_script_app s1 s2 cs :
  run_script (s1 ++ s2) cs =
  match run_script s1 cs with
  | (cs1, ev1, Ok _) =>
      match run_script s2 cs1 with
      | (cs2, ev2, r) => (cs2, ev1 ++ ev2, r)
      end
  | (cs1, ev1, Throw e) => (cs1, ev1, Throw e)
  end.
Proof.
  revert cs. induction s1 as [|[o|e] s1 IH]; intros cs; simpl.
  - by destruct (run_script s2 cs) as [[cs2 ev2] r].
  - unfold mbind, M_bind, bind.
    destruct (wrappedRegister o cs) as [[cs1 ev1] [[]|e1]]; [|done].
    rewrite IH.
    destruct (run_script s1 cs1) as [[cs2 ev2] [[]|e2]]; [|done].
    destruct (run_script s2 cs2) as [[cs3 ev3] r]. by rewrite app_assoc.
  - done.
Qed.

Lemma body_at_alter st o x :
  match alter markSpawned o (heap st) !! x with
  | Some ob => obj_body ob | None => 0 end = body_at st x.
Proof.
  unfold body_at. destruct (decide (o = x)) as [<-|Hne].
  - rewrite lookup_alter_eq. by destruct (heap st !! o).
  - by rewrite lookup_alter_ne.
Qed.

(** A run of setup-time registrations. *)
Lemma run_setup os : forall cl st,
  inUpdate cl = false -> Forall (fun o => is_Some (heap st !! o)) os ->
  run_script (GRegister <$> os) (cl, st) =
    ((mkClosure false (rootBodies cl ++ (body_at st <$> os)), afterSetup os st),
     [], Ok tt).
Proof.
  induction os as [|o os IH]; intros cl st Hin Hval.
  - simpl. rewrite app_nil_r. unfold afterSetup. simpl. rewrite app_nil_r.
    destruct cl, st. simpl in *. by rewrite Hin.
  - apply Forall_cons in Hval as [[ob Ho] Hval].
    cbn [fmap list_fmap run_script]. unfold mbind, M_bind, bind.
    rewrite (wrappedRegister_setup cl st o ob Hin Ho).
    change (list_fmap ObjId GenCmd GRegister os) with (GRegister <$> os).
    fold (markSpawned ob). rewrite (insert_markSpawned _ _ _ Ho).
    rewrite IH; [|done|].
    + assert (Hbo : body_at st o = obj_body ob) by (unfold body_at; by rewrite Ho).
      match goal with |- context [body_at ?s1 <$> os] =>
        assert (Hext : body_at s1 <$> os = body_at st <$> os)
          by (apply list_fmap_ext; intros _ x _; apply (body_at_alter st o x))
      end.
      rewrite Hext. simpl rootBodies. rewrite Hbo.
      unfold afterSetup. simpl. by rewrite <- !app_assoc.
    + simpl. eapply Forall_impl; [exact Hval|]. intros x [y Hy].
      destruct (decide (o = x)) as [<-|Hne].
      * rewrite lookup_alter_eq, Hy. simpl. eauto.
      * rewrite lookup_alter_ne by done. eauto.
Qed.

Lemma afterSetup_spawned os : forall st o,
  o ∈ os -> Forall (fun o => is_Some (heap st !! o)) os ->
  spawnedAt (afterSetup os st) o = true.
Proof.
  intros st o Hin Hval. unfold spawnedAt, afterSetup. simpl.
  assert (H : forall (h : gmap ObjId TrackedObject),
    is_Some (h !! o) ->
    (o ∈ os \/ (exists ob, h !! o = Some ob /\ obj_spawned ob = true)) ->
    exists ob, foldl (fun h o => alter markSpawned o h) h os !! o = Some ob /\
               obj_spawned ob = true).
  { clear. induction os as [|x os IH]; intros h Hs Hor; simpl.
    - destruct Hor as [Hc|Hor]; [by apply elem_of_nil in Hc|done].
    - apply IH.
      + destruct Hs as [y Hy]. destruct (decide (x = o)) as [->|Hne].
        * rewrite lookup_alter_eq, Hy. simpl. eauto.
        * rewrite lookup_alter_ne by done. eauto.
      + destruct (decide (x = o)) as [->|Hne].
        * right. destruct Hs as [y Hy]. rewrite lookup_alter_eq, Hy. simpl. eauto.
        * rewrite lookup_alter_ne by done.
          destruct Hor as [Hc|Hor]; [|by right].
          left. apply elem_of_cons in Hc as [Hc|Hc]; [congruence|done]. }
  destruct (H (heap st)) as (ob & -> & Hsp); [|by left|done].
  by apply (proj1 (Forall_forall _ _) Hval).
Qed.

Section ExecuteFacts.

Variable js_compile : string -> Compiled.

(** X11: when the setup call throws a value after registering the
    objects [os], [execute] pushes no handle and rolls nothing back: the
    objects are in the registry, marked spawned. What leaves [execute]
    depends on the value: for an [Error] (or another object) with message
    [m] it is an [Error] with message ["Runtime error in generated code: m"];
    for a value without a message (a string, a number) the message ends in
    ["undefined"]; for [null] and [undefined] it is the [TypeError] of
    reading their [message], which is not wrapped, so that the message of
    a failed [execute] need not start with ["Runtime error"]. *)
Theorem execute_setup_failure code fn os v rest st :
  js_compile code = Function fn ->
  setup fn = (GRegister <$> os) ++ GThrow v :: rest ->
  Forall (fun o => is_Some (heap st !! o)) os ->
  execute js_compile code st = (afterSetup os st, [], Throw (rethrown v)) /\
  match v with
  | ThrownError e => rethrown v = mkError (runtimeErrorMessage (message e))
  | ThrownNull =>
      rethrown v = mkError "Cannot read properties of null (reading 'message')"
  | ThrownUndefined =>
      rethrown v = mkError "Cannot read properties of undefined (reading 'message')"
  | ThrownOther => rethrown v = mkError (runtimeErrorMessage "undefined")
  end /\
  ((exists m, rethrown v = mkError (runtimeErrorMessage m)) <->
   v <> ThrownNull /\ v <> ThrownUndefined) /\
  objects (afterSetup os st) = objects st ++ os /\
  updaters (afterSetup os st) = updaters st /\
  forall o, o ∈ os -> spawnedAt (afterSetup os st) o = true.
Proof.
  intros Hc Hs Hval. split_and!; try done.
  - unfold execute. rewrite Hc, Hs, run_script_app, run_setup by done. done.
  - by destruct v.
  - destruct v as [e| | |]; simpl; split.
    + done.
    + eauto.
    + intros [m Hm]. discriminate.
    + intros [H _]. done.
    + intros [m Hm]. discriminate.
    + intros [_ H]. done.
    + done.
    + eauto.
  - intros o Ho. by apply afterSetup_spawned.
Qed.

(** X12: a setup call that registers the objects [os] and returns adds
    them to the registry in order, however many they are, destroys
    nothing and leaves the ring buffer and the bodies alone; when the
    returned value has an [update], one handle is pushed after the
    existing ones, not dead, whose root bodies are the bodies of [os] in
    order; when it has none, no handle is pushed. *)
Theorem execute_setup_success code fn os st :
  js_compile code = Function fn ->
  setup fn = (GRegister <$> os) ->
  Forall (fun o => is_Some (heap st !! o)) os ->
  execute js_compile code st =
    (match result_update fn with
     | Some upd =>
         set_nextUid S
           (set_updaters
              (fun l => l ++ [mkUpdater (nextUid st) false
                                (mkClosure false (body_at st <$> os)) upd 0])
              (afterSetup os st))
     | None => afterSetup os st
     end, [], Ok tt) /\
  objects (afterSetup os st) = objects st ++ os /\
  ephemeral (afterSetup os st) = ephemeral st /\
  bodies (afterSetup os st) = bodies st.
Proof.
  intros Hc Hs Hval. split_and!; try done.
  unfold execute. rewrite Hc, Hs, run_setup by done.
  by destruct (result_update fn).
Qed.

End ExecuteFacts.

Lemma execute_setup_failure_witness :
  let js := fun code : string =>
    Function (mkGenFn [GRegister 0; GRegister 1;
                       GThrow (if decide (code = "null") then ThrownNull
                               else ThrownError (mkError "bad"));
                       GRegister 2] None) in
  snd (execute js "x" (demoState 3)) = Throw (mkError (runtimeErrorMessage "bad")) /\
  snd (execute js "null" (demoState 3)) =
    Throw (mkError "Cannot read properties of null (reading 'message')") /\
  objects (fst (fst (execute js "x" (demoState 3)))) = [0; 1] /\
  objects (fst (fst (execute js "null" (demoState 3)))) = [0; 1].
Proof.
  intros js.
  assert (Hval : Forall (fun o => is_Some (heap (demoState 3) !! o)) [0; 1]).
  { refine (@bool_decide_unpack _ (Forall_dec _ _) _). vm_compute. exact I. }
  destruct (execute_setup_failure js "x" _ [0; 1] (ThrownError (mkError "bad"))
              [GRegister 2] (demoState 3) eq_refl eq_refl Hval)
    as (He & _ & _ & Ho & _).
  destruct (execute_setup_failure js "null" _ [0; 1] ThrownNull
              [GRegister 2] (demoState 3) eq_refl eq_refl Hval)
    as (He' & _ & _ & Ho' & _).
  rewrite He, He'. split_and!; [reflexivity|reflexivity|exact Ho|exact Ho'].
Defined.

Lemma execute_setup_success_witness :
  let st := fst (fst (execute demoCompile "ball" (demoState 200))) in
  objects st = [100] /\ ephemeral st = [] /\
  (rootBodies ∘ env <$> updaters st) = [[100]].
Proof.
  intros st.
  destruct (execute_setup_success demoCompile "ball" _ [100] (demoState 200)
              eq_refl eq_refl) as (He & Ho & Hb & _).
  - refine (@bool_decide_unpack _ (Forall_dec _ _) _). vm_compute. exact I.
  - unfold st. rewrite He. simpl. split_and!; [exact Ho|exact Hb|reflexivity].
Defined.

(** ** executor.js and main.js: the root-body check and the loop *)

Lemma every_inactive_valid (w : gmap BodyId Body) l :
  Forall (fun b => is_Some (w !! b)) l ->
  exists r, every_inactive w l = Ok r /\
            (r = true <-> Forall (fun b => active <$> w !! b = Some false) l).
Proof.
  induction 1 as [|b l [bd Hb] _ (r & IH & Hr)]; simpl.
  - exists true. split; [done|]. split; [constructor|done].
  - rewrite Hb. destruct (active bd) eqn:Ha.
    + exists false. split; [done|]. split; [done|].
      intros Hall. apply Forall_cons in Hall as [Hc _].
      rewrite Hb in Hc. simpl in Hc. congruence.
    + exists r. split; [done|]. rewrite Hr, Forall_cons, Hb. simpl. rewrite Ha. tauto.
Qed.

(** X13: when every root of a handle is a body, its tick is skipped and
    the handle marked dead exactly when it has at least one root and all
    its roots are inactive; one active root is enough for the generated
    update to be invoked. *)
Theorem reaping_condition st u :
  Forall (fun b => is_Some (bodies st !! b)) (rootBodies (env u)) ->
  (tick_outcome st u = TickDead <->
   rootBodies (env u) <> [] /\ Forall (inactive st) (rootBodies (env u))) /\
  (is_invoked st u = true <->
   rootBodies (env u) = [] \/ Exists (fun b => ~ inactive st b) (rootBodies (env u))).
Proof.
  intros Hval. unfold tick_outcome, is_invoked, allRootsInactive, inactive.
  destruct (rootBodies (env u)) as [|b l] eqn:Hroots.
  - simpl. split; split; try tauto.
    destruct (script_outcome _ _ _); discriminate.
  - rewrite decide_True by (simpl; lia).
    destruct (every_inactive_valid _ _ Hval) as (r & -> & Hr).
    destruct r.
    + assert (Hall : Forall (fun b => active <$> bodies st !! b = Some false) (b :: l))
        by (by apply Hr).
      split; split; try done.
      intros [Hc|Hex]; [done|].
      apply Exists_exists in Hex as (x & Hx & Hnx).
      exfalso. apply Hnx. by apply (proj1 (Forall_forall _ _) Hall).
    + assert (Hall : ~ Forall (fun b => active <$> bodies st !! b = Some false) (b :: l))
        by (intros Hc; apply Hr in Hc; discriminate).
      split; split; try done.
      * destruct (script_outcome _ _ _); discriminate.
      * intros [_ Hc]. done.
      * intros _. right. apply not_Forall_Exists in Hall; [done|].
        intros x. apply _.
Qed.

Lemma reaping_condition_witness :
  let st := deactivate 100 (executeAll demoCompile ["ball"] (demoState 200)) in
  Forall (fun u => tick_outcome st u = TickDead) (updaters st) /\
  Forall (fun u => is_invoked (reactivate 100 st) u = true) (updaters st).
Proof.
  intros st.
  pose (u := mkUpdater 0 false (mkClosure false [100]) (fun _ : nat => @nil GenCmd) 0).
  assert (Hu : updaters st = [u]) by (vm_compute; reflexivity).
  rewrite Hu. split; (constructor; [|constructor]).
  - apply (reaping_condition st u).
    + constructor; [vm_compute; eauto|constructor].
    + split; [discriminate|]. constructor; [vm_compute; reflexivity|constructor].
  - apply (reaping_condition (reactivate 100 st) u).
    + constructor; [vm_compute; eauto|constructor].
    + right. constructor. vm_compute. discriminate.
Defined.

Lemma every_inactive_invalid (w : gmap BodyId Body) pre b rest :
  Forall (fun x => active <$> w !! x = Some false) pre -> w !! b = None ->
  every_inactive w (pre ++ b :: rest) = Throw (typeError "isActive").
Proof.
  intros Hpre Hb. induction Hpre as [|x pre Hx _ IH]; simpl.
  - by rewrite Hb.
  - destruct (w !! x) as [bd|]; simpl in Hx; [|done].
    assert (active bd = false) as -> by congruence. done.
Qed.

(** X14: a handle one of whose roots is no body, with only inactive roots
    before it, has its tick end in a [TypeError] before the generated
    update is reached; the frame warns once and drops the handle. *)
Theorem bodiless_root_drops_handle st u pre b rest :
  wf st -> NoDup (uid <$> updaters st) -> u ∈ updaters st ->
  rootBodies (env u) = pre ++ b :: rest ->
  Forall (inactive st) pre -> bodies st !! b = None ->
  tick_outcome st u = TickThrow (typeError "isActive") /\
  let '(st', evs) := loop st in
  occurrences (uid u) (invokes evs) = 0 /\
  occurrences (uid u) (warns evs) = 1 /\
  uid u ∉ (uid <$> updaters st').
Proof.
  intros Hwf Hnd Hin Hroots Hpre Hb.
  assert (Ha : allRootsInactive (bodies st) (rootBodies (env u)) =
               Throw (typeError "isActive")).
  { unfold allRootsInactive. rewrite Hroots.
    rewrite decide_True by (rewrite length_app; simpl; lia).
    by apply every_inactive_invalid. }
  assert (Ht : tick_outcome st u = TickThrow (typeError "isActive"))
    by (unfold tick_outcome; by rewrite Ha).
  split; [done|].
  pose proof (loop_spec st Hwf) as H.
  destruct (loop st) as [st' evs]. destruct H as (_ & Hu & _ & Hi & Hw & _).
  rewrite Hi, Hw, !occurrences_rev, !occurrences_uids, !sum_over_NoDup by done.
  unfold is_invoked, is_dropped. rewrite Ha, Ht. split_and!; [done|done|].
  rewrite Hu, (uid_in_omap (next_handle st) _ u (next_handle_uid st) Hnd Hin).
  unfold next_handle. rewrite Ht. by intros [? ?].
Qed.

Lemma bodiless_root_drops_handle_witness :
  let js := fun _ : string => Function (mkGenFn [GRegister 0] (Some (fun _ => []))) in
  let st := fst (fst (execute js "x" (createExecutor {[0 := mkObj 9 false false]} ∅ []))) in
  (uid <$> updaters st) = [0] /\
  let '(st', evs) := loop st in
  occurrences 0 (invokes evs) = 0 /\ occurrences 0 (warns evs) = 1 /\
  0 ∉ (uid <$> updaters st').
Proof.
  intros js st.
  pose (u := mkUpdater 0 false (mkClosure false [9]) (fun _ : nat => @nil GenCmd) 0).
  assert (Hu : updaters st = [u]) by reflexivity.
  assert (Hwf : wf st) by constructor.
  assert (Hnd : NoDup (uid <$> updaters st))
    by (rewrite Hu; apply NoDup_singleton).
  split; [by rewrite Hu|].
  destruct (bodiless_root_drops_handle st u [] 9 [] Hwf Hnd) as [_ H];
    [rewrite Hu; by left|reflexivity|constructor|reflexivity|].
  exact H.
Defined.

(** X15: the [dead] flag is only ever written: a handle already marked
    dead is ticked like any other, so once one of its root bodies is
    active again a frame invokes its generated update, and the handle
    stays in [updaters], still marked dead, when that update returns. *)
Theorem dead_flag_is_not_sticky st u :
  wf st -> NoDup (uid <$> updaters st) -> u ∈ updaters st ->
  dead u = true -> is_invoked st u = true ->
  let '(st', evs) := loop st in
  occurrences (uid u) (invokes evs) = 1 /\
  (script_outcome st true (origUpdate u (calls u)) = Ok tt ->
   exists u', u' ∈ updaters st' /\ uid u' = uid u /\ dead u' = true /\
              calls u' = S (calls u)).
Proof.
  intros Hwf Hnd Hin Hdead Hi.
  pose proof (loop_spec st Hwf) as H.
  destruct (loop st) as [st' evs]. destruct H as (_ & Hu & _ & Hiv & _).
  split.
  - rewrite Hiv, occurrences_rev, occurrences_uids, sum_over_NoDup by done.
    by rewrite Hi.
  - intros Hok. exists (after_call (env u) false u). split_and!; try done.
    rewrite Hu. apply list_elem_of_omap. exists u. split; [done|].
    destruct (next_handle_invoked st u Hi) as [-> _]. by rewrite Hok.
Qed.

Lemma dead_flag_is_not_sticky_witness :
  let st0 := deactivate 100 (executeAll demoCompile ["ball"] (demoState 200)) in
  let st := reactivate 100 (fst (loop st0)) in
  (dead <$> updaters st) = [true] /\ invokes (snd (loop st0)) = [] /\
  occurrences 0 (invokes (snd (loop st))) = 1.
Proof.
  intros st0 st.
  pose (u := mkUpdater 0 true (mkClosure false [100]) (fun _ : nat => @nil GenCmd) 0).
  assert (Hu : updaters st = [u]) by (vm_compute; reflexivity).
  assert (Hwf : wf st) by (vm_compute; constructor).
  assert (Hnd : NoDup (uid <$> updaters st)) by (rewrite Hu; apply NoDup_singleton).
  assert (Hin : u ∈ updaters st) by (rewrite Hu; by left).
  assert (Hi : is_invoked st u = true) by (vm_compute; reflexivity).
  pose proof (dead_flag_is_not_sticky st u Hwf Hnd Hin eq_refl Hi) as H.
  destruct (loop st) as [st' evs]. destruct H as [H _].
  split; [by rewrite Hu|]. split; [vm_compute; reflexivity|exact H].
Defined.

(** ** main.js: submissions *)

Section SubmissionFacts.

Variable js_compile : string -> Compiled.

Lemma resume_inv i r app :
  Inv (executor app) -> Inv (executor (fst (resume js_compile i r app))).
Proof.
  intros Hinv. unfold resume.
  destruct (inflight app !! i) as [[text|text key|text key]|]; [| | |done].
  - by destruct r.
  - destruct (cache_get key (cache app)) as [[c evs] [[code|]|e]]; simpl; try done.
    destruct (truthy code); simpl; [|done].
    pose proof (execute_inv js_compile code _ Hinv) as H.
    by destruct (execute js_compile code (executor app)) as [[st evs'] [[]|e]].
  - destruct r as [code|e]; simpl; [|done].
    pose proof (execute_inv js_compile code _ Hinv) as H.
    by destruct (execute js_compile code (executor app)) as [[st evs'] [[]|e]].
Qed.

(** X17: whatever is submitted and however the promises settle, the
    executor stays in order: the ring buffer holds at most 200 entries,
    each of them an object. *)
Theorem submissions_keep_ring_buffer_bounded inps : forall app,
  Inv (executor app) ->
  length (ephemeral (executor (fst (run js_compile inps app)))) <= MAX_EPHEMERAL /\
  wf (executor (fst (run js_compile inps app))).
Proof.
  assert (H : forall app, Inv (executor app) ->
                          Inv (executor (fst (run js_compile inps app)))).
  { induction inps as [|inp inps IH]; intros app Hinv; [done|]. simpl.
    assert (Hstep : Inv (executor (fst (step js_compile inp app)))).
    { destruct inp as [text|i r]; simpl.
      - unfold handleSearch. by destruct (isGenerating app).
      - by apply resume_inv. }
    destruct (step js_compile inp app) as [app1 evs1].
    specialize (IH app1 Hstep). by destruct (run js_compile inps app1). }
  intros app Hinv. split; apply (H app Hinv).
Qed.

(** X18: once a prompt has been generated and cached, a later submission
    that normalizes to the same key does not wait for the generator: the
    lookup returns the cached artifact, [execute] runs it, and the
    activation ends with the "(cached)" notice. *)
Theorem repeat_submission_served_from_cache st c text key code r text' r' :
  snd (cache_get key c) = Ok None ->
  truthy code = true -> local_write_succeeds key code c ->
  snd (execute js_compile code st) = Ok tt ->
  let app1 :=
    fst (run js_compile
           [Submit text; Settle 0 (Ok key); Settle 0 r; Settle 0 (Ok code)]
           (initialApp st c)) in
  snd (execute js_compile code (executor app1)) = Ok tt ->
  inflight app1 = [] /\ isGenerating app1 = false /\
  snd (cache_get key (cache app1)) = Ok (Some code) /\
  let '(app2, evs) :=
    run js_compile [Submit text'; Settle 0 (Ok key); Settle 0 r'] app1 in
  inflight app2 = [] /\ isGenerating app2 = false /\
  EvShowSuccess (createdCachedMessage text') ∈ evs /\
  cache app2 = cache app1.
Proof.
  intros Hmiss Ht Hw Hex1 app1.
  pose proof (cache_get_miss key c Hmiss) as Hsame.
  assert (Happ1 : app1 =
     mkApp (fst (fst (execute js_compile code st)))
           (fst (fst (cache_set key code c))) false []).
  { unfold app1. simpl. unfold handleSearch, resume. simpl.
    destruct (cache_get key c) as [[c' evs] v]. simpl in Hmiss, Hsame. subst c' v.
    simpl.
    destruct (execute js_compile code st) as [[st1 evs1] [[]|e]]; [done|discriminate]. }
  clearbody app1. subst app1. simpl executor. intros Hex2.
  assert (Hget : cache_get key (fst (fst (cache_set key code c))) =
                 (fst (fst (cache_set key code c)),
                  [EvLog "[Cache hit] localStorage:" key], Ok (Some code))).
  { apply cache_get_local_hit; [|done]. simpl.
    rewrite (getLocal_same_local key (setLocal key code c)).
    - by apply getLocal_setLocal.
    - unfold same_local, setFirebase. by case_match. }
  remember (fst (fst (cache_set key code c))) as c1 eqn:Hc1. clear Hc1.
  remember (fst (fst (execute js_compile code st))) as st1 eqn:Hst1. clear Hst1.
  split; [done|]. split; [done|].
  split; [change (snd (cache_get key c1) = Ok (Some code)); by rewrite Hget|].
  simpl. unfold handleSearch, resume. simpl. rewrite Hget, Ht.
  destruct (execute js_compile code st1) as [[st2 evs2] [[]|e]]; [|discriminate].
  simpl. split_and!; try done.
  do 5 constructor 2. apply elem_of_app. left. apply elem_of_app. right.
  constructor 1.
Qed.

End SubmissionFacts.

Lemma submissions_keep_ring_buffer_bounded_witness :
  let app := fst (run demoCompile
                    [Submit "rain"; Settle 0 (Ok "rain"); Settle 0 (Ok "rain");
                     Settle 0 (Ok "rain"); Submit "x"]
                    (initialApp (demoState 0) (demoCache 5000))) in
  length (ephemeral (executor app)) <= MAX_EPHEMERAL /\ wf (executor app).
Proof.
  intros app.
  apply (submissions_keep_ring_buffer_bounded demoCompile).
  apply (reachable_inv demoCompile). apply reach_create.
Defined.

Lemma repeat_submission_served_from_cache_witness :
  let app1 :=
    fst (run demoCompile
           [Submit "a ball"; Settle 0 (Ok "ball"); Settle 0 (Ok "ball");
            Settle 0 (Ok "ball")]
           (initialApp (demoState 200) (demoCache 5000))) in
  snd (cache_get "ball" (cache app1)) = Ok (Some "ball") /\
  let '(app2, evs) :=
    run demoCompile [Submit "a ball again"; Settle 0 (Ok "ball"); Settle 0 (Ok "ball")]
      app1 in
  inflight app2 = [] /\ EvShowSuccess (createdCachedMessage "a ball again") ∈ evs.
Proof.
  intros app1.
  destruct (repeat_submission_served_from_cache demoCompile (demoState 200)
              (demoCache 5000) "a ball" "ball" "ball" (Ok "ball") "a ball again"
              (Ok "ball")) as (_ & _ & Hg & H).
  - reflexivity.
  - reflexivity.
  - vm_compute. eauto.
  - vm_compute. reflexivity.
  - vm_compute. reflexivity.
  - split; [exact Hg|].
    fold app1 in H.
    destruct (run demoCompile _ app1) as [app2 evs].
    destruct H as (Hi & _ & He & _). split; [exact Hi|exact He].
Defined.

(** ** theCrash.js: [processDestroys], and what the cleanups leave alone *)

Lemma registry_only_refl st : registry_only st st.
Proof. by unfold registry_only. Qed.

Lemma registry_only_trans st1 st2 st3 :
  registry_only st1 st2 -> registry_only st2 st3 -> registry_only st1 st3.
Proof.
  intros (A1 & A2 & A3 & A4 & A5) (B1 & B2 & B3 & B4 & B5).
  unfold registry_only. by rewrite B1, B2, B3, B4, B5.
Qed.

Lemma registry_only_set_objects f st : registry_only st (set_objects f st).
Proof. by unfold registry_only. Qed.

Lemma registry_only_unregister o st : registry_only st (unregisterObject o st).
Proof.
  destruct (unregister_fields o st) as (E1 & E2 & E3 & E4 & E5).
  by unfold registry_only.
Qed.

Lemma registry_only_outside st st' : registry_only st st' -> outside st st'.
Proof.
  intros (E1 & E2 & E3 & E4 & E5). unfold outside. split_and!; try done.
  intros o. by rewrite E3.
Qed.

Lemma clearSpawned_from_registry_only i : forall st,
  registry_only st (fst (fst (clearSpawned_from i st))).
Proof.
  induction i as [|j IH]; intros st; [apply registry_only_refl|].
  cbn [clearSpawned_from].
  destruct (objects st !! j ≫= _) as [ob|]; [|apply registry_only_refl].
  destruct (obj_spawned ob); [|apply IH].
  specialize (IH (set_objects (fun l => delete j l) st)).
  destruct (clearSpawned_from j _) as [[st' evs] r]. simpl in *.
  eapply registry_only_trans; [apply registry_only_set_objects|exact IH].
Qed.

Lemma cleanupOOB_from_registry_only oob i : forall st,
  registry_only st (fst (fst (cleanupOOB_from oob i st))).
Proof.
  induction i as [|j IH]; intros st; [apply registry_only_refl|].
  cbn [cleanupOOB_from].
  destruct (objects st !! j ≫= _) as [ob|]; [|apply registry_only_refl].
  destruct (obj_spawned ob); [|apply IH].
  destruct (bodies st !! obj_body ob); [|apply registry_only_refl].
  destruct (oob (obj_body ob)); [|apply IH].
  specialize (IH (set_objects (fun l => delete j l) st)).
  destruct (cleanupOOB_from oob j _) as [[st' evs] r]. simpl in *.
  eapply registry_only_trans; [apply registry_only_set_objects|exact IH].
Qed.

Lemma scan_registry_only b i : forall st,
  registry_only st (fst (fst (processDestroys_scan b i st))).
Proof.
  induction i as [|j IH]; intros st; [apply registry_only_refl|].
  cbn [processDestroys_scan].
  destruct (objects st !! j) as [o|]; [|apply registry_only_refl].
  destruct (heap st !! o) as [ob|]; [|apply registry_only_refl].
  case_decide; [apply registry_only_unregister|apply IH].
Qed.

Lemma stack_registry_only stack : forall st,
  registry_only st (fst (fst (processDestroys_stack stack st))).
Proof.
  induction stack as [|b rest IH]; intros st; [apply registry_only_refl|].
  cbn [processDestroys_stack]. unfold mbind, M_bind, bind.
  pose proof (scan_registry_only b (length (objects st)) st) as Hs.
  destruct (processDestroys_scan b _ st) as [[st1 evs1] [[]|e]]; simpl in *; [|done].
  unfold emit. simpl.
  specialize (IH st1).
  destruct (processDestroys_stack rest st1) as [[st2 evs2] r]. simpl in *.
  by eapply registry_only_trans.
Qed.

Lemma filter_ext_in (P Q : ObjId -> Prop) `{forall x, Decision (P x)}
    `{forall x, Decision (Q x)} (l : list ObjId) :
  (forall x, x ∈ l -> P x <-> Q x) -> filter P l = filter Q l.
Proof.
  induction l as [|y l IH]; [done|]. intros Hext.
  assert (Hy : P y <-> Q y) by (apply Hext; by left).
  assert (Hl : filter P l = filter Q l) by (apply IH; intros x Hx; apply Hext; by right).
  destruct (decide (P y)) as [Hp|Hp].
  - rewrite !filter_cons_True by tauto. by rewrite Hl.
  - rewrite !filter_cons_False by tauto. done.
Qed.

Lemma fmap_inj_on (f : ObjId -> BodyId) (l : list ObjId) x y :
  NoDup (f <$> l) -> x ∈ l -> y ∈ l -> f x = f y -> x = y.
Proof.
  induction l as [|z l IH]; intros Hnd Hx Hy Hf; [by apply elem_of_nil in Hx|].
  rewrite fmap_cons in Hnd. apply NoDup_cons in Hnd as [Hz Hnd].
  apply elem_of_cons in Hx as [->|Hx]; apply elem_of_cons in Hy as [->|Hy].
  - done.
  - exfalso. apply Hz. rewrite Hf. by apply list_elem_of_fmap_2.
  - exfalso. apply Hz. rewrite <- Hf. by apply list_elem_of_fmap_2.
  - by apply IH.
Qed.

Lemma unregister_set_objects o st :
  NoDup (objects st) ->
  unregisterObject o st = set_objects (filter (fun x => x <> o)) st.
Proof.
  intros Hnd. pose proof (remove_first_filter (objects st) o Hnd) as H.
  unfold unregisterObject. destruct (indexOf (objects st) o) as [i|].
  - unfold set_objects. by rewrite H.
  - unfold set_objects. rewrite <- H. by destruct st.
Qed.

Lemma scan_spec b i : forall st,
  registry_wf st -> NoDup (body_at st <$> objects st) ->
  i <= length (objects st) ->
  Forall (fun o => body_at st o <> b) (drop i (objects st)) ->
  processDestroys_scan b i st =
    (set_objects (filter (fun o => body_at st o <> b)) st, [], Ok tt).
Proof.
  induction i as [|j IH]; intros st Hwf Hnd Hi Hrest.
  - simpl. unfold ret. rewrite drop_0 in Hrest.
    unfold set_objects. rewrite filter_all; [by destruct st|].
    intros x Hx. by apply (proj1 (Forall_forall _ _) Hrest).
  - destruct (registry_entry st j Hwf ltac:(lia)) as (o & ob & Ho & Hob).
    cbn [processDestroys_scan]. rewrite Ho, Hob.
    assert (Hbo : body_at st o = obj_body ob) by (unfold body_at; by rewrite Hob).
    case_decide as Hb.
    + rewrite unregister_set_objects by (by eapply NoDup_fmap_1).
      unfold set_objects. do 2 f_equal. f_equal.
      apply filter_ext_in. intros x Hx. split.
      * intros Hne Heq. apply Hne.
        apply (fmap_inj_on (body_at st) (objects st)); try done.
        -- apply list_elem_of_lookup. eauto.
        -- by rewrite Heq, Hbo.
      * intros Hne ->. apply Hne. by rewrite Hbo.
    + apply IH; [done|done|lia|].
      rewrite (drop_S _ _ _ Ho). constructor; [by rewrite Hbo|done].
Qed.

Lemma stack_spec stack : forall st,
  registry_wf st -> NoDup (body_at st <$> objects st) ->
  processDestroys_stack stack st =
    (set_objects (filter (fun o => body_at st o ∉ stack)) st,
     EvDestroyBody <$> stack, Ok tt).
Proof.
  induction stack as [|b rest IH]; intros st Hwf Hnd.
  - simpl. unfold ret, set_objects. rewrite filter_all; [by destruct st|].
    intros x _. apply not_elem_of_nil.
  - cbn [processDestroys_stack]. unfold mbind, M_bind, bind.
    rewrite scan_spec; [|done|done|lia|by rewrite drop_ge by lia].
    unfold emit. simpl.
    rewrite IH.
    + unfold set_objects. simpl. do 2 f_equal. f_equal.
      rewrite list_filter_filter. apply list_filter_iff. intros x.
      rewrite not_elem_of_cons. unfold body_at. simpl. tauto.
    + unfold registry_wf. simpl.
      apply Forall_forall. intros x Hx. apply list_elem_of_filter in Hx as [_ Hx].
      by apply (proj1 (Forall_forall _ _) Hwf).
    + simpl. apply (sublist_NoDup _ (body_at st <$> objects st)); [exact Hnd|].
      change (body_at (set_objects (filter (fun o => body_at st o <> b)) st))
        with (body_at st).
      apply fmap_sublist, sublist_filter.
Qed.

Lemma elem_of_rev {A} (x : A) (l : list A) : x ∈ rev l <-> x ∈ l.
Proof.
  induction l as [|y l IH]; [done|]. simpl.
  rewrite elem_of_app, IH, list_elem_of_singleton, elem_of_cons. tauto.
Qed.

(** X19: when the registry entries are objects with pairwise different
    bodies, [processDestroys] removes exactly the entries whose body was
    scheduled, keeps the others in their order, and passes every scheduled
    body to [world.destroyBody], last scheduled first, whether or not an
    entry was found for it; the ring buffer of the executor is not told. *)
Theorem processDestroys_spec scheduled st :
  registry_wf st -> NoDup (body_at st <$> objects st) ->
  processDestroys scheduled st =
    (set_objects (filter (fun o => body_at st o ∉ scheduled)) st,
     EvDestroyBody <$> rev scheduled, Ok tt).
Proof.
  intros Hwf Hnd. unfold processDestroys. rewrite stack_spec by done.
  do 2 f_equal. unfold set_objects. f_equal.
  apply list_filter_iff. intros x. by rewrite elem_of_rev.
Qed.

Section CleanupComposition.

Variable js_compile : string -> Compiled.
Variable outOfBounds : BodyId -> bool.

(** X20: the three cleanups of the page, [cleanupOOB],
    [clearSpawnedObjects] and [processDestroys], change nothing but the
    registry, also when they throw half-way; so a state reached through
    them is a state the executor's invariants hold in, and its ring buffer
    is within its bound. *)
Theorem cleanups_change_only_the_registry scheduled st :
  reachable_state js_compile st ->
  forall st',
    st' = fst (fst (cleanupOOB outOfBounds st)) \/
    st' = fst (fst (clearSpawnedObjects st)) \/
    st' = fst (fst (processDestroys scheduled st)) ->
    registry_only st st' /\ reachable_state js_compile st' /\
    length (ephemeral st') <= MAX_EPHEMERAL.
Proof.
  intros Hr st' Hst'.
  assert (Ho : registry_only st st').
  { destruct Hst' as [->|[->| ->]].
    - apply cleanupOOB_from_registry_only.
    - apply clearSpawned_from_registry_only.
    - apply stack_registry_only. }
  assert (Hr' : reachable_state js_compile st').
  { eapply reach_outside; [exact Hr|]. by apply registry_only_outside. }
  split_and!; try done.
  apply (inv_bound _ (reachable_inv js_compile st' Hr')).
Qed.

(** X21: [cleanupOOB] destroys the body of an out-of-bounds object but
    does not take the object out of the ring buffer: when that object is
    the oldest entry of a full buffer, the next registration during an
    update that gets as far as the buffer passes the same body to
    [world.destroyBody] a second time. *)
Theorem stray_ephemeral_body_destroyed_twice cl st o ob bd old rest :
  registry_wf st -> spawned_have_bodies st -> wf st ->
  inUpdate cl = true ->
  ephemeral st = old :: rest -> length (ephemeral st) = MAX_EPHEMERAL ->
  old ∈ objects st -> strayed outOfBounds st old = true ->
  heap st !! o = Some ob -> bodies st !! obj_body ob = Some bd ->
  refusal bd = None ->
  exists st1 evs1 st2,
    cleanupOOB outOfBounds st = (st1, evs1, Ok tt) /\
    EvDestroyBody (body_at st old) ∈ evs1 /\
    (old ∉ objects st1) /\ ephemeral st1 = old :: rest /\
    wrappedRegister o (cl, st1) =
      ((cl, st2), [EvDestroyBody (body_at st old)], Ok tt).
Proof.
  intros Hrw Hsb Hwf Hin Hbuf Hlen Hold Hstr Ho Hb Hrf.
  unfold cleanupOOB. rewrite cleanupOOB_from_spec by done.
  unfold set_objects. rewrite !take_ge, drop_ge, app_nil_r by lia.
  set (st1 := mkState _ _ _ _ _ _).
  eexists st1, _, _. split; [reflexivity|].
  split.
  { apply (list_elem_of_fmap_2 (EvDestroyBody ∘ body_at st)).
    apply elem_of_rev. apply list_elem_of_filter. done. }
  split.
  { unfold st1. simpl. rewrite list_elem_of_filter. intros [Hf _]. congruence. }
  split; [done|].
  rewrite (wrappedRegister_update cl st1 o ob bd Hin Ho Hb Hrf Hwf).
  change (ephemeral st1) with (ephemeral st). rewrite Hbuf. simpl.
  rewrite decide_True.
  - reflexivity.
  - rewrite Hbuf in Hlen. simpl in Hlen. rewrite length_app. simpl.
    unfold MAX_EPHEMERAL in *. lia.
Qed.

End CleanupComposition.

Lemma processDestroys_spec_witness :
  let st := fst (frames 2 (executeAll demoCompile ["rain"]
                  (createExecutor (demoHeap 5) (demoBodies 5) [4]))) in
  objects st = [4; 0; 1; 2] /\
  objects (fst (fst (processDestroys [1; 7; 4] st))) = [0; 2] /\
  destroyed (snd (fst (processDestroys [1; 7; 4] st))) = [4; 7; 1] /\
  ephemeral (fst (fst (processDestroys [1; 7; 4] st))) = [1; 2].
Proof.
  intros st.
  assert (Hwf : registry_wf st).
  { refine (@bool_decide_unpack _ (Forall_dec _ _) _). vm_compute. exact I. }
  assert (Hnd : NoDup (body_at st <$> objects st)).
  { refine (@bool_decide_unpack _ (NoDup_dec _) _). vm_compute. exact I. }
  rewrite (processDestroys_spec [1; 7; 4] st Hwf Hnd). vm_compute. done.
Defined.

Lemma cleanups_change_only_the_registry_witness :
  let st := fst (loop (fst (fst (execute demoCompile "rain"
                  (createExecutor (demoHeap 5) (demoBodies 5) [4]))))) in
  let st' := fst (fst (processDestroys [1] st)) in
  registry_only st st' /\ length (ephemeral st') <= MAX_EPHEMERAL.
Proof.
  intros st st'.
  destruct (cleanups_change_only_the_registry demoCompile (fun _ => false) [1] st)
    with (st' := st') as (H1 & _ & H2).
  - apply reach_loop, reach_execute, reach_create.
  - right. right. reflexivity.
  - split; [exact H1|exact H2].
Defined.

Lemma stray_ephemeral_body_destroyed_twice_witness :
  let st := mkState (seq 0 200) (seq 0 200) []
              (list_to_map ((fun i => (i, mkObj i true true)) <$> seq 0 201))
              (demoBodies 201) 0 in
  let oob := fun b : BodyId => bool_decide (b = 0) in
  exists st1 evs1 st2,
    cleanupOOB oob st = (st1, evs1, Ok tt) /\
    EvDestroyBody 0 ∈ evs1 /\
    (0 ∉ objects st1) /\ ephemeral st1 = 0 :: seq 1 199 /\
    wrappedRegister 200 (mkClosure true [], st1) =
      ((mkClosure true [], st2), [EvDestroyBody 0], Ok tt).
Proof.
  intros st oob.
  apply (stray_ephemeral_body_destroyed_twice oob (mkClosure true []) st 200
           (mkObj 200 true true) demoBody 0 (seq 1 199)).
  - refine (@bool_decide_unpack _ (Forall_dec _ _) _). vm_compute. exact I.
  - unfold spawned_have_bodies.
    refine (@bool_decide_unpack _ (Forall_dec _ _) _). vm_compute. exact I.
  - refine (@bool_decide_unpack _ (Forall_dec _ _) _). vm_compute. exact I.
  - reflexivity.
  - reflexivity.
  - reflexivity.
  - constructor 1.
  - reflexivity.
  - vm_compute. reflexivity.
  - vm_compute. reflexivity.
  - reflexivity.
Defined.

(** ** loading.js: the overlay *)

Lemma banner_alpha_early e : (e <= 6000)%Z -> banner_alpha e = 1%Q.
Proof.
  intros He. unfold banner_alpha.
  destruct (Qle_bool (inject_Z e) fadePoint) eqn:Hle; [done|].
  exfalso.
  assert (Qle_bool (inject_Z e) fadePoint = true); [|congruence].
  apply Qle_bool_iff. unfold fadePoint, FADE_DURATION, Qle. simpl. lia.
Qed.

Lemma banner_alpha_late e :
  (6000 < e)%Z ->
  (banner_alpha e == (inject_Z 10000 - inject_Z e) / inject_Z 4000)%Q.
Proof.
  intros He. unfold banner_alpha.
  destruct (Qle_bool (inject_Z e) fadePoint) eqn:Hle.
  - exfalso. apply Qle_bool_iff in Hle.
    unfold fadePoint, FADE_DURATION, Qle in Hle. simpl in Hle. lia.
  - unfold fadePoint, FADE_DURATION. field.
Qed.

Lemma banner_alpha_range e :
  (e <= FADE_DURATION)%Z -> (0 <= banner_alpha e)%Q /\ (banner_alpha e <= 1)%Q.
Proof.
  intros He. unfold FADE_DURATION in He.
  destruct (Z_le_gt_dec e 6000) as [Hearly|Hlate].
  - rewrite banner_alpha_early by done. split; unfold Qle; simpl; lia.
  - rewrite banner_alpha_late by lia.
    split; unfold Qle, Qdiv, Qmult, Qminus, Qplus, Qopp, Qinv, inject_Z; simpl; lia.
Qed.

Lemma banner_alpha_mono e1 e2 :
  (e1 <= e2)%Z -> (banner_alpha e2 <= banner_alpha e1)%Q.
Proof.
  intros He.
  destruct (Z_le_gt_dec e1 6000) as [H1|H1]; destruct (Z_le_gt_dec e2 6000) as [H2|H2].
  - rewrite !banner_alpha_early by done. apply Qle_refl.
  - rewrite (banner_alpha_early e1), (banner_alpha_late e2) by lia.
    unfold Qle, Qdiv, Qmult, Qminus, Qplus, Qopp, Qinv, inject_Z; simpl; lia.
  - lia.
  - rewrite !banner_alpha_late by lia.
    unfold Qle, Qdiv, Qmult, Qminus, Qplus, Qopp, Qinv, inject_Z; simpl; lia.
Qed.

(** X22: whatever [draw] paints, it paints with an opacity between 0 and
    1; a banner is fully opaque for its first 6000 ms, has opacity 0 at
    10000 ms exactly, and never gets more opaque as time passes. *)
Theorem painted_alpha_in_range now o p :
  snd (draw now o) = Some p ->
  ((0 <= alpha_of p)%Q /\ (alpha_of p <= 1)%Q) /\
  (forall e, (e <= 6000)%Z -> banner_alpha e = 1%Q) /\
  (banner_alpha FADE_DURATION == 0)%Q /\
  (forall e1 e2, (e1 <= e2)%Z -> (banner_alpha e2 <= banner_alpha e1)%Q).
Proof.
  intros Hp. split; [|split; [apply banner_alpha_early|split;
    [reflexivity|apply banner_alpha_mono]]].
  unfold draw, draw_banner in Hp.
  destruct (ov_state o); simpl in Hp.
  - discriminate.
  - injection Hp as <-. simpl. split; unfold Qle; simpl; lia.
  - destruct (FADE_DURATION <? now - fadeStart o)%Z eqn:Hexp; [discriminate|].
    injection Hp as <-. simpl. apply banner_alpha_range. lia.
  - destruct (FADE_DURATION <? now - fadeStart o)%Z eqn:Hexp; [discriminate|].
    injection Hp as <-. simpl. apply banner_alpha_range. lia.
Qed.

Lemma draws_idle nows o :
  ov_state o = OvIdle -> draws nows o = (o, (fun _ => None) <$> nows).
Proof.
  intros Hi. induction nows as [|now rest IH]; [done|].
  simpl. unfold draw. rewrite Hi. by rewrite IH.
Qed.

Lemma draw_banner_cases now o :
  is_banner o ->
  ((fadeStart o + FADE_DURATION < now)%Z /\ draw now o = (hide o, None)) \/
  ((now <= fadeStart o + FADE_DURATION)%Z /\
   exists p, draw now o = (o, Some p)).
Proof.
  intros Hb. unfold draw, draw_banner.
  destruct (FADE_DURATION <? now - fadeStart o)%Z eqn:Hexp.
  - left. split; [lia|]. by destruct Hb as [-> | ->].
  - right. split; [lia|]. destruct Hb as [-> | ->]; eauto.
Qed.

(** X23: a banner (error or success) stays, unchanged, through every frame
    drawn up to 10000 ms after it was shown, and each such frame paints
    it; the first frame drawn later than that paints nothing and turns the
    overlay idle, and an idle overlay stays idle and paints nothing until
    something is shown again. *)
Theorem banner_expires nows o :
  is_banner o ->
  (ov_state (fst (draws nows o)) = OvIdle <->
   Exists (fun now => (fadeStart o + FADE_DURATION < now)%Z) nows) /\
  (Forall (fun now => (now <= fadeStart o + FADE_DURATION)%Z) nows ->
   fst (draws nows o) = o /\ Forall is_Some (snd (draws nows o))) /\
  (forall before now after,
     nows = before ++ now :: after ->
     Forall (fun t => (t <= fadeStart o + FADE_DURATION)%Z) before ->
     (fadeStart o + FADE_DURATION < now)%Z ->
     fst (draws nows o) = hide o /\
     drop (length before) (snd (draws nows o)) = (fun _ => None) <$> (now :: after)).
Proof.
  intros Hb.
  assert (Hstay : forall l, Forall (fun now => (now <= fadeStart o + FADE_DURATION)%Z) l ->
            exists ps, draws l o = (o, ps) /\ Forall is_Some ps /\ length ps = length l).
  { induction 1 as [|now rest Hnow _ (ps & IH & Hps & Hlen)]; [by exists []|].
    simpl. destruct (draw_banner_cases now o Hb) as [[Hlt _]|[_ [p Hd]]]; [lia|].
    rewrite Hd, IH. exists (Some p :: ps). split_and!; [done| |simpl; lia].
    constructor; [by eexists|done]. }
  assert (Hgo : forall before now after,
     Forall (fun t => (t <= fadeStart o + FADE_DURATION)%Z) before ->
     (fadeStart o + FADE_DURATION < now)%Z ->
     fst (draws (before ++ now :: after) o) = hide o /\
     drop (length before) (snd (draws (before ++ now :: after) o)) =
       (fun _ => None) <$> (now :: after)).
  { intros before now after Hbefore Hnow.
    induction Hbefore as [|t rest Ht _ IH].
    - simpl. destruct (draw_banner_cases now o Hb) as [[_ Hd]|[Hle _]]; [|lia].
      rewrite Hd, draws_idle by done. done.
    - simpl. destruct (draw_banner_cases t o Hb) as [[Hlt _]|[_ [p Hd]]]; [lia|].
      rewrite Hd. destruct (draws (rest ++ now :: after) o) as [o2 ps]. simpl in *.
      exact IH. }
  split_and!.
  - split.
    + intros Hidle.
      destruct (decide (Exists (fun now => (fadeStart o + FADE_DURATION < now)%Z) nows))
        as [Hex|Hn]; [done|].
      exfalso. apply not_Exists_Forall in Hn; [|intros t; apply _].
      destruct (Hstay nows) as (ps & Hd & _).
      { eapply Forall_impl; [exact Hn|]. intros t Ht. simpl in Ht. lia. }
      rewrite Hd in Hidle. simpl in Hidle. destruct Hb; congruence.
    + intros Hex.
      assert (exists before now after, nows = before ++ now :: after /\
                Forall (fun t => (t <= fadeStart o + FADE_DURATION)%Z) before /\
                (fadeStart o + FADE_DURATION < now)%Z) as (bf & t & af & -> & Hbf & Ht).
      { clear Hstay Hgo. induction nows as [|t rest IH]; [by apply Exists_nil in Hex|].
        destruct (decide (fadeStart o + FADE_DURATION < t)%Z) as [Ht|Ht].
        - exists [], t, rest. split_and!; [done|constructor|done].
        - apply Exists_cons in Hex as [Hex|Hex]; [done|].
          destruct (IH Hex) as (bf & t' & af & -> & Hbf & Ht').
          exists (t :: bf), t', af. split_and!; [done| |done].
          constructor; [lia|done]. }
      destruct (Hgo bf t af Hbf Ht) as [-> _]. done.
  - intros Hall. destruct (Hstay nows Hall) as (ps & Hd & Hps & _).
    by rewrite Hd.
  - intros before now after -> Hbefore Hnow. by apply Hgo.
Qed.

(** X24: the spinner never expires: while nothing else is shown, every
    frame paints it, fully opaque and with its message, however much time
    passes, and the overlay stays in its loading state. *)
Theorem loading_never_expires nows : forall o,
  ov_state o = OvLoading ->
  ov_state (fst (draws nows o)) = OvLoading /\
  ov_message (fst (draws nows o)) = ov_message o /\
  Forall (fun p => exists angle, p = Some (PaintLoading 1 (ov_message o) angle))
    (snd (draws nows o)) /\
  length (snd (draws nows o)) = length nows.
Proof.
  induction nows as [|now rest IH]; intros o Hl; [by split_and!|].
  simpl. unfold draw. rewrite Hl.
  set (o1 := mkOverlay OvLoading _ _ _).
  destruct (IH o1 eq_refl) as (H1 & H2 & H3 & H4).
  destruct (draws rest o1) as [o2 ps]. simpl in *.
  split_and!; [done|done| |by rewrite H4].
  constructor; [by eexists|done].
Qed.

Lemma painted_alpha_in_range_witness :
  let o := showSuccess 1000 "Created!" createLoadingOverlay in
  snd (draw 9000 o) = Some (PaintBanner (banner_alpha 8000) "Created!" "#1e8e3e") /\
  (0 <= banner_alpha 8000)%Q /\ (banner_alpha 8000 <= 1)%Q /\
  (banner_alpha 8000 == 1 # 2)%Q.
Proof.
  intros o.
  destruct (painted_alpha_in_range 9000 o
              (PaintBanner (banner_alpha 8000) "Created!" "#1e8e3e"))
    as ((H1 & H2) & _).
  - reflexivity.
  - split_and!; [reflexivity|exact H1|exact H2|reflexivity].
Defined.

Lemma banner_expires_witness :
  let o := showError 1000 "Syntax error in generated code: x" createLoadingOverlay in
  ov_state (fst (draws [2000; 11000; 11001; 11002]%Z o)) = OvIdle /\
  snd (draws [2000; 11000; 11001; 11002]%Z o) =
    [Some (PaintBanner 1 "Syntax error in generated code: x" "#d93025");
     Some (PaintBanner (banner_alpha 10000) "Syntax error in generated code: x" "#d93025");
     None; None].
Proof.
  intros o.
  destruct (banner_expires [2000; 11000; 11001; 11002]%Z o) as (H1 & _ & _).
  - left. reflexivity.
  - split; [|reflexivity].
    apply H1. do 2 constructor 2. constructor 1. reflexivity.
Defined.

Lemma loading_never_expires_witness :
  let o := showLoading EmptyString createLoadingOverlay in
  ov_message o = "Generating..." /\
  ov_state (fst (draws [0; 100000; 9000000]%Z o)) = OvLoading /\
  length (snd (draws [0; 100000; 9000000]%Z o)) = 3.
Proof.
  intros o.
  destruct (loading_never_expires [0; 100000; 9000000]%Z o) as (H1 & _ & _ & H4).
  - reflexivity.
  - split_and!; [reflexivity|exact H1|exact H4].
Defined.

(** ** main.js: the overlay under [handleSearch] *)

Lemma overlay_after_silent clock evs : forall k o,
  Forall overlay_silent evs -> overlay_after clock k evs o = o.
Proof.
  induction evs as [|ev evs IH]; intros k o Hs; [done|].
  apply Forall_cons in Hs as [Hev Hs]. simpl. rewrite IH by done.
  by destruct ev.
Qed.

Lemma overlay_after_app clock e1 : forall k e2 o,
  overlay_after clock k (e1 ++ e2) o =
  overlay_after clock (k + length e1) e2 (overlay_after clock k e1 o).
Proof.
  induction e1 as [|ev e1 IH]; intros k e2 o; simpl.
  - by rewrite Nat.add_0_r.
  - rewrite IH. f_equal. lia.
Qed.

Lemma ends_with_banner_after clock k evs o :
  ends_with_banner evs -> is_banner (overlay_after clock k evs o).
Proof.
  intros (before & ev & after & -> & [msg Hev] & Hs).
  rewrite overlay_after_app. simpl. rewrite overlay_after_silent by done.
  destruct Hev as [-> | ->]; [by right|by left].
Qed.

Lemma ends_with_banner_app e1 e2 : ends_with_banner e2 -> ends_with_banner (e1 ++ e2).
Proof.
  intros (before & ev & after & -> & Hev & Hs).
  exists (e1 ++ before), ev, after. by rewrite <- app_assoc.
Qed.

Lemma ends_with_banner_cons e evs : ends_with_banner evs -> ends_with_banner (e :: evs).
Proof. apply (ends_with_banner_app [e]). Qed.

Lemma finally_silent : Forall overlay_silent finallyEvents.
Proof. repeat constructor. Qed.

Lemma success_ends msg : ends_with_banner (EvShowSuccess msg :: finallyEvents).
Proof. exists [], (EvShowSuccess msg), finallyEvents. split_and!; eauto using finally_silent. Qed.

Lemma catch_ends e : ends_with_banner (catchEvents e ++ finallyEvents).
Proof.
  exists [EvConsoleError e], (EvShowError (message e)), finallyEvents.
  split_and!; eauto using finally_silent.
Qed.

Lemma destroy_silent evs : Forall is_destroy evs -> Forall overlay_silent evs.
Proof. intros H. eapply Forall_impl; [exact H|]. by intros []. Qed.

Lemma cache_get_silent key c : Forall overlay_silent (snd (fst (cache_get key c))).
Proof.
  unfold cache_get. repeat case_match; simpl; repeat constructor.
Qed.

Section OverlayFacts.

Variable js_compile : string -> Compiled.

Lemma execute_events code st :
  Forall is_destroy (snd (fst (execute js_compile code st))).
Proof.
  unfold execute. destruct (js_compile code) as [msg|fn]; [constructor|].
  pose proof (run_script_steady (setup fn) (mkClosure false []) st) as H.
  destruct (run_script (setup fn) _) as [[[cl1 st1] evs] [[]|e]];
    destruct H as [Hs _]; [|exact (steady_events _ _ _ _ _ Hs)].
  destruct (result_update fn); exact (steady_events _ _ _ _ _ Hs).
Qed.

Lemma resume_overlay i r app :
  let '(app', evs) := resume js_compile i r app in
  (isGenerating app' = isGenerating app /\ Forall overlay_silent evs) \/
  (isGenerating app' = false /\ ends_with_banner evs).
Proof.
  unfold resume.
  destruct (inflight app !! i) as [[text|text key|text key]|].
  - destruct r as [key|e].
    + left. split; [done|repeat constructor].
    + right. split; [done|apply catch_ends].
  - pose proof (cache_get_silent key (cache app)) as Hc.
    destruct (cache_get key (cache app)) as [[c evs] cached]. simpl in Hc.
    assert (Hnext : forall p,
      isGenerating (mkApp (executor app) c (isGenerating app) (<[i := p]> (inflight app)))
        = isGenerating app /\ Forall overlay_silent evs) by done.
    destruct cached as [[code|]|e]; [|by left|by left].
    destruct (truthy code); [|by left].
    pose proof (execute_events code (executor app)) as He.
    destruct (execute js_compile code (executor app)) as [[st evs'] [[]|e]];
      right; (split; [done|]); do 2 apply ends_with_banner_app.
    + apply success_ends.
    + apply catch_ends.
  - destruct r as [code|e].
    + destruct (execute js_compile code (executor app)) as [[st evs'] [[]|e]].
      * destruct (cache_set key code (cache app)) as [[c evs''] r'].
        right. split; [done|]. do 2 apply ends_with_banner_app. apply success_ends.
      * right. split; [done|]. apply ends_with_banner_app, catch_ends.
    + right. split; [done|apply catch_ends].
  - left. split; [done|constructor].
Qed.

Lemma step_overlay clock inp app o :
  overlay_tracks app o ->
  let '(app', evs) := step js_compile inp app in
  overlay_tracks app' (overlay_after clock 0 evs o).
Proof.
  intros Ht. destruct inp as [text|i r]; simpl.
  - unfold handleSearch. destruct (isGenerating app) eqn:Hg; simpl; [exact Ht|].
    unfold overlay_tracks. simpl. done.
  - pose proof (resume_overlay i r app) as H.
    destruct (resume js_compile i r app) as [app' evs].
    destruct H as [[Hg Hs]|[Hg Hb]].
    + rewrite overlay_after_silent by done. unfold overlay_tracks in *. by rewrite Hg.
    + apply (ends_with_banner_after clock 0 evs o) in Hb.
      unfold overlay_tracks. rewrite Hg.
      split; [done|]. intros Hl. destruct Hb; congruence.
Qed.

Lemma draw_keeps_loading now o :
  ov_state (fst (draw now o)) = OvLoading <-> ov_state o = OvLoading.
Proof.
  unfold draw, draw_banner.
  destruct (ov_state o) eqn:Hs; simpl; try done;
    destruct (FADE_DURATION <? now - fadeStart o)%Z; simpl; by rewrite ?Hs.
Qed.

(** X25: the overlay shows the spinner exactly while a generation is under
    way. Starting from a page where that is so (a fresh page is one),
    it stays so through any sequence of submissions, settled promises,
    drawn frames and activity of the rest of the page: every path out of
    [handleSearch] replaces the spinner by a banner, nothing else shows
    or removes the spinner, and no frame lets it expire. *)
Theorem overlay_tracks_generation stims : forall app o,
  overlay_tracks app o ->
  overlay_tracks (fst (session js_compile stims app o))
                 (snd (session js_compile stims app o)).
Proof.
  induction stims as [|[clock inp|now|f] rest IH]; intros app o Ht; [done| | |].
  - cbn [session]. pose proof (step_overlay clock inp app o Ht) as H.
    destruct (step js_compile inp app) as [app1 evs]. by apply IH.
  - cbn [session]. apply IH. unfold overlay_tracks in *.
    by rewrite draw_keeps_loading.
  - cbn [session]. by apply IH.
Qed.

End OverlayFacts.

Lemma overlay_tracks_generation_witness :
  let '(app, o) :=
    session demoCompile
      [Act (fun _ => 0%Z) (Submit "a ball"); Paint 500000;
       Act (fun _ => 500100%Z) (Settle 0 (Ok "ball"))]
      (initialApp (demoState 0) (demoCache 5000)) createLoadingOverlay in
  isGenerating app = true /\ ov_state o = OvLoading /\
  ov_message o = generatingMessage "a ball".
Proof.
  pose proof (overlay_tracks_generation demoCompile
      [Act (fun _ => 0%Z) (Submit "a ball"); Paint 500000;
       Act (fun _ => 500100%Z) (Settle 0 (Ok "ball"))]
      (initialApp (demoState 0) (demoCache 5000)) createLoadingOverlay) as H.
  destruct (session demoCompile _ _ _) as [app o] eqn:Hs.
  vm_compute in Hs. injection Hs as <- <-.
  assert (Hg : isGenerating
    (mkApp (demoState 0) (demoCache 5000) true [AwaitCacheGet "a ball" "ball"]) = true)
    by reflexivity.
  split; [reflexivity|]. split; [|reflexivity].
  apply H; [|reflexivity]. split; intros; discriminate.
Defined.

(** ** main.js: a whole frame *)

Lemma cleanupOOB_from_events oob i : forall st,
  Forall is_destroy (snd (fst (cleanupOOB_from oob i st))).
Proof.
  induction i as [|j IH]; intros st; [constructor|].
  cbn [cleanupOOB_from].
  destruct (objects st !! j ≫= _) as [ob|]; [|constructor].
  destruct (obj_spawned ob); [|apply IH].
  destruct (bodies st !! obj_body ob); [|constructor].
  destruct (oob (obj_body ob)); [|apply IH].
  specialize (IH (set_objects (fun l => delete j l) st)).
  destruct (cleanupOOB_from oob j _) as [[st' evs] r]. simpl in *.
  by constructor.
Qed.

Lemma ticks_app evs evs' : ticks (evs ++ evs') = ticks evs ++ ticks evs'.
Proof. unfold ticks. by rewrite omap_app. Qed.

Section FrameFacts.

Variable outOfBounds : nat -> BodyId -> bool.
Variable renderer_draw : State -> Outcome unit.

(** A frame whose updater pass leaves a spawned entry without a body ends
    in [cleanupOOB]. *)
Lemma frame_stops k st :
  registry_wf (fst (loop st)) ->
  Exists (bodiless (fst (loop st))) (objects (fst (loop st))) ->
  exists st',
    frame outOfBounds renderer_draw k st =
      (st', snd (loop st) ++ snd (fst (cleanupOOB (outOfBounds k) (fst (loop st)))),
       Throw (typeError "getPosition")) /\
    registry_only (fst (loop st)) st' /\
    ticks (snd (loop st) ++ snd (fst (cleanupOOB (outOfBounds k) (fst (loop st))))) =
      ticks (snd (loop st)).
Proof.
  intros Hwf Hex. unfold frame.
  destruct (loop st) as [st1 evs1]. simpl in *.
  pose proof (cleanupOOB_from_throws (outOfBounds k) (length (objects st1)) st1 Hwf
                ltac:(lia)) as Hthrow.
  rewrite take_ge in Hthrow by lia. specialize (Hthrow Hex).
  pose proof (cleanupOOB_from_registry_only (outOfBounds k) (length (objects st1)) st1)
    as Hro.
  pose proof (cleanupOOB_from_events (outOfBounds k) (length (objects st1)) st1) as Hev.
  unfold cleanupOOB.
  destruct (cleanupOOB_from (outOfBounds k) (length (objects st1)) st1)
    as [[st2 evs2] r]. simpl in *. subst r.
  exists st2. split_and!; [done|done|].
  rewrite ticks_app. unfold ticks at 2. rewrite omap_destroy_only by done.
  by rewrite app_nil_r.
Qed.

Lemma animation_stops k n st st' evs e :
  frame outOfBounds renderer_draw k st = (st', evs, Throw e) ->
  animation outOfBounds renderer_draw k (S n) st = (st', evs, Throw e).
Proof. intros H. cbn [animation]. by rewrite H. Qed.

End FrameFacts.

(** C2, on the code: the loop guards the calls of [update()] and nothing
    else. A tick that registers an object without a body throws in the
    register capability after the object was put in the registry and
    marked spawned. The pass catches the exception, warns, drops that
    handle and goes on to tick the others; but a frame whose pass leaves
    such an entry throws in [cleanupOOB()], before
    [requestAnimationFrame(loop)]: no later frame runs and no behavior is
    ticked again. On the page with the behaviors [ball] and [ghost], the
    first frame ticks both, drops [ghost] and ends in a [TypeError];
    however many frames are asked for, [ball], which is still in
    [updaters], was ticked once. Without [ghost], [ball] is ticked on every
    frame. *)
Theorem tick_failure_stops_the_loop :
  (forall cl st o ob,
     inUpdate cl = true -> heap st !! o = Some ob ->
     bodies st !! obj_body ob = None ->
     exists st',
       wrappedRegister o (cl, st) = ((cl, st'), [], Throw (typeError "getUserData")) /\
       objects st' = objects st ++ [o] /\ bodiless st' o) /\
  (forall outOfBounds renderer_draw k n st,
     registry_wf (fst (loop st)) ->
     Exists (bodiless (fst (loop st))) (objects (fst (loop st))) ->
     snd (frame outOfBounds renderer_draw k st) = Throw (typeError "getPosition") /\
     snd (animation outOfBounds renderer_draw k (S n) st) =
       Throw (typeError "getPosition") /\
     ticks (snd (fst (animation outOfBounds renderer_draw k (S n) st))) =
       ticks (snd (loop st))) /\
  (forall outOfBounds renderer_draw n,
     let st := executeAll ghostCompile ["ball"; "ghost"] ghostState in
     (uid <$> updaters st) = [0; 1] /\
     ticks (snd (loop st)) = [1; 0] /\
     warns (snd (loop st)) = [1] /\
     (uid <$> updaters (fst (loop st))) = [0] /\
     objects (fst (loop st)) = [100; 200] /\
     bodiless (fst (loop st)) 200 /\
     let '(st', evs, r) := animation outOfBounds renderer_draw 0 (S n) st in
     r = Throw (typeError "getPosition") /\
     ticks evs = [1; 0] /\
     (uid <$> updaters st') = [0]) /\
  (let st := executeAll ghostCompile ["ball"] ghostState in
   let '(st', evs, r) := animation (fun _ _ => false) (fun _ => Ok tt) 0 3 st in
   r = Ok tt /\ ticks evs = [0; 0; 0]).
Proof.
  assert (H2 : forall outOfBounds renderer_draw k n st,
     registry_wf (fst (loop st)) ->
     Exists (bodiless (fst (loop st))) (objects (fst (loop st))) ->
     exists st',
       animation outOfBounds renderer_draw k (S n) st =
         (st', snd (loop st) ++
               snd (fst (cleanupOOB (outOfBounds k) (fst (loop st)))),
          Throw (typeError "getPosition")) /\
       frame outOfBounds renderer_draw k st =
         (st', snd (loop st) ++
               snd (fst (cleanupOOB (outOfBounds k) (fst (loop st)))),
          Throw (typeError "getPosition")) /\
       registry_only (fst (loop st)) st' /\
       ticks (snd (loop st) ++
              snd (fst (cleanupOOB (outOfBounds k) (fst (loop st))))) =
         ticks (snd (loop st))).
  { intros oob draw k n st Hwf Hex.
    destruct (frame_stops oob draw k st Hwf Hex) as (st' & Hf & Hro & Ht).
    exists st'. split_and!; try done. by apply animation_stops. }
  split_and!.
  - intros cl st o ob Hin Ho Hb.
    rewrite (wrappedRegister_update_throws cl st o ob Hin Ho (typeError "getUserData"))
      by (left; done).
    eexists. split; [reflexivity|]. split; [done|].
    unfold bodiless, spawnedAt, body_at. simpl. rewrite lookup_insert_eq. done.
  - intros oob draw k n st Hwf Hex.
    destruct (H2 oob draw k n st Hwf Hex) as (st' & Ha & Hf & _ & Ht).
    rewrite Ha, Hf. done.
  - intros oob draw n st.
    assert (Hloop : exists st1, loop st = (st1, snd (loop st)) /\
              objects st1 = [100; 200] /\ (uid <$> updaters st1) = [0] /\
              registry_wf st1 /\ bodiless st1 200).
    { eexists. split; [vm_compute; reflexivity|].
      split_and!; [reflexivity|reflexivity| |split; reflexivity].
      refine (@bool_decide_unpack _ (Forall_dec _ _) _). vm_compute. exact I. }
    destruct Hloop as (st1 & Hl & Hobj & Hupd & Hwf & Hbl).
    assert (Hst1 : fst (loop st) = st1) by (by rewrite Hl).
    split; [reflexivity|]. split; [vm_compute; reflexivity|].
    split; [vm_compute; reflexivity|].
    rewrite Hst1. split; [done|]. split; [done|]. split; [done|].
    destruct (H2 oob draw 0 n st) as (st' & Ha & _ & Hro & Ht).
    + by rewrite Hst1.
    + rewrite Hst1, Hobj. apply Exists_cons. right. apply Exists_cons. by left.
    + rewrite Ha. split; [done|]. rewrite Ht. split; [vm_compute; reflexivity|].
      destruct Hro as (_ & -> & _). by rewrite Hst1.
  - vm_compute. done.
Qed.

Lemma tick_failure_stops_the_loop_witness :
  let st := executeAll ghostCompile ["ball"; "ghost"] ghostState in
  snd (frame (fun _ _ => false) (fun _ => Ok tt) 0 st) = Throw (typeError "getPosition") /\
  ticks (snd (fst (animation (fun _ _ => false) (fun _ => Ok tt) 0 3 st))) = [1; 0].
Proof.
  intros st.
  destruct tick_failure_stops_the_loop as (_ & H & _).
  destruct (H (fun _ _ => false) (fun _ => Ok tt) 0 2 st) as (Hf & _ & Ht).
  - refine (@bool_decide_unpack _ (Forall_dec _ _) _). vm_compute. exact I.
  - apply Exists_exists. exists 200. split.
    + vm_compute. constructor 2. constructor 1.
    + split; vm_compute; reflexivity.
  - split; [exact Hf|]. rewrite Ht. vm_compute. reflexivity.
Defined.

Lemma uids_kept (g : Updater -> option Updater) (d : Updater -> bool) us :
  (forall v v', g v = Some v' -> uid v' = uid v) ->
  (forall v, g v = None <-> d v = true) ->
  NoDup (uid <$> us) ->
  uid <$> omap g us =
    filter (fun id => id ∉ (uid <$> filter (fun u => d u = true) us)) (uid <$> us).
Proof.
  intros Hg Hd. induction us as [|u us IH]; intros Hnd; [done|].
  rewrite fmap_cons in Hnd. apply NoDup_cons in Hnd as [Hu Hnd].
  specialize (IH Hnd). cbn [omap list_omap]. rewrite fmap_cons.
  destruct (d u) eqn:Hdu.
  - assert (g u = None) as -> by (by apply Hd).
    rewrite (filter_cons_True (fun u => d u = true)) by done.
    rewrite fmap_cons, filter_cons_False by (intros Hc; apply Hc; by left).
    rewrite IH, filter_not_in_cons. by rewrite (filter_ne_absent (uid u)).
  - destruct (g u) as [u'|] eqn:Hgu; [|apply Hd in Hgu; congruence].
    rewrite (filter_cons_False (fun u => d u = true)) by (rewrite Hdu; done).
    rewrite fmap_cons, (Hg _ _ Hgu), filter_cons_True; [by rewrite IH|].
    intros Hc. apply Hu. apply list_elem_of_fmap in Hc as (v & -> & Hv).
    apply list_elem_of_filter in Hv as [_ Hv]. by apply list_elem_of_fmap_2.
Qed.

Lemma uid_inj_on (us : list Updater) u v :
  NoDup (uid <$> us) -> u ∈ us -> v ∈ us -> uid u = uid v -> u = v.
Proof.
  induction us as [|z us IH]; intros Hnd Hx Hy Hf; [by apply elem_of_nil in Hx|].
  rewrite fmap_cons in Hnd. apply NoDup_cons in Hnd as [Hz Hnd].
  apply elem_of_cons in Hx as [->|Hx]; apply elem_of_cons in Hy as [->|Hy].
  - done.
  - exfalso. apply Hz. rewrite Hf. by apply list_elem_of_fmap_2.
  - exfalso. apply Hz. rewrite <- Hf. by apply list_elem_of_fmap_2.
  - by apply IH.
Qed.

Lemma next_handle_dropped st u : next_handle st u = None <-> is_dropped st u = true.
Proof. unfold next_handle, is_dropped. by destruct (tick_outcome st u). Qed.

Lemma rev_reverse {A} (l : list A) : rev l = reverse l.
Proof. unfold reverse. by rewrite rev_alt. Qed.

(** X26: an exception in one tick stays within the updater pass. The pass
    enters every handle once, the last pushed first, whatever the ticks
    before it did, and shows nothing to the user; it warns at most once
    about a handle, and the handles it keeps are exactly those it did not
    warn about, in their order. The handle ticked first is warned about
    and dropped exactly when its tick throws in the state the pass
    started in. *)
Theorem updater_pass_contains_failures st :
  wf st -> NoDup (uid <$> updaters st) ->
  let '(st', evs) := loop st in
  ticks evs = rev (uid <$> updaters st) /\
  Forall (fun ev => user_visible ev = false) evs /\
  NoDup (warns evs) /\
  (uid <$> updaters st') = filter (fun id => id ∉ warns evs) (uid <$> updaters st) /\
  (forall us u, updaters st = us ++ [u] ->
     (uid u ∈ warns evs <-> exists e, tick_outcome st u = TickThrow e)).
Proof.
  intros Hwf Hnd. pose proof (loop_spec st Hwf) as H.
  destruct (loop st) as [st' evs] eqn:Hloop.
  destruct H as (_ & Hu & Ht & _ & Hw & Hv).
  assert (Hsub : (uid <$> filter (fun u => is_dropped st u = true) (updaters st))
                   `sublist_of` (uid <$> updaters st)).
  { apply fmap_sublist, sublist_filter. }
  split_and!; try done.
  - rewrite Hw, rev_reverse, reverse_Permutation. by apply (sublist_NoDup _ _ Hnd).
  - rewrite Hu, Hw.
    rewrite (uids_kept (next_handle st) (is_dropped st));
      [|apply next_handle_uid|apply next_handle_dropped|done].
    apply list_filter_iff. intros x. by rewrite elem_of_rev.
  - intros us u Hus.
    assert (Hin : u ∈ updaters st) by (rewrite Hus; apply elem_of_app; right; by left).
    rewrite Hw, elem_of_rev. split.
    + intros Hc. apply list_elem_of_fmap in Hc as (v & Huv & Hv').
      apply list_elem_of_filter in Hv' as [Hdv Hv'].
      assert (v = u) as -> by (by apply (uid_inj_on (updaters st))).
      unfold is_dropped in Hdv. destruct (tick_outcome st u); try done. eauto.
    + intros [e He]. apply list_elem_of_fmap_2. apply list_elem_of_filter.
      split; [|done]. unfold is_dropped. by rewrite He.
Qed.

Lemma updater_pass_contains_failures_witness :
  let st := fst (frames 2 (executeAll demoCompile ["ball"; "bomb"] (demoState 200))) in
  let '(st', evs) := loop st in
  ticks evs = [1; 0] /\ warns evs = [1] /\ (uid <$> updaters st') = [0].
Proof.
  intros st.
  assert (Hwf : wf st) by (vm_compute; constructor).
  assert (Hnd : NoDup (uid <$> updaters st))
    by (refine (@bool_decide_unpack _ (NoDup_dec _) _); vm_compute; exact I).
  pose proof (updater_pass_contains_failures st Hwf Hnd) as H.
  destruct (loop st) as [st' evs] eqn:Hloop.
  destruct H as (Ht & _ & _ & Hk & _).
  assert (Hw : warns evs = [1]).
  { change evs with (snd (st', evs)). rewrite <- Hloop. vm_compute. reflexivity. }
  split; [rewrite Ht; vm_compute; reflexivity|]. split; [exact Hw|].
  rewrite Hk, Hw. vm_compute. reflexivity.
Defined.

Section FrameInvariant.

Variable outOfBounds : nat -> BodyId -> bool.
Variable renderer_draw : State -> Outcome unit.

(** X16: a frame, whether it ends in [requestAnimationFrame] or in an
    exception, never adds a handle and never reorders the ones it keeps;
    it leaves the identity counter alone, shows nothing to the user, and
    keeps the ring buffer a list of objects within its capacity. *)
Theorem frame_only_removes k st :
  wf st ->
  let '(st', evs, r) := frame outOfBounds renderer_draw k st in
  (uid <$> updaters st') `sublist_of` (uid <$> updaters st) /\
  length (updaters st') <= length (updaters st) /\
  nextUid st' = nextUid st /\ wf st' /\
  (length (ephemeral st) <= MAX_EPHEMERAL -> length (ephemeral st') <= MAX_EPHEMERAL) /\
  Forall (fun ev => user_visible ev = false) evs.
Proof.
  intros Hwf. unfold frame. pose proof (loop_spec st Hwf) as H.
  destruct (loop st) as [st1 evs1]. destruct H as (Hc & Hu & _ & _ & _ & Hv).
  pose proof (cleanupOOB_from_registry_only (outOfBounds k) (length (objects st1)) st1)
    as Hro.
  pose proof (cleanupOOB_from_events (outOfBounds k) (length (objects st1)) st1) as Hev.
  unfold cleanupOOB.
  destruct (cleanupOOB_from (outOfBounds k) (length (objects st1)) st1)
    as [[st2 evs2] r]. simpl in Hro, Hev.
  destruct Hro as (He & Hup & Hh & Hb & Hn).
  assert (Hsub : (uid <$> updaters st2) `sublist_of` (uid <$> updaters st)).
  { rewrite Hup, Hu. apply omap_uids_sublist, next_handle_uid. }
  assert (Hall :
    (uid <$> updaters st2) `sublist_of` (uid <$> updaters st) /\
    length (updaters st2) <= length (updaters st) /\
    nextUid st2 = nextUid st /\ wf st2 /\
    (length (ephemeral st) <= MAX_EPHEMERAL -> length (ephemeral st2) <= MAX_EPHEMERAL) /\
    Forall (fun ev => user_visible ev = false) (evs1 ++ evs2)).
  { split_and!; try done.
    - apply sublist_length in Hsub. by rewrite !length_fmap in Hsub.
    - rewrite Hn. apply Hc.
    - unfold wf. rewrite He, Hh. by apply Hc.
    - rewrite He. apply Hc.
    - apply Forall_app. split; [done|]. by apply destroy_not_visible. }
  destruct r as [[]|e]; [destruct (renderer_draw st2)|]; exact Hall.
Qed.

End FrameInvariant.

Lemma frame_only_removes_witness :
  let st := executeAll ghostCompile ["ball"; "ghost"] ghostState in
  let '(st', evs, r) := frame (fun _ _ => false) (fun _ => Ok tt) 0 st in
  (uid <$> updaters st) = [0; 1] /\
  (uid <$> updaters st') `sublist_of` [0; 1] /\
  nextUid st' = 2 /\ r = Throw (typeError "getPosition").
Proof.
  intros st.
  assert (Hwf : wf st) by (vm_compute; constructor).
  pose proof (frame_only_removes (fun _ _ => false) (fun _ => Ok tt) 0 st Hwf) as H.
  destruct (frame _ _ 0 st) as [[st' evs] r] eqn:Hf.
  destruct H as (Hs & _ & Hn & _).
  split; [vm_compute; reflexivity|]. split; [exact Hs|]. split.
  - rewrite Hn. vm_compute. reflexivity.
  - change r with (snd (st', evs, r)). rewrite <- Hf. vm_compute. reflexivity.
Defined.
